(** * pygfssss: Shamir secret sharing over GF(256)

    A shallow embedding of [pyssss/GF256elt.py] and [pyssss/PySSSS.py],
    and the properties of the field tables, the field arithmetic and the
    split / reconstruct engine.

    Python integers are [Z]; byte streams are lists of [Z]; the class
    attributes [__logtable] and [__exptable] are an explicit [tables]
    value passed to the arithmetic.  Python exceptions and unbounded
    [while] loops are the [outcome] monad below. *)

From Stdlib Require Import ZArith List Lia Ring Bool.
From stdpp Require Import base list numbers.
Import ListNotations.
Local Open Scope Z_scope.
#[local] Unset Default Proof Using.

(** ** Exceptions, outcomes *)

(** The source raises a bare [Exception()] in the field arithmetic; the
    constructors name the raise site. *)
Inductive exn : Type :=
| DivisionByZero            (* GF256elt.__truediv__, zero divisor *)
| InvalidOperand            (* GF256elt.log, zero element *)
| InvalidArgument           (* PGF256.f on an empty coefficient list *)
| UnexpectedEOF (i : nat)   (* decode: 'Unexpected EOF while reading key %d' *)
| TypeError                 (* ord() of an empty bytes object *)
| IndexError.               (* list index out of range *)

(** [OutOfFuel]: a [while] loop was still running when the iteration
    budget ended. *)
Inductive outcome (A : Type) : Type :=
| Returns (a : A)
| Raises (e : exn)
| OutOfFuel.
Arguments Returns {A} a.
Arguments Raises {A} e.
Arguments OutOfFuel {A}.

#[global] Instance outcome_ret : MRet outcome := fun _ a => Returns a.
#[global] Instance outcome_bind : MBind outcome := fun _ _ f m =>
  match m with
  | Returns a => f a
  | Raises e => Raises e
  | OutOfFuel => OutOfFuel
  end.

(** [for x in l: s = body x s] *)
Fixpoint for_each {A S : Type} (l : list A) (s : S) (body : A -> S -> outcome S)
  : outcome S :=
  match l with
  | [] => Returns s
  | x :: l' => s' ← body x s; for_each l' s' body
  end.

(** [range(a, b)] *)
Definition range (a b : Z) : list Z :=
  map (fun i => a + Z.of_nat i) (seq 0 (Z.to_nat (b - a))).

(** [l[i]]: negative indices count from the end, anything outside raises. *)
Definition getitem {A : Type} (l : list A) (i : Z) : outcome A :=
  let j := if i <? 0 then i + Z.of_nat (length l) else i in
  if j <? 0 then Raises IndexError
  else match l !! Z.to_nat j with
       | Some v => Returns v
       | None => Raises IndexError
       end.

(** [l[i] = v] *)
Definition setitem {A : Type} (l : list A) (i : Z) (v : A) : outcome (list A) :=
  let j := if i <? 0 then i + Z.of_nat (length l) else i in
  if (j <? 0) || (Z.of_nat (length l) <=? j) then Raises IndexError
  else Returns (<[Z.to_nat j := v]> l).

(** ** GF256elt *)

Definition is_byte (v : Z) : bool := (0 <=? v) && (v <? 256).

(** An instance holds [__bytevalue], which [__init__] reduces modulo 256. *)
Record GF256elt : Type := mkGF256elt {
  bytevalue : Z;
  bytevalue_is_byte : is_byte bytevalue = true
}.

Lemma mod256_is_byte (value : Z) : is_byte (value mod 256) = true.
Proof.
  unfold is_byte. pose proof (Z.mod_pos_bound value 256 ltac:(lia)).
  apply andb_true_intro; split; [apply Z.leb_le | apply Z.ltb_lt]; lia.
Qed.

(** [GF256elt(value)] *)
Definition GF256elt_init (value : Z) : GF256elt :=
  mkGF256elt (value mod 256) (mod256_is_byte value).

(** [int(x)] *)
Definition GF256elt_int (x : GF256elt) : Z := bytevalue x.

(** [x == y] *)
Definition GF256elt_eq (x y : GF256elt) : bool := bytevalue x =? bytevalue y.

(** The class attributes [__logtable] and [__exptable]. *)
Record tables : Type := mkTables {
  logtable : list Z;
  exptable : list Z
}.

Definition GF256elt_add (x y : GF256elt) : GF256elt :=
  GF256elt_init (Z.lxor (bytevalue x) (bytevalue y)).

Definition GF256elt_sub (x y : GF256elt) : GF256elt :=
  GF256elt_add x y.

Definition GF256elt_log (T : tables) (x : GF256elt) : outcome Z :=
  if bytevalue x =? 0 then Raises InvalidOperand
  else getitem (logtable T) (bytevalue x).

Definition GF256elt_mul (T : tables) (x y : GF256elt) : outcome GF256elt :=
  if (bytevalue x =? 0) || (bytevalue y =? 0) then Returns (GF256elt_init 0)
  else
    lx ← GF256elt_log T x;
    ly ← GF256elt_log T y;
    let p := (lx + ly) mod 255 in
    e ← getitem (exptable T) p;
    Returns (GF256elt_init e).

Definition GF256elt_truediv (T : tables) (x y : GF256elt) : outcome GF256elt :=
  if bytevalue y =? 0 then Raises DivisionByZero
  else if bytevalue x =? 0 then Returns (GF256elt_init 0)
  else
    lx ← GF256elt_log T x;
    ly ← GF256elt_log T y;
    let p := (lx - ly) mod 255 in
    let p := if p <? 0 then p + 255 else p in
    e ← getitem (exptable T) p;
    Returns (GF256elt_init e).

(** ** Table generation *)

Definition generate_pplogexp_tables (prime_poly : Z) : outcome tables :=
  let gf_order := 256 in
  let lt := replicate (Z.to_nat gf_order) 0 in
  let et := replicate (Z.to_nat gf_order) 0 in
  lt ← setitem lt 0 (Z.land (1 - gf_order) 0xff);
  et ← setitem et 0 1;
  '(lt, et) ← for_each (range 1 gf_order) (lt, et) (fun i '(lt, et) =>
      prev ← getitem et (i - 1);
      et ← setitem et i (prev * 2);
      cur ← getitem et i;
      et ← (if gf_order <=? cur
            then setitem et i (Z.lxor cur prime_poly)
            else Returns et);
      cur ← getitem et i;
      et ← setitem et i (Z.land cur 0xff);
      cur ← getitem et i;
      lt ← setitem lt cur i;
      Returns (lt, et));
  Returns (mkTables lt et).

Definition generate_logexp_tables : outcome tables :=
  let lt := replicate 256%nat 0 in
  let et := replicate 256%nat 0 in
  let exp := 1 in
  '(lt, et, exp) ← for_each (range 0 255) (lt, et, exp)
    (fun exponent '(lt, et, exp) =>
      let exp := Z.land exp 0xff in
      et ← setitem et exponent exp;
      let d := Z.land exp 0x80 in
      let exp := Z.shiftl exp 1 in
      let exp := if d =? 0x80 then Z.lxor exp 0x1b else exp in
      e ← getitem et exponent;
      let exp := Z.lxor exp e in
      e ← getitem et exponent;
      lt ← setitem lt e exponent;
      Returns (lt, et, exp));
  e0 ← getitem et 0;
  et ← setitem et 255 e0;
  lt ← setitem lt 0 0;
  Returns (mkTables lt et).

(** The values the source lists as possible prime polynomials. *)
Definition possible_PP : list Z :=
  [285; 299; 301; 333; 351; 355; 357; 361; 369; 391; 397; 425; 451; 463; 487; 501].

Definition tables_of (o : outcome tables) : tables :=
  match o with
  | Returns T => T
  | _ => mkTables [] []
  end.

(** The module ends with [GF256elt.generate_pplogexp_tables(0x11d)]. *)
Definition module_tables : tables :=
  Eval vm_compute in tables_of (generate_pplogexp_tables 0x11d).

Definition rijndael_tables : tables :=
  Eval vm_compute in tables_of (generate_logexp_tables).

(** ** Polynomials over a field, generically

    Modelled from the spec: [pyssss/PGF256.py] and
    [pyssss/PGF256Interpolator.py] are missing from the sources.  Section
    3: a polynomial is the ordered sequence of its coefficients
    [[c0; c1; ...; cd]], for [c0 + c1*x + ... + cd*x^d], without
    normalization.  The operations are stated here over any carrier with
    the field operations, as total functions; [PGF256] below has them at
    [GF256elt], where multiplication and division go through the tables
    and may raise. *)

Section Poly.
Variable F : Type.
Variables (zero one : F) (add mul sub div : F -> F -> F) (opp : F -> F).

Fixpoint padd (P Q : list F) : list F :=
  match P, Q with
  | [], _ => Q
  | _, [] => P
  | a :: P', b :: Q' => add a b :: padd P' Q'
  end.

Fixpoint psub (P Q : list F) : list F :=
  match P, Q with
  | [], _ => map opp Q
  | _, [] => P
  | a :: P', b :: Q' => sub a b :: psub P' Q'
  end.

Fixpoint pmul (P Q : list F) : list F :=
  match P with
  | [] => []
  | a :: P' => padd (map (mul a) Q) (zero :: pmul P' Q)
  end.

Definition pdivc (P : list F) (d : F) : list F :=
  map (fun c => div c d) P.

(** Horner, from the highest coefficient down. *)
Definition peval (P : list F) (x : F) : F :=
  fold_left (fun result c => add (mul result x) c) (rev P) zero.

(** [prod_{j <> i} (x - x_j) / (x_i - x_j)] over the points numbered
    from [j] on. *)
Fixpoint basis_from (xi : F) (i j : nat) (points : list (F * F)) : list F :=
  match points with
  | [] => [one]
  | (xj, _) :: rest =>
      let tail := basis_from xi i (S j) rest in
      if (i =? j)%nat then tail
      else pmul (pdivc (psub [zero; one] [xj]) (sub xi xj)) tail
  end.

(** [sum_i y_i * basis_i] over the points numbered from [i] on. *)
Fixpoint lagrange_from (all : list (F * F)) (i : nat) (points : list (F * F))
  : list F :=
  match points with
  | [] => []
  | (xi, yi) :: rest =>
      padd (pmul [yi] (basis_from xi i 0 all)) (lagrange_from all (S i) rest)
  end.

Definition lagrange (points : list (F * F)) : list F :=
  lagrange_from points 0 points.

(** The quotient of [P] by [x - r] (synthetic division):
    [P(z) = P(r) + (z - r) * (quot P r)(z)]. *)
Fixpoint quot (P : list F) (r : F) : list F :=
  match P with
  | [] => []
  | _ :: P' =>
      match P' with
      | [] => []
      | _ :: _ => peval P' r :: quot P' r
      end
  end.
End Poly.

(** ** PGF256 and PGF256Interpolator *)

Definition PGF256 : Type := list GF256elt.

(** Modelled from the spec: sum and difference of coefficient lists,
    coefficient by coefficient, the shorter list taken as padded with
    zeros.  In GF(256) the opposite of [c] is [c]. *)
Definition PGF256_add (P Q : PGF256) : PGF256 := padd GF256elt GF256elt_add P Q.

Definition PGF256_sub (P Q : PGF256) : PGF256 :=
  psub GF256elt GF256elt_sub (fun c => c) P Q.

(** Modelled from the spec: [PGF256.f] is missing from the sources.  4.3:
    Horner's method, [result = result * x + c] from the highest degree to
    the lowest; an empty polynomial fails with InvalidArgument. *)
Definition PGF256_f (T : tables) (P : PGF256) (x : GF256elt) : outcome GF256elt :=
  match P with
  | [] => Raises InvalidArgument
  | _ => for_each (rev P) (GF256elt_init 0) (fun c result =>
           m ← GF256elt_mul T result x;
           Returns (GF256elt_add m c))
  end.

(** Modelled from the spec: the product of two coefficient lists, which
    the interpolator needs to build its result in coefficient form. *)
Fixpoint PGF256_mul (T : tables) (P Q : PGF256) : outcome PGF256 :=
  match P with
  | [] => Returns []
  | a :: P' =>
      aQ ← mapM (GF256elt_mul T a) Q;
      rest ← PGF256_mul T P' Q;
      Returns (PGF256_add aQ (GF256elt_init 0 :: rest))
  end.

(** Modelled from the spec: every coefficient divided by [d], the
    division by [x_i - x_j] of the interpolation formula. *)
Definition PGF256_divc (T : tables) (P : PGF256) (d : GF256elt) : outcome PGF256 :=
  mapM (fun c => GF256elt_truediv T c d) P.

(** Modelled from the spec: [PGF256Interpolator] is missing from the
    sources.  4.4: [P(x) = sum_i y_i * prod_{j<>i} (x - x_j) / (x_i - x_j)]
    built as a coefficient list; coincident X values divide by zero. *)
Fixpoint interpolate_basis (T : tables) (xi : GF256elt) (i j : nat)
  (points : list (GF256elt * GF256elt)) : outcome PGF256 :=
  match points with
  | [] => Returns [GF256elt_init 1]
  | (xj, _) :: rest =>
      tail ← interpolate_basis T xi i (S j) rest;
      if (i =? j)%nat then Returns tail
      else
        factor ← PGF256_divc T
                   (PGF256_sub [GF256elt_init 0; GF256elt_init 1] [xj])
                   (GF256elt_sub xi xj);
        PGF256_mul T factor tail
  end.

Fixpoint interpolate_from (T : tables) (all : list (GF256elt * GF256elt))
  (i : nat) (points : list (GF256elt * GF256elt)) : outcome PGF256 :=
  match points with
  | [] => Returns []
  | (xi, yi) :: rest =>
      b ← interpolate_basis T xi i 0 all;
      term ← PGF256_mul T [yi] b;
      others ← interpolate_from T all (S i) rest;
      Returns (PGF256_add term others)
  end.

Definition interpolate (T : tables) (points : list (GF256elt * GF256elt))
  : outcome PGF256 :=
  interpolate_from T points 0 points.

(** ** PySSSS *)

(** The random source is an endless sequence of raw draws; [pos] counts
    the draws consumed so far.  [random.randint(a, b)] maps a raw draw
    into [[a, b]]. *)
Definition randint (a b raw : Z) : Z := a + raw mod (b - a + 1).

Definition pickRandomPolynomial (rand : nat -> Z) (pos : nat) (degree : Z)
  (value : GF256elt) : PGF256 * nat :=
  let coeffs := [value] in
  fold_left (fun '(coeffs, pos) (c : Z) =>
               (coeffs ++ [GF256elt_init (randint 0 255 (rand pos))], S pos))
            (range 1 (degree + 1)) (coeffs, pos).

Definition encodeByte (T : tables) (rand : nat -> Z) (pos : nat)
  (byte n k : Z) (picks : list Z) : outcome (list (list Z) * nat) :=
  let '(P, pos) := pickRandomPolynomial rand pos (k - 1) (GF256elt_init byte) in
  let keys := map (fun _ => []) (range 0 n) in
  keys ← for_each (range 0 n) keys (fun i keys =>
    p ← getitem picks i;
    let X := GF256elt_init p in
    Y ← PGF256_f T P X;
    ki ← getitem keys i;
    keys ← setitem keys i (ki ++ [GF256elt_int X]);
    ki ← getitem keys i;
    keys ← setitem keys i (ki ++ [GF256elt_int Y]);
    Returns keys);
  Returns (keys, pos).

(** [while True: pick = random.randint(1, 255); if not picked[pick]: break] *)
Fixpoint pick_loop (fuel : nat) (rand : nat -> Z) (pos : nat) (picked : list bool)
  : outcome (Z * nat) :=
  match fuel with
  | O => OutOfFuel
  | S fuel =>
      let pick := randint 1 255 (rand pos) in
      taken ← getitem picked pick;
      if negb taken then Returns (pick, S pos)
      else pick_loop fuel rand (S pos) picked
  end.

(** The loop over the bytes of [stream]. *)
Fixpoint encode_loop (T : tables) (rand : nat -> Z) (pos : nat)
  (stream : list Z) (outputs : list (list Z)) (n k : Z) (picks : list Z)
  : outcome (list (list Z)) :=
  match stream with
  | [] => Returns outputs
  | byte :: stream =>
      '(keys, pos) ← encodeByte T rand pos byte n k picks;
      outputs ← for_each (range 0 n) outputs (fun i outputs =>
        ki ← getitem keys i;
        oi ← getitem outputs i;
        setitem outputs i (oi ++ ki));
      encode_loop T rand pos stream outputs n k picks
  end.

(** [for i in range(0,n)]: the choice of the [n] identifiers, from the
    marks [picked], the list [picks] and the position of the random
    source.  Every [while True] gets [fuel] iterations. *)
Definition pick_all (fuel : nat) (rand : nat -> Z) (n : Z)
  : outcome (list bool * list Z * nat) :=
  let picked := replicate 256%nat false in
  let picks := [] in
  for_each (range 0 n) (picked, picks, 0%nat)
    (fun i '(picked, picks, pos) =>
      '(pick, pos) ← pick_loop fuel rand pos picked;
      picked ← setitem picked pick true;
      Returns (picked, picks ++ [pick], pos)).

(** [outputs] holds what each sink contains; the result is what the sinks
    contain afterwards. *)
Definition encode (fuel : nat) (T : tables) (rand : nat -> Z)
  (stream : list Z) (outputs : list (list Z)) (k : Z)
  : outcome (list (list Z)) :=
  let n := Z.of_nat (length outputs) in
  '(picked, picks, pos) ← pick_all fuel rand n;
  encode_loop T rand pos stream outputs n k picks.

(** One pass of [for i in range(0,len(keys))]: either a point from every
    key together with what is left of each key, or the index at which a
    key had nothing left. *)
Inductive round : Type :=
| Points (points : list (GF256elt * GF256elt)) (keys : list (list Z))
| EndOfKey (i : nat).

Fixpoint read_points (keys : list (list Z)) (i : nat) : outcome round :=
  match keys with
  | [] => Returns (Points [] [])
  | key :: keys =>
      match key with
      | [] => Returns (EndOfKey i)
      | X :: key =>
          match key with
          | [] => Raises TypeError
          | Y :: key =>
              r ← read_points keys (S i);
              match r with
              | Points points keys =>
                  Returns (Points ((GF256elt_init X, GF256elt_init Y) :: points)
                                  (key :: keys))
              | EndOfKey i' => Returns (EndOfKey i')
              end
          end
      end
  end.

(** [while not end_of_key], with [fuel] iterations. *)
Fixpoint decode (fuel : nat) (T : tables) (keys : list (list Z))
  (output : list Z) : outcome (list Z) :=
  match fuel with
  | O => OutOfFuel
  | S fuel =>
      r ← read_points keys 0;
      match r with
      | EndOfKey i =>
          if negb (i =? 0)%nat then Raises (UnexpectedEOF i)
          else Returns output
      | Points points keys =>
          P ← interpolate T points;
          byte ← PGF256_f T P (GF256elt_init 0);
          decode fuel T keys (output ++ [GF256elt_int byte])
      end
  end.


(** ** Vocabulary of the statements *)

(** [l[i]] as a total function, for indices known to be in range. *)
Definition at_ (l : list Z) (i : Z) : Z := default 0 (l !! Z.to_nat i).

(** Both tables have 256 entries, all of them bytes. *)
Definition tables_wf (T : tables) : bool :=
  (length (logtable T) =? 256)%nat && (length (exptable T) =? 256)%nat
  && forallb is_byte (logtable T) && forallb is_byte (exptable T).

(** [exp[log[v]]] and [log[exp[i]]] *)
Definition exp_log (T : tables) (v : Z) : outcome Z :=
  l ← getitem (logtable T) v; getitem (exptable T) l.

Definition log_exp (T : tables) (i : Z) : outcome Z :=
  e ← getitem (exptable T) i; getitem (logtable T) e.

(** The mutual-inverse invariant of the tables, as section 3 of the
    specification words it. *)
Definition mutual_inverse (T : tables) : Prop :=
  (forall v, 1 <= v <= 255 -> exp_log T v = Returns v) /\
  (forall i, 0 <= i <= 254 -> log_exp T i = Returns i) /\
  getitem (exptable T) 255 = Returns 1 /\
  getitem (exptable T) 0 = Returns 1.

(** What the parameterized strategy establishes: [log] inverts [exp] on
    the exponents 1..255, and the exponent recorded for 1 is 255. *)
Definition pp_inverse (T : tables) : Prop :=
  (forall v, 1 <= v <= 255 -> exp_log T v = Returns v) /\
  (forall i, 1 <= i <= 255 -> log_exp T i = Returns i) /\
  log_exp T 0 = Returns 255 /\
  getitem (exptable T) 255 = Returns 1 /\
  getitem (exptable T) 0 = Returns 1.

Definition returns_Z (o : outcome Z) (v : Z) : bool :=
  match o with
  | Returns u => u =? v
  | _ => false
  end.

Definition mutual_inverse_b (T : tables) : bool :=
  forallb (fun v => returns_Z (exp_log T v) v) (range 1 256)
  && forallb (fun i => returns_Z (log_exp T i) i) (range 0 255)
  && returns_Z (getitem (exptable T) 255) 1
  && returns_Z (getitem (exptable T) 0) 1.

Definition pp_inverse_b (T : tables) : bool :=
  forallb (fun v => returns_Z (exp_log T v) v) (range 1 256)
  && forallb (fun i => returns_Z (log_exp T i) i) (range 1 256)
  && returns_Z (log_exp T 0) 255
  && returns_Z (getitem (exptable T) 255) 1
  && returns_Z (getitem (exptable T) 0) 1.

(** The tables describe a cyclic group of order 255 on the nonzero
    bytes: [exp] undoes [log], and [log] undoes [exp] up to a multiple
    of 255. *)
Definition tables_ok (T : tables) : bool :=
  tables_wf T
  && (at_ (exptable T) 0 =? 1)
  && forallb (fun v => at_ (exptable T) (at_ (logtable T) v mod 255) =? v)
             (range 1 256)
  && forallb (fun i => negb (at_ (exptable T) i =? 0)
                       && (at_ (logtable T) (at_ (exptable T) i) mod 255 =? i))
             (range 0 255).

Definition generated_ok (o : outcome tables) : bool :=
  match o with
  | Returns T => tables_ok T
  | _ => false
  end.

(** The value an outcome returns, [d] for one that returns nothing. *)
Definition value_of {A : Type} (d : A) (o : outcome A) : A :=
  match o with
  | Returns a => a
  | _ => d
  end.

Definition gf_zero : GF256elt := GF256elt_init 0.
Definition gf_one : GF256elt := GF256elt_init 1.

(** What [x * y] and [x / y] return. *)
Definition gf_mul (T : tables) (x y : GF256elt) : GF256elt :=
  value_of gf_zero (GF256elt_mul T x y).

Definition gf_div (T : tables) (x y : GF256elt) : GF256elt :=
  value_of gf_zero (GF256elt_truediv T x y).

(** The element [exp[1]], whose powers fill the [exp] table. *)
Definition gf_gen (T : tables) : GF256elt := GF256elt_init (at_ (exptable T) 1).

Fixpoint gf_pow (T : tables) (i : nat) : GF256elt :=
  match i with
  | O => gf_one
  | S i => gf_mul T (gf_gen T) (gf_pow T i)
  end.

(** The exclusive or of the [c k] for the bits [k] set in the byte [b]. *)
Definition bits_combine (c : Z -> Z) (b : Z) : Z :=
  fold_right (fun k acc => Z.lxor (if Z.testbit b k then c k else 0) acc)
             0 (range 0 8).

(** Multiplication by [exp[1]] acts bit by bit: the product with a byte
    is the exclusive or of the products with its bits. *)
Definition linear_ok (T : tables) : bool :=
  forallb (fun b =>
    bytevalue (gf_mul T (gf_gen T) (GF256elt_init b))
    =? bits_combine (fun k => bytevalue (gf_mul T (gf_gen T) (GF256elt_init (2 ^ k)))) b)
    (range 0 256).


(** [P(x)] for a well-formed table, as a total function. *)
Definition PGF256_eval (T : tables) (P : PGF256) (x : GF256elt) : GF256elt :=
  peval GF256elt gf_zero GF256elt_add (gf_mul T) P x.

(** The polynomials [encode] draws, one per byte of the stream, given the
    position of the random source at the first of them. *)
Fixpoint polys (rand : nat -> Z) (pos : nat) (stream : list Z) (k : Z)
  : list PGF256 :=
  match stream with
  | [] => []
  | byte :: stream =>
      let '(P, pos) := pickRandomPolynomial rand pos (k - 1) (GF256elt_init byte) in
      P :: polys rand pos stream k
  end.

(** The [(X, Y)] pairs of the share with identifier [x]. *)
Definition pairs_with (x : Z) (ys : list Z) : list Z :=
  flat_map (fun y => [x; y]) ys.

Definition share (T : tables) (Ps : list PGF256) (x : Z) : list Z :=
  pairs_with (GF256elt_int (GF256elt_init x))
    (map (fun P => GF256elt_int (PGF256_eval T P (GF256elt_init x))) Ps).

(** The tables make the bytes a field. *)
Definition field_ok (T : tables) : bool := tables_ok T && linear_ok T.

(** What [interpolate] returns for points with distinct X values. *)
Definition PGF256_lagrange (T : tables) (points : list (GF256elt * GF256elt))
  : PGF256 :=
  lagrange GF256elt gf_zero gf_one GF256elt_add (gf_mul T) GF256elt_sub
           (gf_div T) (fun c => c) points.

(** The keys handed to [decode]: the share streams numbered [idxs]. *)
Definition select (outs : list (list Z)) (idxs : list nat) : option (list (list Z)) :=
  mapM (fun i => outs !! i) idxs.

(** A random source is fair when, from any position and for any fewer
    than 255 identifiers already taken, it eventually draws one that is
    not taken. *)
Definition fair (rand : nat -> Z) : Prop :=
  forall (pos : nat) (taken : list Z),
    (length taken < 255)%nat ->
    exists d, randint 1 255 (rand (pos + d)%nat) ∉ taken.

(** ** Vocabulary of the further properties *)

(** Multiplication by [x] of a polynomial over GF(2) held in a byte,
    modulo the polynomial [pp]: double, reduce by [pp] when the top bit
    was set, keep eight bits. *)
Definition xtime (pp v : Z) : Z :=
  Z.land (Z.lxor (2 * v) (if 128 <=? v then pp else 0)) 0xff.

(** [1] multiplied [i] times by [x]. *)
Definition orbit (pp : Z) (i : nat) : Z := Nat.iter i (xtime pp) 1.

(** The product of the polynomials [a] and [b] over GF(2) modulo [pp], by
    Horner's rule on the [n] low bits of [a]:
    [a * b = a0 * b + x * ((a / x) * b)]. *)
Fixpoint polymul_n (pp : Z) (n : nat) (a b : Z) : Z :=
  match n with
  | O => 0
  | S n => Z.lxor (xtime pp (polymul_n pp n (a / 2) b)) (if Z.odd a then b else 0)
  end.

Definition polymul (pp a b : Z) : Z := polymul_n pp 8 a b.

(** In the tables [T], multiplying by the element [2] is [xtime pp]. *)
Definition doubling_ok (pp : Z) (T : tables) : bool :=
  forallb (fun b => bytevalue (gf_mul T (GF256elt_init 2) (GF256elt_init b))
                    =? xtime pp b) (range 0 256).

(** One round of the loop of [generate_pplogexp_tables], on the two
    tables. *)
Definition pp_round (prime_poly : Z) (i : Z) (s : list Z * list Z)
  : outcome (list Z * list Z) :=
  let gf_order := 256 in
  let '(lt, et) := s in
  prev ← getitem et (i - 1);
  et ← setitem et i (prev * 2);
  cur ← getitem et i;
  et ← (if gf_order <=? cur
        then setitem et i (Z.lxor cur prime_poly)
        else Returns et);
  cur ← getitem et i;
  et ← setitem et i (Z.land cur 0xff);
  cur ← getitem et i;
  lt ← setitem lt cur i;
  Returns (lt, et).

(** [v, x*v, x^2*v, ...], [n] of them. *)
Fixpoint orbit_list (pp : Z) (n : nat) (v : Z) : list Z :=
  match n with
  | O => []
  | S n => v :: orbit_list pp n (xtime pp v)
  end.

(** The powers of [x] modulo [pp] come back to 1 before the 255th, or
    never reach 3: [x] does not generate the nonzero bytes. *)
Definition not_generator (pp : Z) : bool :=
  existsb (Z.eqb 1) (orbit_list pp 254 (xtime pp 1))
  || negb (existsb (Z.eqb 3) (orbit_list pp 255 1)).

(** The tables either strategy generates, the parameterized one for a
    prime polynomial the source lists. *)
Definition generated (T : tables) : Prop :=
  generate_logexp_tables = Returns T \/
  exists pp, In pp possible_PP /\ generate_pplogexp_tables pp = Returns T.

(** What holds of the two tables before the round at index [i]. *)
Definition pp_rounds_inv (pp : Z) (i : Z) (s : list Z * list Z) : Prop :=
  length s.1 = 256%nat /\ length s.2 = 256%nat /\
  forallb is_byte s.1 = true /\ forallb is_byte s.2 = true /\
  forall j : nat, Z.of_nat j < i -> at_ s.2 (Z.of_nat j) = orbit pp j.

(** The points one pass of [decode] reads from keys that all hold at
    least a pair, and what the pass leaves of the keys. *)
Definition first_points (keys : list (list Z)) : list (GF256elt * GF256elt) :=
  map (fun key => (GF256elt_init (nth 0 key 0), GF256elt_init (nth 1 key 0))) keys.

Definition rest_of_keys (keys : list (list Z)) : list (list Z) :=
  map (drop 2) keys.

(** An outcome that is a value, or an error among [E]: the computation
    ends, and with no other error. *)
Definition returns_or_raises {A : Type} (E : exn -> Prop) (o : outcome A) : Prop :=
  match o with
  | Returns _ => True
  | Raises e => E e
  | OutOfFuel => False
  end.

(** The errors of [decode]. *)
Definition decode_error (keys : list (list Z)) (e : exn) : Prop :=
  e = TypeError \/ e = DivisionByZero \/
  exists i, e = UnexpectedEOF i /\ (0 < i < length keys)%nat.

(** The random source [rand] with every draw from position [pos] on
    XORed with the byte of [deltas] at the same offset, and left as it is
    past the end of [deltas]. *)
Definition shift_draws (pos : nat) (deltas : list Z) (rand : nat -> Z) : nat -> Z :=
  fun p => if (p <? pos)%nat then rand p
           else Z.lxor (rand p) (nth (p - pos) deltas 0).
(** * Properties *)

(** ** Outcomes, ranges, indexing *)

Lemma bind_Returns {A B : Type} (a : A) (f : A -> outcome B) :
  (Returns a ≫= f) = f a.
Proof. reflexivity. Qed.

Lemma bind_Returns_inv {A B : Type} (m : outcome A) (f : A -> outcome B) (b : B) :
  (m ≫= f) = Returns b -> exists a, m = Returns a /\ f a = Returns b.
Proof. destruct m as [a| |]; simpl; intros H; try discriminate. eauto. Qed.

Lemma in_range (a b i : Z) : In i (range a b) <-> a <= i < b.
Proof.
  unfold range. rewrite in_map_iff. split.
  - intros (j & <- & Hj). apply in_seq in Hj. lia.
  - intros Hi. exists (Z.to_nat (i - a)). split; [lia|]. apply in_seq. lia.
Qed.

Lemma range_forallb (f : Z -> bool) (a b : Z) :
  forallb f (range a b) = true -> forall i, a <= i < b -> f i = true.
Proof.
  intros H i Hi. rewrite forallb_forall in H. apply H. now apply in_range.
Qed.

Lemma range_length (a b : Z) : length (range a b) = Z.to_nat (b - a).
Proof. unfold range. now rewrite length_map, length_seq. Qed.

Lemma range_cons (a b : Z) : a < b -> range a b = a :: range (a + 1) b.
Proof.
  intros H. unfold range.
  replace (Z.to_nat (b - a)) with (S (Z.to_nat (b - (a + 1)))) by lia.
  simpl. f_equal; [lia|].
  rewrite <- seq_shift, map_map. apply map_ext. intros; lia.
Qed.

Lemma range_nil (a b : Z) : b <= a -> range a b = [].
Proof. intros H. unfold range. now replace (Z.to_nat (b - a)) with O by lia. Qed.

Lemma getitem_in_range {A : Type} (l : list A) (i : Z) :
  0 <= i < Z.of_nat (length l) ->
  exists v, l !! Z.to_nat i = Some v /\ getitem l i = Returns v.
Proof.
  intros Hi. unfold getitem.
  destruct (Z.ltb_spec i 0); [lia|]. destruct (Z.ltb_spec i 0); [lia|].
  destruct (lookup_lt_is_Some_2 l (Z.to_nat i) ltac:(lia)) as [v Hv].
  exists v. now rewrite Hv.
Qed.

Lemma getitem_at (l : list Z) (i : Z) :
  0 <= i < Z.of_nat (length l) -> getitem l i = Returns (at_ l i).
Proof.
  intros Hi. destruct (getitem_in_range l i Hi) as (v & Hv & ->).
  unfold at_. now rewrite Hv.
Qed.

Lemma setitem_in_range {A : Type} (l : list A) (i : Z) (v : A) :
  0 <= i < Z.of_nat (length l) ->
  setitem l i v = Returns (<[Z.to_nat i := v]> l).
Proof.
  intros Hi. unfold setitem.
  destruct (Z.ltb_spec i 0); [lia|]. destruct (Z.ltb_spec i 0); [lia|].
  destruct (Z.leb_spec (Z.of_nat (length l)) i); [lia|]. reflexivity.
Qed.

(** ** Field elements *)

Lemma GF256elt_ext (x y : GF256elt) : bytevalue x = bytevalue y -> x = y.
Proof.
  destruct x as [u Hu], y as [v Hv]; simpl. intros <-.
  f_equal. apply (proof_irrel Hu Hv).
Qed.

Lemma bytevalue_range (x : GF256elt) : 0 <= bytevalue x < 256.
Proof.
  destruct x as [u Hu]; simpl. unfold is_byte in Hu.
  apply andb_prop in Hu as [H1 H2].
  apply Z.leb_le in H1. apply Z.ltb_lt in H2. lia.
Qed.

Lemma bytevalue_init (v : Z) : 0 <= v < 256 -> bytevalue (GF256elt_init v) = v.
Proof. intros H. simpl. now apply Z.mod_small. Qed.

Lemma init_bytevalue (x : GF256elt) : GF256elt_init (bytevalue x) = x.
Proof. apply GF256elt_ext. apply bytevalue_init, bytevalue_range. Qed.

Lemma is_byte_range (v : Z) : is_byte v = true <-> 0 <= v < 256.
Proof.
  unfold is_byte. rewrite andb_true_iff, Z.leb_le, Z.ltb_lt. tauto.
Qed.

(** A property checked on the 256 byte values holds of every element. *)
Lemma forall_GF256elt (f : GF256elt -> bool) :
  forallb (fun v => f (GF256elt_init v)) (range 0 256) = true ->
  forall x, f x = true.
Proof.
  intros H x. rewrite <- (init_bytevalue x).
  apply (range_forallb _ 0 256 H), bytevalue_range.
Qed.

Lemma forall_GF256elt2 (f : GF256elt -> GF256elt -> bool) :
  forallb (fun u => forallb (fun v => f (GF256elt_init u) (GF256elt_init v))
                            (range 0 256)) (range 0 256) = true ->
  forall x y, f x y = true.
Proof.
  intros H x y.
  apply (forall_GF256elt (fun x => forallb (fun v => f x (GF256elt_init v))
                                           (range 0 256))) with (x := x) in H.
  now apply (forall_GF256elt (f x)).
Qed.

(** ** Tables *)

Section WellFormed.
Variable T : tables.
Hypothesis Hwf : tables_wf T = true.

Lemma wf_lengths : length (logtable T) = 256%nat /\ length (exptable T) = 256%nat.
Proof.
  unfold tables_wf in Hwf. rewrite !andb_true_iff in Hwf.
  destruct Hwf as [[[H1 H2] _] _].
  apply Nat.eqb_eq in H1, H2. tauto.
Qed.

Lemma at_is_byte (l : list Z) (i : Z) :
  forallb is_byte l = true -> 0 <= at_ l i < 256.
Proof.
  intros H. unfold at_. destruct (l !! Z.to_nat i) as [v|] eqn:E; simpl; [|lia].
  apply is_byte_range. rewrite forallb_forall in H. apply H.
  apply list_elem_of_In. eapply list_elem_of_lookup_2; eauto.
Qed.

Lemma log_at_range (i : Z) : 0 <= at_ (logtable T) i < 256.
Proof.
  apply at_is_byte. unfold tables_wf in Hwf. rewrite !andb_true_iff in Hwf. tauto.
Qed.

Lemma exp_at_range (i : Z) : 0 <= at_ (exptable T) i < 256.
Proof.
  apply at_is_byte. unfold tables_wf in Hwf. rewrite !andb_true_iff in Hwf. tauto.
Qed.

Lemma getitem_log (i : Z) :
  0 <= i < 256 -> getitem (logtable T) i = Returns (at_ (logtable T) i).
Proof. intros H. apply getitem_at. destruct wf_lengths as [-> _]. lia. Qed.

Lemma getitem_exp (i : Z) :
  0 <= i < 256 -> getitem (exptable T) i = Returns (at_ (exptable T) i).
Proof. intros H. apply getitem_at. destruct wf_lengths as [_ ->]. lia. Qed.

Lemma log_nonzero (x : GF256elt) :
  bytevalue x <> 0 -> GF256elt_log T x = Returns (at_ (logtable T) (bytevalue x)).
Proof.
  intros H. unfold GF256elt_log.
  destruct (Z.eqb_spec (bytevalue x) 0); [lia|].
  apply getitem_log, bytevalue_range.
Qed.

Lemma mul_nonzero (x y : GF256elt) :
  bytevalue x <> 0 -> bytevalue y <> 0 ->
  GF256elt_mul T x y =
  Returns (GF256elt_init (at_ (exptable T)
    ((at_ (logtable T) (bytevalue x) + at_ (logtable T) (bytevalue y)) mod 255))).
Proof.
  intros Hx Hy. unfold GF256elt_mul.
  destruct (Z.eqb_spec (bytevalue x) 0); [lia|].
  destruct (Z.eqb_spec (bytevalue y) 0); [lia|]. simpl.
  rewrite !log_nonzero by assumption. simpl.
  rewrite getitem_exp; [reflexivity|].
  pose proof (Z.mod_pos_bound
    (at_ (logtable T) (bytevalue x) + at_ (logtable T) (bytevalue y)) 255).
  lia.
Qed.

Lemma mul_zero (x y : GF256elt) :
  bytevalue x = 0 \/ bytevalue y = 0 ->
  GF256elt_mul T x y = Returns (GF256elt_init 0).
Proof.
  intros H. unfold GF256elt_mul.
  destruct (Z.eqb_spec (bytevalue x) 0); [reflexivity|].
  destruct (Z.eqb_spec (bytevalue y) 0); [reflexivity|]. lia.
Qed.

Lemma truediv_nonzero (x y : GF256elt) :
  bytevalue x <> 0 -> bytevalue y <> 0 ->
  GF256elt_truediv T x y =
  Returns (GF256elt_init (at_ (exptable T)
    ((at_ (logtable T) (bytevalue x) - at_ (logtable T) (bytevalue y)) mod 255))).
Proof.
  intros Hx Hy. unfold GF256elt_truediv.
  destruct (Z.eqb_spec (bytevalue y) 0); [lia|].
  destruct (Z.eqb_spec (bytevalue x) 0); [lia|].
  rewrite !log_nonzero by assumption. simpl.
  pose proof (Z.mod_pos_bound
    (at_ (logtable T) (bytevalue x) - at_ (logtable T) (bytevalue y)) 255).
  destruct (Z.ltb_spec
    ((at_ (logtable T) (bytevalue x) - at_ (logtable T) (bytevalue y)) mod 255) 0);
    [lia|].
  rewrite getitem_exp; [reflexivity|lia].
Qed.

Lemma truediv_zero_l (x y : GF256elt) :
  bytevalue x = 0 -> bytevalue y <> 0 ->
  GF256elt_truediv T x y = Returns (GF256elt_init 0).
Proof.
  intros Hx Hy. unfold GF256elt_truediv.
  destruct (Z.eqb_spec (bytevalue y) 0); [lia|].
  destruct (Z.eqb_spec (bytevalue x) 0); [reflexivity|lia].
Qed.
End WellFormed.

(** ** The generated tables *)

Lemma returns_Z_true (o : outcome Z) (v : Z) : returns_Z o v = true -> o = Returns v.
Proof.
  destruct o as [u| |]; simpl; try discriminate.
  intros H. apply Z.eqb_eq in H. now subst.
Qed.

Lemma mutual_inverse_b_sound (T : tables) :
  mutual_inverse_b T = true -> mutual_inverse T.
Proof.
  unfold mutual_inverse_b. rewrite !andb_true_iff.
  intros [[[H1 H2] H3] H4]. repeat split.
  - intros v Hv. apply returns_Z_true.
    apply (range_forallb _ 1 256 H1). lia.
  - intros i Hi. apply returns_Z_true.
    apply (range_forallb _ 0 255 H2). lia.
  - now apply returns_Z_true.
  - now apply returns_Z_true.
Qed.

Lemma pp_inverse_b_sound (T : tables) : pp_inverse_b T = true -> pp_inverse T.
Proof.
  unfold pp_inverse_b. rewrite !andb_true_iff.
  intros [[[[H1 H2] H3] H4] H5]. repeat split.
  - intros v Hv. apply returns_Z_true.
    apply (range_forallb _ 1 256 H1). lia.
  - intros i Hi. apply returns_Z_true.
    apply (range_forallb _ 1 256 H2). lia.
  - now apply returns_Z_true.
  - now apply returns_Z_true.
  - now apply returns_Z_true.
Qed.

Lemma module_tables_generated :
  generate_pplogexp_tables 0x11d = Returns module_tables.
Proof. vm_compute. reflexivity. Qed.

Lemma rijndael_tables_generated : generate_logexp_tables = Returns rijndael_tables.
Proof. vm_compute. reflexivity. Qed.

(** Every table either strategy generates passes [tables_ok]. *)
Lemma generated_tables_ok :
  generated_ok generate_logexp_tables = true /\
  forall pp, In pp possible_PP -> generated_ok (generate_pplogexp_tables pp) = true.
Proof.
  split; [vm_compute; reflexivity|].
  apply forallb_forall. vm_compute. reflexivity.
Qed.

Lemma module_tables_ok : tables_ok module_tables = true.
Proof. vm_compute. reflexivity. Qed.

(** C3, as stated, fails for the parameterized strategy: the last round
    of its loop records 255 as the logarithm of [exp[255] = 1], so
    [log[exp[0]]] is 255 and not 0. *)
Lemma pp_tables_not_mutual_inverse :
  exists T, generate_pplogexp_tables 0x11d = Returns T /\
            getitem (exptable T) 0 = Returns 1 /\
            getitem (logtable T) 1 = Returns 255 /\
            ~ mutual_inverse T.
Proof.
  exists module_tables. split; [apply module_tables_generated|].
  split; [reflexivity|]. split; [reflexivity|].
  intros (_ & H & _). specialize (H 0 ltac:(lia)). vm_compute in H. discriminate.
Qed.

(** C3, amended: the fixed-generator strategy establishes the
    mutual-inverse invariant as worded; the parameterized strategy, for
    every prime polynomial the source lists, establishes
    [exp[log[v]] = v] for every nonzero byte [v], [log[exp[i]] = i] for
    every [i] in [1,255], [log[exp[0]] = 255], and
    [exp[255] = exp[0] = 1]. *)
Theorem generated_tables_inverse :
  (exists T, generate_logexp_tables = Returns T /\ mutual_inverse T) /\
  (forall pp, In pp possible_PP ->
     exists T, generate_pplogexp_tables pp = Returns T /\ pp_inverse T).
Proof.
  split.
  - exists rijndael_tables. split; [apply rijndael_tables_generated|].
    apply mutual_inverse_b_sound. vm_compute. reflexivity.
  - intros pp Hpp.
    assert (H : forallb (fun pp => match generate_pplogexp_tables pp with
                                   | Returns T => pp_inverse_b T
                                   | _ => false
                                   end) possible_PP = true)
      by (vm_compute; reflexivity).
    rewrite forallb_forall in H. specialize (H pp Hpp).
    destruct (generate_pplogexp_tables pp) as [T| |]; try discriminate.
    exists T. split; [reflexivity|]. now apply pp_inverse_b_sound.
Qed.

Lemma generated_tables_inverse_witness :
  In 0x11d possible_PP /\
  exists T, generate_pplogexp_tables 0x11d = Returns T /\ pp_inverse T.
Proof.
  split; [simpl; tauto|].
  apply (proj2 generated_tables_inverse 0x11d). simpl; tauto.
Defined.

(** ** Field arithmetic against the tables *)

Lemma mod255_norm (a : Z) : (a mod 255 + 255) mod 255 = a mod 255.
Proof.
  replace (a mod 255 + 255) with (a mod 255 + 1 * 255) by lia.
  rewrite Z.mod_add by lia. apply Z.mod_mod. lia.
Qed.

Lemma rem255_norm (a : Z) : (Z.rem a 255 + 255) mod 255 = a mod 255.
Proof.
  rewrite Z.rem_eq by lia.
  replace (a - 255 * (a ÷ 255) + 255) with (a + (1 - a ÷ 255) * 255) by lia.
  apply Z.mod_add. lia.
Qed.

(** C5: with well-formed tables, [x * y] raises nothing; it is zero when
    either operand is zero and [exp[(log[x] + log[y]) mod 255]]
    otherwise. *)
Theorem GF256elt_mul_spec (T : tables) (x y : GF256elt) :
  tables_wf T = true ->
  exists r, GF256elt_mul T x y = Returns r /\
    GF256elt_int r =
    if (GF256elt_int x =? 0) || (GF256elt_int y =? 0) then 0
    else at_ (exptable T)
           ((at_ (logtable T) (GF256elt_int x)
             + at_ (logtable T) (GF256elt_int y)) mod 255).
Proof.
  intros Hwf. unfold GF256elt_int.
  destruct (Z.eqb_spec (bytevalue x) 0) as [Hx|Hx]; simpl.
  - exists (GF256elt_init 0). split; [|reflexivity]. apply mul_zero; auto.
  - destruct (Z.eqb_spec (bytevalue y) 0) as [Hy|Hy].
    + exists (GF256elt_init 0). split; [|reflexivity]. apply mul_zero; auto.
    + eexists. split; [apply mul_nonzero; assumption|].
      apply bytevalue_init, exp_at_range, Hwf.
Qed.

Lemma GF256elt_mul_spec_witness :
  tables_wf module_tables = true /\
  exists r, GF256elt_mul module_tables (GF256elt_init 3) (GF256elt_init 7) = Returns r /\
            GF256elt_int r = 9.
Proof.
  split; [vm_compute; reflexivity|].
  destruct (GF256elt_mul_spec module_tables (GF256elt_init 3) (GF256elt_init 7))
    as (r & Hr & Hv); [vm_compute; reflexivity|].
  exists r. split; [exact Hr|]. rewrite Hv. vm_compute. reflexivity.
Defined.

(** C6: with well-formed tables, [x / y] raises the division-by-zero
    exception exactly when [y] is zero; otherwise it is zero for a zero
    [x] and [exp[((log[x] - log[y]) mod 255 + 255) mod 255]] for a
    nonzero one, whether the inner [mod] is read as the floored or as the
    truncated remainder.  [log] raises its exception exactly on the zero
    element, and is the table entry otherwise. *)
Theorem GF256elt_truediv_log_spec (T : tables) (x y : GF256elt) :
  tables_wf T = true ->
  (GF256elt_truediv T x y = Raises DivisionByZero <-> GF256elt_int y = 0) /\
  (GF256elt_int y <> 0 ->
   exists r, GF256elt_truediv T x y = Returns r /\
     GF256elt_int r =
     (if GF256elt_int x =? 0 then 0
      else at_ (exptable T)
             (((at_ (logtable T) (GF256elt_int x)
                - at_ (logtable T) (GF256elt_int y)) mod 255 + 255) mod 255)) /\
     GF256elt_int r =
     (if GF256elt_int x =? 0 then 0
      else at_ (exptable T)
             ((Z.rem (at_ (logtable T) (GF256elt_int x)
                      - at_ (logtable T) (GF256elt_int y)) 255 + 255) mod 255))) /\
  (GF256elt_log T x = Raises InvalidOperand <-> GF256elt_int x = 0) /\
  (GF256elt_int x <> 0 ->
   GF256elt_log T x = Returns (at_ (logtable T) (GF256elt_int x))).
Proof.
  intros Hwf. unfold GF256elt_int.
  assert (Hdiv : bytevalue y <> 0 ->
     exists r, GF256elt_truediv T x y = Returns r /\
       bytevalue r =
       (if bytevalue x =? 0 then 0
        else at_ (exptable T)
               (((at_ (logtable T) (bytevalue x)
                  - at_ (logtable T) (bytevalue y)) mod 255 + 255) mod 255)) /\
       bytevalue r =
       (if bytevalue x =? 0 then 0
        else at_ (exptable T)
               ((Z.rem (at_ (logtable T) (bytevalue x)
                        - at_ (logtable T) (bytevalue y)) 255 + 255) mod 255))).
  { intros Hy. destruct (Z.eqb_spec (bytevalue x) 0) as [Hx|Hx].
    - exists (GF256elt_init 0). split; [now apply truediv_zero_l|].
      split; reflexivity.
    - eexists. split; [apply truediv_nonzero; assumption|].
      rewrite bytevalue_init by (apply exp_at_range, Hwf).
      now rewrite mod255_norm, rem255_norm. }
  repeat split.
  - intros H. destruct (Z.eq_dec (bytevalue y) 0) as [|Hy]; [assumption|].
    destruct (Hdiv Hy) as (r & Hr & _). congruence.
  - intros Hy. unfold GF256elt_truediv. now rewrite Hy.
  - exact Hdiv.
  - intros H. destruct (Z.eq_dec (bytevalue x) 0) as [|Hx]; [assumption|].
    rewrite (log_nonzero T Hwf x Hx) in H. discriminate.
  - intros Hx. unfold GF256elt_log. now rewrite Hx.
  - intros Hx. now apply log_nonzero.
Qed.

Lemma GF256elt_truediv_log_spec_witness :
  tables_wf module_tables = true /\
  (GF256elt_truediv module_tables (GF256elt_init 9) (GF256elt_init 0)
   = Raises DivisionByZero) /\
  GF256elt_log module_tables (GF256elt_init 0) = Raises InvalidOperand.
Proof.
  split; [vm_compute; reflexivity|].
  destruct (GF256elt_truediv_log_spec module_tables (GF256elt_init 0) (GF256elt_init 0))
    as ((_ & Hd) & _ & (_ & Hl) & _); [vm_compute; reflexivity|].
  split.
  - apply (proj2 (proj1 (GF256elt_truediv_log_spec module_tables
             (GF256elt_init 9) (GF256elt_init 0) ltac:(vm_compute; reflexivity)))).
    reflexivity.
  - apply Hl. reflexivity.
Defined.


(** ** The field laws *)

Lemma log2_byte (a : Z) : 0 <= a < 256 -> Z.log2 a < 8.
Proof.
  intros H. destruct (Z.eq_dec a 0) as [->|Hne]; [reflexivity|].
  apply Z.log2_lt_pow2; lia.
Qed.

Lemma lxor_is_byte (x y : GF256elt) :
  0 <= Z.lxor (bytevalue x) (bytevalue y) < 256.
Proof.
  pose proof (bytevalue_range x) as Hx. pose proof (bytevalue_range y) as Hy.
  assert (H0 : 0 <= Z.lxor (bytevalue x) (bytevalue y))
    by (apply Z.lxor_nonneg; lia).
  split; [assumption|].
  destruct (Z.eq_dec (Z.lxor (bytevalue x) (bytevalue y)) 0) as [->|Hne]; [lia|].
  apply (Z.log2_lt_pow2 _ 8); [lia|].
  pose proof (Z.log2_lxor (bytevalue x) (bytevalue y) ltac:(lia) ltac:(lia)).
  pose proof (log2_byte _ Hx). pose proof (log2_byte _ Hy). lia.
Qed.

Lemma bytevalue_add (x y : GF256elt) :
  bytevalue (GF256elt_add x y) = Z.lxor (bytevalue x) (bytevalue y).
Proof. unfold GF256elt_add. apply bytevalue_init, lxor_is_byte. Qed.

Lemma add_comm (x y : GF256elt) : GF256elt_add x y = GF256elt_add y x.
Proof. apply GF256elt_ext. rewrite !bytevalue_add. apply Z.lxor_comm. Qed.

Lemma add_assoc (x y z : GF256elt) :
  GF256elt_add x (GF256elt_add y z) = GF256elt_add (GF256elt_add x y) z.
Proof. apply GF256elt_ext. rewrite !bytevalue_add. symmetry. apply Z.lxor_assoc. Qed.

Lemma add_zero_l (x : GF256elt) : GF256elt_add gf_zero x = x.
Proof. apply GF256elt_ext. rewrite bytevalue_add. apply Z.lxor_0_l. Qed.

Lemma add_self (x : GF256elt) : GF256elt_add x x = gf_zero.
Proof. apply GF256elt_ext. rewrite bytevalue_add. apply Z.lxor_nilpotent. Qed.

Lemma lxor_interchange (a b c d : Z) :
  Z.lxor (Z.lxor a b) (Z.lxor c d) = Z.lxor (Z.lxor a c) (Z.lxor b d).
Proof.
  rewrite !Z.lxor_assoc. f_equal. rewrite <- !Z.lxor_assoc. f_equal.
  apply Z.lxor_comm.
Qed.

Lemma bits_combine_lxor (c : Z -> Z) (u v : Z) :
  bits_combine c (Z.lxor u v) = Z.lxor (bits_combine c u) (bits_combine c v).
Proof.
  unfold bits_combine. induction (range 0 8) as [|k l IH]; cbn [fold_right].
  - reflexivity.
  - rewrite IH, <- lxor_interchange. f_equal.
    rewrite Z.lxor_spec.
    destruct (Z.testbit u k), (Z.testbit v k); cbn [xorb];
      rewrite ?Z.lxor_0_l, ?Z.lxor_0_r, ?Z.lxor_nilpotent; reflexivity.
Qed.

Lemma mul_returns (T : tables) (x y : GF256elt) :
  tables_wf T = true -> GF256elt_mul T x y = Returns (gf_mul T x y).
Proof.
  intros Hwf. unfold gf_mul.
  destruct (Z.eq_dec (bytevalue x) 0) as [Hx|Hx];
    [rewrite mul_zero by auto; reflexivity|].
  destruct (Z.eq_dec (bytevalue y) 0) as [Hy|Hy];
    [rewrite mul_zero by auto; reflexivity|].
  now rewrite (mul_nonzero T Hwf x y Hx Hy).
Qed.

Lemma truediv_returns (T : tables) (x y : GF256elt) :
  tables_wf T = true -> bytevalue y <> 0 ->
  GF256elt_truediv T x y = Returns (gf_div T x y).
Proof.
  intros Hwf Hy. unfold gf_div.
  destruct (Z.eq_dec (bytevalue x) 0) as [Hx|Hx];
    [rewrite truediv_zero_l by auto; reflexivity|].
  now rewrite (truediv_nonzero T Hwf x y Hx Hy).
Qed.

Section Field.
Variable T : tables.
Hypothesis Hok : tables_ok T = true.

Let L (x : GF256elt) : Z := at_ (logtable T) (bytevalue x).
Let E (i : Z) : Z := at_ (exptable T) i.

Lemma ok_wf : tables_wf T = true.
Proof. unfold tables_ok in Hok. rewrite !andb_true_iff in Hok. tauto. Qed.

Lemma ok_exp_0 : E 0 = 1.
Proof.
  unfold tables_ok in Hok. rewrite !andb_true_iff in Hok.
  destruct Hok as [[[_ H] _] _]. now apply Z.eqb_eq in H.
Qed.

Lemma ok_exp_log (x : GF256elt) : bytevalue x <> 0 -> E (L x mod 255) = bytevalue x.
Proof.
  intros Hx. unfold tables_ok in Hok. rewrite !andb_true_iff in Hok.
  destruct Hok as [[_ H] _].
  apply Z.eqb_eq. apply (range_forallb _ 1 256 H).
  pose proof (bytevalue_range x). lia.
Qed.

Lemma ok_log_exp (i : Z) :
  0 <= i < 255 -> E i <> 0 /\ at_ (logtable T) (E i) mod 255 = i.
Proof.
  intros Hi. unfold tables_ok in Hok. rewrite !andb_true_iff in Hok.
  destruct Hok as [_ H].
  pose proof (range_forallb _ 0 255 H i Hi) as H'. simpl in H'.
  apply andb_prop in H' as [H1 H2].
  apply negb_true_iff, Z.eqb_neq in H1. apply Z.eqb_eq in H2. tauto.
Qed.

Lemma gf_mul_zero (x y : GF256elt) :
  bytevalue x = 0 \/ bytevalue y = 0 -> gf_mul T x y = gf_zero.
Proof. intros H. unfold gf_mul. now rewrite (mul_zero T x y H). Qed.

Lemma gf_mul_value (x y : GF256elt) :
  bytevalue x <> 0 -> bytevalue y <> 0 ->
  bytevalue (gf_mul T x y) = E ((L x + L y) mod 255).
Proof.
  intros Hx Hy. unfold gf_mul. rewrite (mul_nonzero T ok_wf x y Hx Hy). simpl value_of.
  apply bytevalue_init, exp_at_range, ok_wf.
Qed.

Lemma gf_mul_log (x y : GF256elt) :
  bytevalue x <> 0 -> bytevalue y <> 0 ->
  bytevalue (gf_mul T x y) <> 0 /\ L (gf_mul T x y) mod 255 = (L x + L y) mod 255.
Proof.
  intros Hx Hy. unfold L at 1. rewrite (gf_mul_value x y Hx Hy).
  apply ok_log_exp. apply Z.mod_pos_bound. lia.
Qed.

Lemma gf_div_zero (x y : GF256elt) :
  bytevalue x = 0 -> bytevalue y <> 0 -> gf_div T x y = gf_zero.
Proof. intros Hx Hy. unfold gf_div. now rewrite (truediv_zero_l T x y Hx Hy). Qed.

Lemma gf_div_log (x y : GF256elt) :
  bytevalue x <> 0 -> bytevalue y <> 0 ->
  bytevalue (gf_div T x y) <> 0 /\ L (gf_div T x y) mod 255 = (L x - L y) mod 255.
Proof.
  intros Hx Hy. unfold L at 1, gf_div.
  rewrite (truediv_nonzero T ok_wf x y Hx Hy). simpl value_of.
  rewrite bytevalue_init by (apply exp_at_range, ok_wf).
  apply ok_log_exp. apply Z.mod_pos_bound. lia.
Qed.

(** Nonzero elements with the same logarithm modulo 255 are equal. *)
Lemma log_inj (x y : GF256elt) :
  bytevalue x <> 0 -> bytevalue y <> 0 -> L x mod 255 = L y mod 255 -> x = y.
Proof.
  intros Hx Hy H. apply GF256elt_ext.
  rewrite <- (ok_exp_log x Hx), <- (ok_exp_log y Hy). now rewrite H.
Qed.

Lemma gf_mul_comm (x y : GF256elt) : gf_mul T x y = gf_mul T y x.
Proof.
  destruct (Z.eq_dec (bytevalue x) 0) as [Hx|Hx];
    [rewrite !gf_mul_zero by auto; reflexivity|].
  destruct (Z.eq_dec (bytevalue y) 0) as [Hy|Hy];
    [rewrite !gf_mul_zero by auto; reflexivity|].
  apply GF256elt_ext. rewrite !gf_mul_value by assumption.
  now rewrite Z.add_comm.
Qed.

Lemma gf_mul_assoc (x y z : GF256elt) :
  gf_mul T x (gf_mul T y z) = gf_mul T (gf_mul T x y) z.
Proof.
  destruct (Z.eq_dec (bytevalue x) 0) as [Hx|Hx].
  { rewrite (gf_mul_zero x y) by auto. rewrite !gf_mul_zero; auto. }
  destruct (Z.eq_dec (bytevalue y) 0) as [Hy|Hy].
  { rewrite (gf_mul_zero y z), (gf_mul_zero x y) by auto.
    rewrite !gf_mul_zero; auto. }
  destruct (Z.eq_dec (bytevalue z) 0) as [Hz|Hz].
  { rewrite (gf_mul_zero y z) by auto. rewrite !gf_mul_zero; auto. }
  destruct (gf_mul_log y z Hy Hz) as [Hyz Lyz].
  destruct (gf_mul_log x y Hx Hy) as [Hxy Lxy].
  apply log_inj.
  - now apply gf_mul_log.
  - now apply gf_mul_log.
  - rewrite (proj2 (gf_mul_log x _ Hx Hyz)), (proj2 (gf_mul_log _ z Hxy Hz)).
    rewrite <- Z.add_mod_idemp_r, Lyz, Z.add_mod_idemp_r by lia.
    rewrite <- (Z.add_mod_idemp_l (L (gf_mul T x y))), Lxy, Z.add_mod_idemp_l by lia.
    now rewrite Z.add_assoc.
Qed.

Lemma gf_mul_one_l (x : GF256elt) : gf_mul T gf_one x = x.
Proof.
  destruct (Z.eq_dec (bytevalue x) 0) as [Hx|Hx].
  { rewrite gf_mul_zero by auto. apply GF256elt_ext. now rewrite Hx. }
  assert (H1 : bytevalue gf_one <> 0) by (simpl; discriminate).
  apply log_inj; [now apply gf_mul_log|assumption|].
  rewrite (proj2 (gf_mul_log _ _ H1 Hx)).
  rewrite <- Z.add_mod_idemp_l by lia.
  replace (L gf_one mod 255) with 0; [reflexivity|].
  unfold L. replace (bytevalue gf_one) with (E 0) by (rewrite ok_exp_0; reflexivity).
  symmetry. apply ok_log_exp. lia.
Qed.

(** The pure form of C7. *)
Lemma gf_mul_div (x y : GF256elt) :
  bytevalue x <> 0 -> gf_mul T x (gf_div T y x) = y.
Proof.
  intros Hx. destruct (Z.eq_dec (bytevalue y) 0) as [Hy|Hy].
  { rewrite gf_div_zero by assumption. rewrite gf_mul_zero by auto.
    apply GF256elt_ext. now rewrite Hy. }
  destruct (gf_div_log y x Hy Hx) as [Hq Lq].
  apply log_inj; [now apply gf_mul_log|assumption|].
  rewrite (proj2 (gf_mul_log _ _ Hx Hq)).
  rewrite <- Z.add_mod_idemp_r, Lq, Z.add_mod_idemp_r by lia.
  f_equal. lia.
Qed.

Hypothesis Hlinear : linear_ok T = true.

Lemma gen_value : bytevalue (gf_gen T) = E 1.
Proof. unfold gf_gen. apply bytevalue_init, exp_at_range, ok_wf. Qed.

Lemma gen_nonzero : bytevalue (gf_gen T) <> 0.
Proof. rewrite gen_value. apply ok_log_exp. lia. Qed.

Lemma gen_log : L (gf_gen T) mod 255 = 1.
Proof. unfold L. rewrite gen_value. apply ok_log_exp. lia. Qed.

(** Multiplication by the generator is additive. *)
Lemma gen_additive (x y : GF256elt) :
  gf_mul T (gf_gen T) (GF256elt_add x y)
  = GF256elt_add (gf_mul T (gf_gen T) x) (gf_mul T (gf_gen T) y).
Proof.
  assert (H : forall z, bytevalue (gf_mul T (gf_gen T) z)
    = bits_combine (fun k => bytevalue (gf_mul T (gf_gen T) (GF256elt_init (2 ^ k))))
                   (bytevalue z)).
  { intros z. apply Z.eqb_eq. rewrite <- (init_bytevalue z) at 1.
    apply (range_forallb _ 0 256 Hlinear), bytevalue_range. }
  apply GF256elt_ext.
  now rewrite bytevalue_add, !H, bytevalue_add, bits_combine_lxor.
Qed.

(** So is multiplication by each of its powers. *)
Lemma pow_additive (i : nat) (x y : GF256elt) :
  gf_mul T (gf_pow T i) (GF256elt_add x y)
  = GF256elt_add (gf_mul T (gf_pow T i) x) (gf_mul T (gf_pow T i) y).
Proof.
  induction i as [|i IH]; cbn [gf_pow].
  - now rewrite !gf_mul_one_l.
  - now rewrite <- !gf_mul_assoc, IH, gen_additive.
Qed.

Lemma pow_value (i : nat) :
  (i < 255)%nat -> bytevalue (gf_pow T i) = E (Z.of_nat i).
Proof.
  induction i as [|i IH]; intros Hi; cbn [gf_pow].
  - change (Z.of_nat 0) with 0. now rewrite ok_exp_0.
  - specialize (IH ltac:(lia)).
    assert (Hp : bytevalue (gf_pow T i) <> 0)
      by (rewrite IH; apply ok_log_exp; lia).
    rewrite (gf_mul_value _ _ gen_nonzero Hp). f_equal.
    rewrite <- Z.add_mod_idemp_l, gen_log by lia.
    rewrite <- Z.add_mod_idemp_r by lia.
    unfold L. rewrite IH, (proj2 (ok_log_exp (Z.of_nat i) ltac:(lia))).
    rewrite Z.mod_small by lia. lia.
Qed.

(** Every nonzero element is a power of the generator. *)
Lemma nonzero_is_pow (x : GF256elt) :
  bytevalue x <> 0 -> exists i, x = gf_pow T i.
Proof.
  intros Hx. exists (Z.to_nat (L x mod 255)).
  pose proof (Z.mod_pos_bound (L x) 255 ltac:(lia)).
  apply GF256elt_ext. rewrite pow_value by lia.
  rewrite Z2Nat.id by lia. symmetry. now apply ok_exp_log.
Qed.

Lemma gf_mul_add_distr_l (x y z : GF256elt) :
  gf_mul T x (GF256elt_add y z) = GF256elt_add (gf_mul T x y) (gf_mul T x z).
Proof.
  destruct (Z.eq_dec (bytevalue x) 0) as [Hx|Hx].
  - rewrite !gf_mul_zero by auto. now rewrite add_zero_l.
  - destruct (nonzero_is_pow x Hx) as [i ->]. apply pow_additive.
Qed.

Lemma gf_ring :
  ring_theory gf_zero gf_one GF256elt_add (gf_mul T) GF256elt_sub (fun x => x) eq.
Proof.
  constructor.
  - apply add_zero_l.
  - apply add_comm.
  - apply add_assoc.
  - apply gf_mul_one_l.
  - apply gf_mul_comm.
  - apply gf_mul_assoc.
  - intros x y z. rewrite (gf_mul_comm _ z), gf_mul_add_distr_l.
    now rewrite !(gf_mul_comm z).
  - reflexivity.
  - apply add_self.
Qed.
End Field.

Lemma module_tables_linear : linear_ok module_tables = true.
Proof. vm_compute. reflexivity. Qed.

(** C7: [x * (y / x) == y] for every nonzero [x] and every [y]. *)
Theorem GF256elt_mul_truediv (T : tables) (x y : GF256elt) :
  tables_ok T = true ->
  GF256elt_int x <> 0 ->
  (q ← GF256elt_truediv T y x; GF256elt_mul T x q) = Returns y.
Proof.
  intros Hok Hx. unfold GF256elt_int in Hx.
  rewrite (truediv_returns T y x (ok_wf T Hok) Hx). simpl.
  rewrite (mul_returns T _ _ (ok_wf T Hok)). f_equal. now apply gf_mul_div.
Qed.

Lemma GF256elt_mul_truediv_witness :
  tables_ok module_tables = true /\
  GF256elt_int (GF256elt_init 7) <> 0 /\
  (q ← GF256elt_truediv module_tables (GF256elt_init 200) (GF256elt_init 7);
   GF256elt_mul module_tables (GF256elt_init 7) q) = Returns (GF256elt_init 200).
Proof.
  split; [vm_compute; reflexivity|]. split; [vm_compute; discriminate|].
  apply GF256elt_mul_truediv; [vm_compute; reflexivity|vm_compute; discriminate].
Defined.

(** ** Loops *)

Ltac mstep := rewrite bind_Returns; cbv beta zeta.

Lemma for_each_invariant {A S : Type} (I : list A -> S -> Prop)
  (body : A -> S -> outcome S) (l : list A) :
  (forall done x s, I done s ->
     match body x s with
     | Returns s' => I (done ++ [x]) s'
     | Raises _ => False
     | OutOfFuel => True
     end) ->
  forall done s, I done s ->
    match for_each l s body with
    | Returns s' => I (done ++ l) s'
    | Raises _ => False
    | OutOfFuel => True
    end.
Proof.
  intros Hbody. induction l as [|x l IH]; intros done s Hs; simpl.
  - now rewrite app_nil_r.
  - specialize (Hbody done x s Hs).
    destruct (body x s) as [s'| |]; simpl; auto.
    specialize (IH (done ++ [x]) s' Hbody).
    now rewrite <- app_assoc in IH.
Qed.

(** [for i in range(0, n): arr[i] = g(i, arr[i])] *)
Lemma for_each_range_total {A : Type} (n : nat)
  (body : Z -> list A -> outcome (list A)) (g : nat -> A -> A) :
  (forall i arr a, (i < n)%nat -> length arr = n -> arr !! i = Some a ->
     body (Z.of_nat i) arr = Returns (<[i := g i a]> arr)) ->
  forall arr, length arr = n ->
    for_each (range 0 (Z.of_nat n)) arr body = Returns (imap g arr).
Proof.
  intros Hbody arr Hlen.
  assert (H : forall m k cur, (k + m = n)%nat ->
    cur = imap (fun j a => if (j <? k)%nat then g j a else a) arr ->
    for_each (range (Z.of_nat k) (Z.of_nat n)) cur body = Returns (imap g arr)).
  { induction m as [|m IH]; intros k cur Hk Hcur.
    - rewrite range_nil by lia. simpl. subst cur. f_equal.
      apply imap_ext. intros j a Hj. apply lookup_lt_Some in Hj.
      destruct (Nat.ltb_spec j k); [reflexivity|lia].
    - rewrite range_cons by lia. simpl.
      destruct (lookup_lt_is_Some_2 arr k ltac:(lia)) as [a Ha].
      rewrite (Hbody k cur a).
      + simpl. replace (Z.of_nat k + 1) with (Z.of_nat (S k)) by lia.
        apply IH; [lia|]. subst cur. apply list_eq. intros j.
        rewrite list_lookup_insert, !list_lookup_imap, length_imap.
        destruct (decide _) as [[<- ?]|Hne].
        * rewrite Ha. simpl. now rewrite (proj2 (Nat.ltb_lt k (S k))) by lia.
        * destruct (arr !! j) as [b|] eqn:E; simpl; [|reflexivity].
          apply lookup_lt_Some in E.
          destruct (Nat.ltb_spec j k), (Nat.ltb_spec j (S k));
            first [reflexivity | lia | exfalso; apply Hne; split; lia].
      + lia.
      + subst cur. now rewrite length_imap.
      + subst cur. rewrite list_lookup_imap, Ha. simpl.
        now rewrite Nat.ltb_irrefl. }
  apply (H n 0%nat arr); [lia|].
  apply list_eq. intros j. rewrite list_lookup_imap.
  destruct (arr !! j); reflexivity.
Qed.

(** ** Evaluation of polynomials *)

Lemma PGF256_f_returns (T : tables) (P : PGF256) (x : GF256elt) :
  tables_wf T = true -> P <> [] ->
  PGF256_f T P x = Returns (PGF256_eval T P x).
Proof.
  intros Hwf HP. unfold PGF256_f, PGF256_eval, peval.
  destruct P as [|c P]; [congruence|].
  change (GF256elt_init 0) with gf_zero.
  generalize (rev (c :: P)) gf_zero. intros l.
  induction l as [|a l IH]; intros s; simpl; [reflexivity|].
  rewrite mul_returns by assumption. simpl. apply IH.
Qed.

(** ** The random polynomial *)

Lemma pickRandomPolynomial_spec (rand : nat -> Z) (pos : nat) (degree : Z)
  (value : GF256elt) :
  exists cs, pickRandomPolynomial rand pos degree value
             = (value :: cs, (pos + Z.to_nat degree)%nat)
             /\ length cs = Z.to_nat degree.
Proof.
  unfold pickRandomPolynomial.
  assert (H : forall (l : list Z) coeffs pos,
    exists cs, fold_left (fun '(coeffs, pos) (c : Z) =>
                 (coeffs ++ [GF256elt_init (randint 0 255 (rand pos))], S pos))
               l (coeffs, pos) = (coeffs ++ cs, (pos + length l)%nat)
               /\ length cs = length l).
  { induction l as [|c l IH]; intros coeffs p; simpl.
    - exists []. rewrite app_nil_r, Nat.add_0_r. auto.
    - destruct (IH (coeffs ++ [GF256elt_init (randint 0 255 (rand p))]) (S p))
        as (cs & -> & Hcs).
      exists (GF256elt_init (randint 0 255 (rand p)) :: cs).
      rewrite <- app_assoc. simpl. split; [f_equal; lia|lia]. }
  destruct (H (range 1 (degree + 1)) [value] pos) as (cs & -> & Hcs).
  rewrite range_length in *.
  replace (Z.to_nat (degree + 1 - 1)) with (Z.to_nat degree) in * by lia.
  exists cs. auto.
Qed.

(** ** One byte of the secret *)

Lemma encodeByte_spec (T : tables) (rand : nat -> Z) (pos : nat)
  (byte k : Z) (picks : list Z) :
  tables_wf T = true ->
  let '(P, pos') := pickRandomPolynomial rand pos (k - 1) (GF256elt_init byte) in
  encodeByte T rand pos byte (Z.of_nat (length picks)) k picks
  = Returns (map (share T [P]) picks, pos').
Proof.
  intros Hwf. unfold encodeByte.
  destruct (pickRandomPolynomial_spec rand pos (k - 1) (GF256elt_init byte))
    as (cs & -> & Hcs).
  set (P := GF256elt_init byte :: cs).
  set (n := length picks).
  rewrite (for_each_range_total n _
    (fun i a => a ++ share T [P] (at_ picks (Z.of_nat i)))).
  - simpl. do 2 f_equal. apply list_eq. intros i.
    rewrite list_lookup_imap, !list_lookup_fmap.
    unfold range. rewrite list_lookup_fmap, Z.sub_0_r, Nat2Z.id.
    fold n. destruct (decide (i < n)%nat) as [Hi|Hi].
    + rewrite lookup_seq_lt by assumption. simpl.
      destruct (lookup_lt_is_Some_2 picks i Hi) as [x Hx]. rewrite Hx. simpl.
      unfold at_. now rewrite Nat2Z.id, Hx.
    + rewrite lookup_seq_ge by lia. simpl.
      now rewrite (proj2 (lookup_ge_None picks i)) by (fold n; lia).
  - intros i arr a Hi Hlen Ha.
    rewrite (getitem_at picks) by (fold n; lia). mstep.
    rewrite PGF256_f_returns by (assumption || discriminate). mstep.
    destruct (getitem_in_range arr (Z.of_nat i) ltac:(lia)) as (a' & Ha' & ->).
    rewrite Nat2Z.id in Ha'. mstep.
    rewrite setitem_in_range by lia. mstep.
    rewrite Nat2Z.id.
    destruct (getitem_in_range (<[i := a' ++
        [GF256elt_int (GF256elt_init (at_ picks (Z.of_nat i)))]]> arr) (Z.of_nat i))
      as (a'' & Ha'' & ->); [rewrite length_insert; lia|].
    mstep. rewrite setitem_in_range by (rewrite length_insert; lia). mstep.
    rewrite Nat2Z.id in *. rewrite list_lookup_insert_eq in Ha'' by lia.
    injection Ha'' as <-. rewrite list_insert_insert_eq.
    replace a' with a by congruence.
    rewrite <- app_assoc. reflexivity.
  - unfold range. now rewrite length_map, length_map, length_seq, Z.sub_0_r, Nat2Z.id.
Qed.

(** ** The loop over the secret *)

Lemma write_loop_spec (keys outputs : list (list Z)) :
  length keys = length outputs ->
  for_each (range 0 (Z.of_nat (length outputs))) outputs (fun i outputs =>
    ki ← getitem keys i;
    oi ← getitem outputs i;
    setitem outputs i (oi ++ ki))
  = Returns (zip_with app outputs keys).
Proof.
  intros Hlen.
  rewrite (for_each_range_total (length outputs) _
    (fun i a => a ++ default [] (keys !! i))).
  - f_equal. apply list_eq. intros i.
    rewrite list_lookup_imap, lookup_zip_with.
    destruct (outputs !! i) as [o|] eqn:Ho; simpl; [|reflexivity].
    apply lookup_lt_Some in Ho.
    destruct (lookup_lt_is_Some_2 keys i ltac:(lia)) as [ki ->]. reflexivity.
  - intros i arr a Hi Harr Ha.
    destruct (getitem_in_range keys (Z.of_nat i) ltac:(lia)) as (ki & Hki & ->).
    mstep.
    destruct (getitem_in_range arr (Z.of_nat i) ltac:(lia)) as (a' & Ha' & ->).
    mstep. rewrite setitem_in_range by lia.
    rewrite Nat2Z.id in *. rewrite Hki. simpl. congruence.
  - reflexivity.
Qed.

Lemma share_cons (T : tables) (P : PGF256) (Ps : list PGF256) (x : Z) :
  share T (P :: Ps) x = share T [P] x ++ share T Ps x.
Proof. reflexivity. Qed.

Lemma encode_loop_spec (T : tables) (rand : nat -> Z) (stream : list Z)
  (k : Z) (picks : list Z) :
  tables_wf T = true ->
  forall pos outputs, length outputs = length picks ->
    encode_loop T rand pos stream outputs (Z.of_nat (length picks)) k picks
    = Returns (zip_with app outputs (map (share T (polys rand pos stream k)) picks)).
Proof.
  intros Hwf. induction stream as [|byte stream IH]; intros pos outputs Hlen.
  - simpl. f_equal. apply list_eq. intros i.
    rewrite lookup_zip_with, list_lookup_fmap.
    destruct (outputs !! i) as [o|] eqn:Ho; simpl; [|reflexivity].
    apply lookup_lt_Some in Ho.
    destruct (lookup_lt_is_Some_2 picks i ltac:(lia)) as [x ->]. simpl.
    unfold share, pairs_with. simpl. now rewrite app_nil_r.
  - cbn [encode_loop polys].
    pose proof (encodeByte_spec T rand pos byte k picks Hwf) as HB.
    destruct (pickRandomPolynomial rand pos (k - 1) (GF256elt_init byte))
      as [P pos'].
    rewrite HB. mstep.
    rewrite <- Hlen.
    rewrite write_loop_spec by (rewrite length_map; lia).
    mstep. rewrite Hlen.
    rewrite IH by (rewrite length_zip_with, length_map; lia).
    f_equal. apply list_eq. intros i.
    rewrite !lookup_zip_with, !list_lookup_fmap.
    destruct (outputs !! i) as [o|]; simpl; [|reflexivity].
    destruct (picks !! i) as [x|]; simpl; [|reflexivity].
    rewrite <- app_assoc. reflexivity.
Qed.

Lemma polys_length (rand : nat -> Z) (stream : list Z) (k : Z) :
  forall pos, length (polys rand pos stream k) = length stream.
Proof.
  induction stream as [|byte stream IH]; intros pos; simpl; [reflexivity|].
  destruct (pickRandomPolynomial rand pos (k - 1) (GF256elt_init byte)).
  simpl. now rewrite IH.
Qed.

(** Every polynomial drawn starts with the secret byte and has [k - 1]
    further coefficients. *)
Lemma polys_shape (rand : nat -> Z) (stream : list Z) (k : Z) :
  forall pos, Forall2 (fun byte P => exists cs,
                         P = GF256elt_init byte :: cs /\
                         length cs = Z.to_nat (k - 1))
                      stream (polys rand pos stream k).
Proof.
  induction stream as [|byte stream IH]; intros pos; simpl; [constructor|].
  destruct (pickRandomPolynomial_spec rand pos (k - 1) (GF256elt_init byte))
    as (cs & -> & Hcs).
  constructor; [eauto|apply IH].
Qed.

(** ** The choice of the identifiers *)

Lemma randint_range (a b raw : Z) : a <= b -> a <= randint a b raw <= b.
Proof.
  intros H. unfold randint.
  pose proof (Z.mod_pos_bound raw (b - a + 1)). lia.
Qed.

Lemma pick_loop_spec (fuel : nat) (rand : nat -> Z) (picked : list bool) :
  length picked = 256%nat ->
  forall pos,
    match pick_loop fuel rand pos picked with
    | Returns (pick, pos') =>
        1 <= pick <= 255 /\ picked !! Z.to_nat pick = Some false
    | Raises _ => False
    | OutOfFuel => True
    end.
Proof.
  intros Hlen. induction fuel as [|fuel IH]; intros pos; cbn [pick_loop]; [exact I|].
  pose proof (randint_range 1 255 (rand pos) ltac:(lia)) as Hr.
  destruct (getitem_in_range picked (randint 1 255 (rand pos)) ltac:(lia))
    as (taken & Ht & ->).
  mstep. destruct taken; simpl; [apply IH|]. auto.
Qed.

Lemma pick_all_spec (fuel : nat) (rand : nat -> Z) (n : nat) :
  match pick_all fuel rand (Z.of_nat n) with
  | Returns (picked, picks, pos) =>
      length picks = n /\ NoDup picks /\ (forall p, p ∈ picks -> 1 <= p <= 255)
  | Raises _ => False
  | OutOfFuel => True
  end.
Proof.
  unfold pick_all.
  set (I := fun (done : list Z) (s : list bool * list Z * nat) =>
       let '(picked, picks, pos) := s in
       length picks = length done /\ length picked = 256%nat /\ NoDup picks /\
       (forall p, p ∈ picks -> 1 <= p <= 255) /\
       (forall p, p ∈ picks -> picked !! Z.to_nat p = Some true)).
  match goal with
  | |- match for_each ?l ?s ?body with _ => _ end =>
      pose proof (for_each_invariant I body l) as H
  end.
  lapply H; clear H.
  - intros H. specialize (H [] (replicate 256%nat false, [], 0%nat)).
    lapply H; clear H.
    + intros H. simpl app in H.
      destruct (for_each _ _ _) as [[[picked picks] pos]| |]; try assumption.
      destruct H as (Hl & _ & Hnd & Hrange & _).
      rewrite range_length in Hl.
      split; [lia|]. split; [assumption|exact Hrange].
    + unfold I. split; [reflexivity|]. split; [now rewrite length_replicate|].
      split; [apply NoDup_nil_2|].
      split; intros p Hp; now apply elem_of_nil in Hp.
  - intros done x [[picked picks] pos] (Hl & Hp & Hnd & Hrange & Hmark).
    pose proof (pick_loop_spec fuel rand picked Hp pos) as HL.
    destruct (pick_loop fuel rand pos picked) as [[pick pos']| |];
      [|contradiction|constructor].
    destruct HL as [Hpick Hfree]. mstep.
    rewrite setitem_in_range by lia. mstep.
    unfold I. split; [|split; [|split; [|split]]].
    + rewrite !length_app. simpl. lia.
    + now rewrite length_insert.
    + apply list.NoDup_app. repeat split; [assumption| |apply NoDup_singleton].
      intros p Hin Hin'. apply list_elem_of_singleton in Hin'. subst p.
      specialize (Hmark pick Hin). congruence.
    + intros p Hin. apply elem_of_app in Hin as [Hin|Hin]; [now apply Hrange|].
      apply list_elem_of_singleton in Hin. subst p. lia.
    + intros p Hin. apply elem_of_app in Hin as [Hin|Hin].
      * pose proof (Hrange p Hin).
        destruct (Z.eq_dec p pick) as [->|Hne].
        -- apply list_lookup_insert_eq. lia.
        -- rewrite list_lookup_insert_ne by lia. now apply Hmark.
      * apply list_elem_of_singleton in Hin. subst p.
        apply list_lookup_insert_eq. lia.
Qed.

(** At most 255 identifiers are distinct values of [[1,255]]. *)
Lemma picks_at_most_255 (picks : list Z) :
  NoDup picks -> (forall p, p ∈ picks -> 1 <= p <= 255) ->
  (length picks <= 255)%nat.
Proof.
  intros Hnd Hrange.
  assert (H : picks ⊆+ range 1 256).
  { apply NoDup_submseteq; [assumption|].
    intros p Hp. apply list_elem_of_In, in_range. specialize (Hrange p Hp). lia. }
  apply submseteq_length in H. now rewrite range_length in H.
Qed.

(** With well-formed tables [encode] either is still choosing
    identifiers when the fuel ends, or returns the sinks extended with the
    shares of the polynomials drawn. *)
Lemma encode_cases (fuel : nat) (T : tables) (rand : nat -> Z)
  (stream : list Z) (outputs : list (list Z)) (k : Z) :
  tables_wf T = true ->
  encode fuel T rand stream outputs k = OutOfFuel \/
  exists picked picks pos,
    pick_all fuel rand (Z.of_nat (length outputs)) = Returns (picked, picks, pos) /\
    length picks = length outputs /\ NoDup picks /\
    (forall p, p ∈ picks -> 1 <= p <= 255) /\
    encode fuel T rand stream outputs k
    = Returns (zip_with app outputs
                 (map (share T (polys rand pos stream k)) picks)).
Proof.
  intros Hwf. unfold encode. cbv zeta.
  pose proof (pick_all_spec fuel rand (length outputs)) as H.
  destruct (pick_all fuel rand (Z.of_nat (length outputs)))
    as [[[picked picks] pos]| |]; [|contradiction|now left].
  destruct H as (Hl & Hnd & Hrange). right. exists picked, picks, pos.
  split; [reflexivity|]. split; [assumption|]. split; [assumption|].
  split; [exact Hrange|].
  mstep. rewrite <- Hl. apply encode_loop_spec; [assumption|lia].
Qed.

(** ** The shares [encode] writes *)

Lemma pairs_with_length (x : Z) (ys : list Z) :
  length (pairs_with x ys) = (2 * length ys)%nat.
Proof.
  unfold pairs_with. induction ys as [|y ys IH]; simpl; [reflexivity|].
  rewrite IH. lia.
Qed.

(** Whenever [encode] returns, sink [i] has received exactly one
    [(X, Y)] byte pair per byte of the secret, all with the same
    identifier [x_i]; the identifiers are pairwise distinct and lie in
    [[1,255]]. *)
Lemma encode_streams_when_returns (fuel : nat) (T : tables) (rand : nat -> Z)
  (stream : list Z) (outputs outs : list (list Z)) (k : Z) :
  tables_wf T = true ->
  encode fuel T rand stream outputs k = Returns outs ->
  exists xs,
    length xs = length outputs /\ NoDup xs /\
    (forall x, x ∈ xs -> 1 <= x <= 255) /\
    length outs = length outputs /\
    forall i x o, xs !! i = Some x -> outputs !! i = Some o ->
      exists ys,
        length ys = length stream /\
        (forall y, y ∈ ys -> 0 <= y < 256) /\
        outs !! i = Some (o ++ pairs_with x ys) /\
        length (pairs_with x ys) = (2 * length stream)%nat.
Proof.
  intros Hwf Henc.
  destruct (encode_cases fuel T rand stream outputs k Hwf)
    as [H|(picked & picks & pos & _ & Hl & Hnd & Hrange & H)];
    rewrite H in Henc; [discriminate|].
  injection Henc as <-. exists picks.
  split; [assumption|]. split; [assumption|]. split; [assumption|].
  split; [rewrite length_zip_with, length_map; lia|].
  intros i x o Hx Ho.
  exists (map (fun P => GF256elt_int (PGF256_eval T P (GF256elt_init x)))
              (polys rand pos stream k)).
  split; [now rewrite length_map, polys_length|].
  split.
  { intros y Hy. apply list_elem_of_fmap in Hy as (P & -> & _).
    apply bytevalue_range. }
  split.
  - rewrite lookup_zip_with, list_lookup_fmap, Ho, Hx. simpl.
    unfold share. unfold GF256elt_int at 1.
    rewrite bytevalue_init; [reflexivity|].
    specialize (Hrange x ltac:(eapply list_elem_of_lookup_2; eauto)). lia.
  - now rewrite pairs_with_length, length_map, polys_length.
Qed.

(** C9: with more than 255 sinks [encode] is still choosing identifiers
    whatever the iteration budget: it returns nothing and raises
    nothing. *)
Theorem encode_never_ends (fuel : nat) (T : tables) (rand : nat -> Z)
  (stream : list Z) (outputs : list (list Z)) (k : Z) :
  (255 < length outputs)%nat ->
  encode fuel T rand stream outputs k = OutOfFuel.
Proof.
  intros Hn. unfold encode. cbv zeta.
  pose proof (pick_all_spec fuel rand (length outputs)) as H.
  destruct (pick_all fuel rand (Z.of_nat (length outputs)))
    as [[[picked picks] pos]| |]; [|contradiction|reflexivity].
  destruct H as (Hl & Hnd & Hrange).
  pose proof (picks_at_most_255 picks Hnd Hrange). lia.
Qed.

Lemma encode_never_ends_witness :
  (255 < length (replicate 256 ([] : list Z)))%nat /\
  encode 1000 module_tables Z.of_nat [65] (replicate 256 []) 2 = OutOfFuel.
Proof.
  split; [rewrite length_replicate; lia|].
  apply encode_never_ends. rewrite length_replicate. lia.
Defined.

(** C4, as stated, fails: [encode] checks neither [k] nor the number of
    sinks.  With [k = 3] and two sinks, and with [k = 0] and one sink, it
    returns shares. *)
Lemma encode_accepts_invalid_parameters :
  encode 2 module_tables Z.of_nat [65] [[]; []] 3 = Returns [[1; 64]; [2; 73]] /\
  encode 2 module_tables Z.of_nat [65] [[]] 0 = Returns [[1; 65]].
Proof. split; vm_compute; reflexivity. Qed.

(** Once the identifiers are chosen [encode] returns, whatever [k]. *)
Lemma encode_returns_after_picks (fuel : nat) (T : tables) (rand : nat -> Z)
  (stream : list Z) (outputs : list (list Z)) (k : Z)
  (s : list bool * list Z * nat) :
  tables_wf T = true ->
  pick_all fuel rand (Z.of_nat (length outputs)) = Returns s ->
  exists outs, encode fuel T rand stream outputs k = Returns outs.
Proof.
  intros Hwf Hs. unfold encode. cbv zeta. rewrite Hs.
  destruct s as [[picked picks] pos].
  pose proof (pick_all_spec fuel rand (length outputs)) as HP.
  rewrite Hs in HP. destruct HP as (Hl & _ & _).
  mstep. rewrite <- Hl, encode_loop_spec by (assumption || lia). eauto.
Qed.

(** C4, amended: [encode] validates nothing.  Whatever [k] and the number
    of sinks, it raises no error; and once the identifiers are chosen it
    returns share output, also for [k < 1] and for [k] above the number
    of sinks. *)
Theorem encode_validates_nothing (fuel : nat) (T : tables) (rand : nat -> Z)
  (stream : list Z) (outputs : list (list Z)) (k : Z) :
  tables_wf T = true ->
  (forall e, encode fuel T rand stream outputs k <> Raises e) /\
  (forall s, pick_all fuel rand (Z.of_nat (length outputs)) = Returns s ->
     exists outs, encode fuel T rand stream outputs k = Returns outs).
Proof.
  intros Hwf. split.
  - intros e.
    destruct (encode_cases fuel T rand stream outputs k Hwf)
      as [H|(picked & picks & pos & _ & _ & _ & _ & H)]; rewrite H; discriminate.
  - intros s Hs. now apply (encode_returns_after_picks fuel T rand stream outputs k s).
Qed.

Lemma encode_validates_nothing_witness :
  tables_wf module_tables = true /\
  (forall e, encode 2 module_tables Z.of_nat [65] [[]; []] 3 <> Raises e) /\
  (forall s, pick_all 2 Z.of_nat (Z.of_nat (length [[]; [] : list Z])) = Returns s ->
     exists outs, encode 2 module_tables Z.of_nat [65] [[]; []] 3 = Returns outs).
Proof.
  split; [vm_compute; reflexivity|].
  apply (encode_validates_nothing 2 module_tables Z.of_nat [65] [[]; []] 3).
  vm_compute; reflexivity.
Defined.

(** ** End of key in [decode] *)

(** The pass over the keys stops at the first key that has nothing left;
    the keys before it have given a pair each. *)
Lemma read_points_end_of_key (before after : list (list Z)) :
  Forall (fun key => (2 <= length key)%nat) before ->
  forall i, read_points (before ++ [] :: after) i
            = Returns (EndOfKey (i + length before)).
Proof.
  induction 1 as [|key before Hkey _ IH]; intros i; simpl.
  - now rewrite Nat.add_0_r.
  - destruct key as [|X [|Y key]]; simpl in Hkey; try lia.
    rewrite IH. simpl. f_equal. f_equal. lia.
Qed.

(** A key found empty raises 'Unexpected EOF' unless it is the first
    key; when the first key is empty the loop ends successfully, whatever
    is left in the other keys. *)
Lemma decode_end_of_key (fuel : nat) (T : tables) (before after : list (list Z))
  (output : list Z) :
  Forall (fun key => (2 <= length key)%nat) before ->
  decode (S fuel) T (before ++ [] :: after) output
  = match before with
    | [] => Returns output
    | _ => Raises (UnexpectedEOF (length before))
    end.
Proof.
  intros H. cbn [decode]. rewrite read_points_end_of_key by assumption.
  mstep. simpl. destruct before; reflexivity.
Qed.

(** C2 at the failing inputs: when the first key is the one that ends
    early, [decode] returns what it has decoded so far instead of
    raising, whatever is left in the other keys; with the short key in
    second place it raises for key 1. *)
Theorem decode_first_key_short :
  (forall fuel T after output,
     decode (S fuel) T ([] :: after) output = Returns output) /\
  decode 5 module_tables [[1; 65]; [2; 7; 2; 9]] [] = Returns [136] /\
  decode 5 module_tables [[2; 7; 2; 9]; [1; 65]] [] = Raises (UnexpectedEOF 1).
Proof.
  split; [|split; vm_compute; reflexivity].
  intros fuel T after output.
  apply (decode_end_of_key fuel T [] after output). constructor.
Qed.

(** C10: a key holding an X byte without its Y byte makes [decode] fail
    at [ord] of the empty read: it neither returns nor raises the
    'Unexpected EOF' of its length check. *)
Theorem decode_missing_Y :
  exists keys,
    Exists (fun key => Nat.Odd (length key)) keys /\
    forall fuel T output,
      decode (S fuel) T keys output = Raises TypeError /\
      (forall out, decode (S fuel) T keys output <> Returns out) /\
      (forall i, decode (S fuel) T keys output <> Raises (UnexpectedEOF i)).
Proof.
  exists [[7]]. split.
  - constructor. exists 0%nat. reflexivity.
  - intros fuel T output.
    assert (H : decode (S fuel) T [[7]] output = Raises TypeError) by reflexivity.
    rewrite H. repeat split; discriminate.
Qed.

(** ** Polynomials over a field: evaluation, roots, interpolation *)

Declare Scope F_scope.

Section PolyTheory.
Variable F : Type.
Variables (zero one : F) (add mul sub div : F -> F -> F) (opp : F -> F).
Hypothesis Rth : ring_theory zero one add mul sub opp eq.
Hypothesis div_mul : forall x y, x <> zero -> mul x (div y x) = y.

Add Ring Fring : Rth.

Local Infix "+" := add : F_scope.
Local Infix "*" := mul : F_scope.
Local Infix "-" := sub : F_scope.
Local Open Scope F_scope.

Local Abbreviation pevalF := (peval F zero add mul).
Local Abbreviation paddF := (padd F add).
Local Abbreviation psubF := (psub F sub opp).
Local Abbreviation pmulF := (pmul F zero add mul).
Local Abbreviation pdivcF := (pdivc F div).
Local Abbreviation basis_fromF := (basis_from F zero one add mul sub div opp).
Local Abbreviation lagrange_fromF := (lagrange_from F zero one add mul sub div opp).
Local Abbreviation lagrangeF := (lagrange F zero one add mul sub div opp).
Local Abbreviation quotF := (quot F zero add mul).

(** *** The field *)

Lemma sub_zero_eq (x y : F) : x - y = zero -> x = y.
Proof. intros H. replace x with ((x - y) + y) by ring. rewrite H. ring. Qed.

Lemma mul_cancel (x u : F) : x <> zero -> x * u = zero -> u = zero.
Proof.
  intros Hx H. replace u with (div one x * (x * u)).
  - rewrite H. ring.
  - replace (div one x * (x * u)) with ((x * div one x) * u) by ring.
    rewrite div_mul by assumption. ring.
Qed.

Lemma div_one (x y : F) : x <> zero -> div y x = y * div one x.
Proof.
  intros Hx. apply sub_zero_eq. apply (mul_cancel x); [assumption|].
  replace (x * (div y x - y * div one x))
    with (x * div y x - y * (x * div one x)) by ring.
  rewrite !div_mul by assumption. ring.
Qed.

(** *** Evaluation *)

Lemma peval_nil (x : F) : pevalF [] x = zero.
Proof. reflexivity. Qed.

Lemma peval_cons (c : F) (P : list F) (x : F) :
  pevalF (c :: P) x = c + x * pevalF P x.
Proof.
  unfold pevalF.
  cbn [rev]. rewrite fold_left_app. cbn [fold_left]. ring.
Qed.

Lemma peval_padd (P Q : list F) (x : F) :
  pevalF (paddF P Q) x = pevalF P x + pevalF Q x.
Proof.
  revert Q. induction P as [|a P IH]; intros [|b Q]; cbn [padd];
    rewrite ?peval_cons, ?peval_nil; try ring.
  rewrite IH. ring.
Qed.

Lemma peval_map_opp (Q : list F) (x : F) :
  pevalF (map opp Q) x = zero - pevalF Q x.
Proof.
  induction Q as [|b Q IH]; cbn [map]; rewrite ?peval_cons, ?peval_nil; [ring|].
  rewrite IH. ring.
Qed.

Lemma peval_psub (P Q : list F) (x : F) :
  pevalF (psubF P Q) x = pevalF P x - pevalF Q x.
Proof.
  revert Q. induction P as [|a P IH]; intros [|b Q]; cbn [psub map];
    rewrite ?peval_cons, ?peval_nil; try ring.
  - rewrite peval_map_opp. ring.
  - rewrite IH. ring.
Qed.

Lemma peval_scale (a : F) (Q : list F) (x : F) :
  pevalF (map (mul a) Q) x = a * pevalF Q x.
Proof.
  induction Q as [|b Q IH]; cbn [map]; rewrite ?peval_cons, ?peval_nil; [ring|].
  rewrite IH. ring.
Qed.

Lemma peval_pmul (P Q : list F) (x : F) :
  pevalF (pmulF P Q) x = pevalF P x * pevalF Q x.
Proof.
  induction P as [|a P IH]; cbn [pmul]; rewrite ?peval_nil; [ring|].
  rewrite peval_padd, peval_scale, !peval_cons, IH. ring.
Qed.

Lemma peval_pdivc (P : list F) (d x : F) :
  d <> zero -> pevalF (pdivcF P d) x = pevalF P x * div one d.
Proof.
  intros Hd. unfold pdivc.
  induction P as [|a P IH]; cbn [map]; rewrite ?peval_cons, ?peval_nil; [ring|].
  rewrite IH, (div_one d a) by assumption. ring.
Qed.

(** *** Lengths *)

Lemma length_padd (P Q : list F) :
  length (paddF P Q) = Nat.max (length P) (length Q).
Proof.
  revert Q. induction P as [|a P IH]; intros [|b Q]; cbn [padd length];
    try lia.
  rewrite IH. lia.
Qed.

Lemma length_psub (P Q : list F) :
  length (psubF P Q) = Nat.max (length P) (length Q).
Proof.
  revert Q. induction P as [|a P IH]; intros [|b Q]; cbn [psub length];
    rewrite ?length_map; cbn [length]; try lia.
  rewrite IH. lia.
Qed.

Lemma length_pmul_const (y : F) (Q : list F) :
  Q <> [] -> length (pmulF [y] Q) = length Q.
Proof.
  intros HQ. cbn [pmul]. rewrite length_padd, length_map.
  destruct Q; [congruence|]. cbn [length]. lia.
Qed.

Lemma length_pmul_linear (a b : F) (Q : list F) :
  Q <> [] -> length (pmulF [a; b] Q) = S (length Q).
Proof.
  intros HQ. cbn [pmul]. rewrite !length_padd, !length_map.
  cbn [length]. rewrite length_padd, length_map.
  destruct Q; [congruence|]. cbn [length]. lia.
Qed.

Lemma basis_from_length (xi : F) (i : nat) (points : list (F * F)) :
  forall j,
    (1 <= length (basis_fromF xi i j points))%nat /\
    (length (basis_fromF xi i j points) <= S (length points))%nat /\
    ((j <= i < j + length points)%nat ->
     (length (basis_fromF xi i j points) <= length points)%nat).
Proof.
  induction points as [|[xj yj] rest IH]; intros j; cbn [basis_from length].
  - repeat split; lia.
  - destruct (IH (S j)) as (H1 & H2 & H3).
    destruct (Nat.eqb_spec i j) as [->|Hne].
    + repeat split; lia.
    + unfold pdivc. cbn [psub map].
      rewrite length_pmul_linear
        by (destruct (basis_fromF xi i (S j) rest); [simpl in H1; lia|discriminate]).
      repeat split; try lia.
Qed.

Lemma lagrange_from_length (all points : list (F * F)) :
  forall i, (i + length points <= length all)%nat ->
            (length (lagrange_fromF all i points) <= length all)%nat.
Proof.
  induction points as [|[xi yi] rest IH]; intros i Hi;
    cbn [lagrange_from length] in *; [lia|].
  destruct (basis_from_length xi i all 0%nat) as (H1 & _ & H3).
  rewrite length_padd, length_pmul_const
    by (destruct (basis_fromF xi i 0 all); [simpl in H1; lia|discriminate]).
  specialize (IH (S i) ltac:(lia)). specialize (H3 ltac:(lia)). lia.
Qed.

(** *** The basis polynomials at the nodes *)

Lemma linear_factor (xi xj z : F) :
  xi <> xj ->
  pevalF (pdivcF (psubF [zero; one] [xj]) (xi - xj)) z = (z - xj) * div one (xi - xj).
Proof.
  intros Hne. rewrite peval_pdivc.
  - cbn [psub]. rewrite !peval_cons, peval_nil. ring.
  - intros H. apply Hne. now apply sub_zero_eq.
Qed.

Lemma basis_at_own_node (xi : F) (i : nat) (points : list (F * F)) :
  forall j,
    (forall j' xj yj, points !! j' = Some (xj, yj) -> (j + j')%nat <> i -> xj <> xi) ->
    pevalF (basis_fromF xi i j points) xi = one.
Proof.
  induction points as [|[xj yj] rest IH]; intros j Hd; cbn [basis_from].
  - rewrite peval_cons, peval_nil. ring.
  - assert (Hrest : pevalF (basis_fromF xi i (S j) rest) xi = one).
    { apply IH. intros j' x y Hj' Hne. apply (Hd (S j') x y Hj'). lia. }
    destruct (Nat.eqb_spec i j) as [->|Hne]; [assumption|].
    assert (Hx : xi <> xj).
    { intros ->. apply (Hd 0%nat xj yj eq_refl); [lia|reflexivity]. }
    rewrite peval_pmul, Hrest, linear_factor by assumption.
    replace ((xi - xj) * div one (xi - xj) * one)
      with ((xi - xj) * div one (xi - xj)) by ring.
    apply div_mul. intros H. apply Hx. now apply sub_zero_eq.
Qed.

Lemma basis_at_other_node (xi : F) (i : nat) (points : list (F * F))
  (xm ym : F) :
  forall j m,
    (forall j' xj yj, points !! j' = Some (xj, yj) -> (j + j')%nat <> i -> xj <> xi) ->
    points !! m = Some (xm, ym) -> (j + m)%nat <> i ->
    pevalF (basis_fromF xi i j points) xm = zero.
Proof.
  induction points as [|[xj yj] rest IH]; intros j m Hd Hm Hne;
    cbn [basis_from]; [discriminate|].
  assert (Hd' : forall j' x y, rest !! j' = Some (x, y) ->
                               (S j + j')%nat <> i -> x <> xi).
  { intros j' x y Hj' Hn. apply (Hd (S j') x y Hj'). lia. }
  destruct m as [|m].
  - injection Hm as -> ->.
    destruct (Nat.eqb_spec i j) as [->|Hij]; [lia|].
    assert (Hx : xi <> xm).
    { intros ->. apply (Hd 0%nat xm ym eq_refl); [lia|reflexivity]. }
    rewrite peval_pmul, linear_factor by assumption. ring.
  - assert (Hrest : pevalF (basis_fromF xi i (S j) rest) xm = zero).
    { apply (IH (S j) m Hd' Hm). lia. }
    destruct (Nat.eqb_spec i j) as [->|Hij]; [assumption|].
    rewrite peval_pmul, Hrest. ring.
Qed.

(** *** The interpolating polynomial at the nodes *)

Lemma nodes_distinct (all : list (F * F)) (a b : nat) (xa ya xb yb : F) :
  NoDup (map fst all) ->
  all !! a = Some (xa, ya) -> all !! b = Some (xb, yb) -> a <> b -> xa <> xb.
Proof.
  intros Hnd Ha Hb Hne Heq. apply Hne.
  apply (proj1 (NoDup_alt _) Hnd a b xa).
  - change (map fst all) with (fst <$> all). now rewrite list_lookup_fmap, Ha.
  - change (map fst all) with (fst <$> all). rewrite list_lookup_fmap, Hb.
    simpl. now rewrite Heq.
Qed.

Lemma lagrange_from_at_node (all : list (F * F)) (m : nat) (xm ym : F) :
  NoDup (map fst all) -> all !! m = Some (xm, ym) ->
  forall points i,
    (forall i', points !! i' = all !! (i + i')%nat) ->
    pevalF (lagrange_fromF all i points) xm
    = if decide (i <= m < i + length points)%nat then ym else zero.
Proof.
  intros Hnd Hm. induction points as [|[xi yi] rest IH]; intros i Hsub;
    cbn [lagrange_from length].
  - rewrite peval_nil. destruct (decide _); [lia|reflexivity].
  - rewrite peval_padd, peval_pmul, !peval_cons, peval_nil.
    rewrite (IH (S i))
      by (intros i'; etransitivity; [exact (Hsub (S i'))|f_equal; lia]).
    assert (Hi : all !! i = Some (xi, yi)).
    { pose proof (Hsub 0%nat) as H0. rewrite Nat.add_0_r in H0.
      now rewrite <- H0. }
    assert (Hd : forall j' xj yj, all !! j' = Some (xj, yj) ->
                                  (0 + j')%nat <> i -> xj <> xi).
    { intros j' xj yj Hj' Hne. apply (nodes_distinct all j' i xj yj xi yi); auto. }
    destruct (Nat.eq_dec i m) as [->|Hne].
    + replace xi with xm by congruence. replace yi with ym by congruence.
      rewrite basis_at_own_node
        by (intros j' xj yj Hj' Hn; apply (nodes_distinct all j' m xj yj xm ym); auto).
      destruct (decide (S m <= m < _)%nat); [lia|].
      destruct (decide (m <= m < _)%nat); [ring|lia].
    + rewrite (basis_at_other_node xi i all xm ym 0%nat m Hd Hm) by lia.
      destruct (decide (S i <= m < _)%nat), (decide (i <= m < _)%nat);
        try lia; ring.
Qed.

Lemma lagrange_at_node (all : list (F * F)) (m : nat) (xm ym : F) :
  NoDup (map fst all) -> all !! m = Some (xm, ym) ->
  pevalF (lagrangeF all) xm = ym.
Proof.
  intros Hnd Hm. unfold lagrange.
  rewrite (lagrange_from_at_node all m xm ym Hnd Hm all 0%nat) by reflexivity.
  apply lookup_lt_Some in Hm. destruct (decide _); [reflexivity|lia].
Qed.

(** *** Roots *)

Lemma quot_length (P : list F) (r : F) : length (quotF P r) = pred (length P).
Proof.
  induction P as [|c [|c' P] IH]; cbn [quot length] in *; try reflexivity.
  now rewrite IH.
Qed.

Lemma quot_spec (P : list F) (r z : F) :
  pevalF P z = pevalF P r + (z - r) * pevalF (quotF P r) z.
Proof.
  induction P as [|c P IH].
  - cbn [quot]. rewrite !peval_nil. ring.
  - destruct P as [|c' P].
    + cbn [quot]. rewrite !peval_cons, !peval_nil. ring.
    + change (quotF (c :: c' :: P) r)
        with (pevalF (c' :: P) r :: quotF (c' :: P) r).
      rewrite (peval_cons c), (peval_cons c _ r), (peval_cons (pevalF _ r)).
      rewrite IH. ring.
Qed.

(** A polynomial with at most [n] coefficients and [n] distinct roots
    vanishes everywhere. *)
Lemma roots_vanish (n : nat) :
  forall (P : list F) (xs : list F),
    (length P <= n)%nat -> NoDup xs -> length xs = n ->
    (forall x, x ∈ xs -> pevalF P x = zero) ->
    forall z, pevalF P z = zero.
Proof.
  induction n as [|n IH]; intros P xs HP Hnd Hxs Hroot z.
  - destruct P; [apply peval_nil|simpl in HP; lia].
  - destruct xs as [|r xs]; [discriminate|].
    apply list.NoDup_cons in Hnd as [Hr Hnd].
    rewrite (quot_spec P r z), (Hroot r) by (left).
    rewrite (IH (quotF P r) xs); [ring| |assumption| |].
    + rewrite quot_length. lia.
    + simpl in Hxs. lia.
    + intros x Hx. apply (mul_cancel (x - r)).
      * intros H. apply Hr. apply sub_zero_eq in H. now subst.
      * pose proof (Hroot x ltac:(now right)) as Hx0.
        rewrite (quot_spec P r x), (Hroot r) in Hx0 by (left).
        etransitivity; [|exact Hx0]. ring.
Qed.

(** *** Interpolation *)

(** The polynomial interpolated from the values of [P] at as many
    distinct nodes as [P] has coefficients, or more, takes the value of
    [P] everywhere. *)
Theorem lagrange_interpolates (P : list F) (xs : list F) :
  NoDup xs -> (length P <= length xs)%nat ->
  forall z, pevalF (lagrangeF (map (fun x => (x, pevalF P x)) xs)) z = pevalF P z.
Proof.
  intros Hnd HP z.
  set (points := map (fun x => (x, pevalF P x)) xs).
  assert (Hfst : map fst points = xs).
  { unfold points. rewrite map_map. simpl. apply map_id. }
  apply sub_zero_eq. rewrite <- peval_psub.
  apply (roots_vanish (length xs) _ xs); try assumption; try reflexivity.
  - rewrite length_psub.
    pose proof (lagrange_from_length points points 0%nat ltac:(simpl; lia)) as HL.
    unfold lagrange. unfold points in HL at 3. rewrite length_map in HL. lia.
  - intros x Hx. rewrite peval_psub.
    apply list_elem_of_lookup in Hx as [m Hm].
    rewrite (lagrange_at_node points m x (pevalF P x)).
    + ring.
    + now rewrite Hfst.
    + unfold points. change (map ?f xs) with (f <$> xs).
      now rewrite list_lookup_fmap, Hm.
Qed.
End PolyTheory.

(** ** The interpolator returns the Lagrange polynomial *)

Lemma mapM_returns {A B : Type} (f : A -> outcome B) (g : A -> B) (l : list A) :
  (forall x, x ∈ l -> f x = Returns (g x)) -> mapM f l = Returns (map g l).
Proof.
  induction l as [|a l IH]; intros H; [reflexivity|].
  cbn [mapM map]. rewrite H by left. mstep.
  change (mapM f l ≫= (fun k => mret (g a :: k)) = Returns (g a :: map g l)).
  rewrite IH by (intros x Hx; apply H; now right). reflexivity.
Qed.

Lemma PGF256_mul_returns (T : tables) (P Q : PGF256) :
  tables_wf T = true ->
  PGF256_mul T P Q = Returns (pmul GF256elt gf_zero GF256elt_add (gf_mul T) P Q).
Proof.
  intros Hwf. induction P as [|a P IH]; [reflexivity|].
  cbn [PGF256_mul pmul].
  rewrite (mapM_returns _ (gf_mul T a)) by (intros; now apply mul_returns).
  mstep. rewrite IH. reflexivity.
Qed.

Lemma PGF256_divc_returns (T : tables) (P : PGF256) (d : GF256elt) :
  tables_wf T = true -> bytevalue d <> 0 ->
  PGF256_divc T P d = Returns (pdivc GF256elt (gf_div T) P d).
Proof.
  intros Hwf Hd. unfold PGF256_divc, pdivc.
  apply mapM_returns. intros; now apply truediv_returns.
Qed.

Lemma sub_nonzero (x y : GF256elt) : x <> y -> bytevalue (GF256elt_sub x y) <> 0.
Proof.
  intros Hne H. apply Hne, GF256elt_ext.
  unfold GF256elt_sub in H. rewrite bytevalue_add in H.
  now apply Z.lxor_eq.
Qed.

Lemma interpolate_basis_returns (T : tables) (xi : GF256elt) (i : nat)
  (points : list (GF256elt * GF256elt)) :
  tables_wf T = true ->
  forall j,
    (forall j' xj yj, points !! j' = Some (xj, yj) -> (j + j')%nat <> i -> xj <> xi) ->
    interpolate_basis T xi i j points
    = Returns (basis_from GF256elt gf_zero gf_one GF256elt_add (gf_mul T)
                 GF256elt_sub (gf_div T) (fun c => c) xi i j points).
Proof.
  intros Hwf. induction points as [|[xj yj] rest IH]; intros j Hd;
    cbn [interpolate_basis basis_from]; [reflexivity|].
  rewrite IH by (intros j' x y Hj' Hne; apply (Hd (S j') x y Hj'); lia).
  mstep. destruct (Nat.eqb_spec i j) as [->|Hne]; [reflexivity|].
  assert (Hx : xi <> xj).
  { intros ->. apply (Hd 0%nat xj yj eq_refl); [lia|reflexivity]. }
  rewrite PGF256_divc_returns by (assumption || now apply sub_nonzero).
  mstep. now apply PGF256_mul_returns.
Qed.

Lemma interpolate_returns (T : tables) (points : list (GF256elt * GF256elt)) :
  tables_wf T = true -> NoDup (map fst points) ->
  interpolate T points = Returns (PGF256_lagrange T points).
Proof.
  intros Hwf Hnd. unfold interpolate, PGF256_lagrange, lagrange.
  assert (H : forall rest i,
    (forall i', rest !! i' = points !! (i + i')%nat) ->
    interpolate_from T points i rest
    = Returns (lagrange_from GF256elt gf_zero gf_one GF256elt_add (gf_mul T)
                 GF256elt_sub (gf_div T) (fun c => c) points i rest)).
  { induction rest as [|[xi yi] rest IH]; intros i Hsub;
      cbn [interpolate_from lagrange_from]; [reflexivity|].
    assert (Hi : points !! i = Some (xi, yi)).
    { pose proof (Hsub 0%nat) as H0. rewrite Nat.add_0_r in H0. now rewrite <- H0. }
    rewrite interpolate_basis_returns; [|assumption|].
    - mstep. rewrite PGF256_mul_returns by assumption. mstep.
      rewrite IH
        by (intros i'; etransitivity; [exact (Hsub (S i'))|f_equal; lia]).
      reflexivity.
    - intros j' xj yj Hj' Hne.
      apply (nodes_distinct GF256elt points j' i xj yj xi yi); auto. }
  now apply H.
Qed.

(** ** The field of the tables, and interpolation in it *)

(** The tables of either strategy, for every prime polynomial the source
    lists, make the bytes a field. *)
Lemma generated_tables_field :
  field_ok (tables_of generate_logexp_tables) = true /\
  forall pp, In pp possible_PP ->
             field_ok (tables_of (generate_pplogexp_tables pp)) = true.
Proof.
  split; [vm_compute; reflexivity|].
  apply forallb_forall. vm_compute. reflexivity.
Qed.

Section GF256.
Variable T : tables.
Hypothesis Hfield : field_ok T = true.

Lemma field_tables_ok : tables_ok T = true.
Proof. unfold field_ok in Hfield. now apply andb_prop in Hfield. Qed.

Lemma field_tables_wf : tables_wf T = true.
Proof. apply ok_wf, field_tables_ok. Qed.

Lemma field_ring :
  ring_theory gf_zero gf_one GF256elt_add (gf_mul T) GF256elt_sub (fun x => x) eq.
Proof.
  apply gf_ring; [apply field_tables_ok|].
  unfold field_ok in Hfield. now apply andb_prop in Hfield.
Qed.

Lemma field_div_mul (x y : GF256elt) :
  x <> gf_zero -> gf_mul T x (gf_div T y x) = y.
Proof.
  intros Hx. apply gf_mul_div; [apply field_tables_ok|].
  intros H. apply Hx, GF256elt_ext. now rewrite H.
Qed.

Lemma PGF256_eval_cons_zero (c : GF256elt) (cs : PGF256) :
  PGF256_eval T (c :: cs) gf_zero = c.
Proof.
  unfold PGF256_eval.
  rewrite (peval_cons GF256elt gf_zero gf_one GF256elt_add (gf_mul T)
             GF256elt_sub (fun x => x) field_ring).
  rewrite (gf_mul_zero T gf_zero) by (left; reflexivity).
  now rewrite add_comm, add_zero_l.
Qed.

Lemma PGF256_lagrange_nonempty (points : list (GF256elt * GF256elt)) :
  points <> [] -> PGF256_lagrange T points <> [].
Proof.
  destruct points as [|[x y] rest]; [congruence|]. intros _ H.
  apply (f_equal length) in H. unfold PGF256_lagrange, lagrange in H.
  cbn [lagrange_from] in H.
  destruct (basis_from_length GF256elt gf_zero gf_one GF256elt_add (gf_mul T)
              GF256elt_sub (gf_div T) (fun c => c) x 0%nat ((x, y) :: rest) 0%nat)
    as (H1 & _).
  rewrite length_padd, length_pmul_const in H; [cbn [length] in H; lia|].
  intros H0. rewrite H0 in H1. simpl in H1. lia.
Qed.

(** Interpolating the values of [P] at enough distinct points and
    evaluating at zero gives [P(0)]. *)
Lemma interpolate_then_f (P : PGF256) (xs : list GF256elt) :
  xs <> [] -> NoDup xs -> (length P <= length xs)%nat ->
  (L ← interpolate T (map (fun x => (x, PGF256_eval T P x)) xs);
   PGF256_f T L gf_zero)
  = Returns (PGF256_eval T P gf_zero).
Proof.
  intros Hxs Hnd HP.
  rewrite interpolate_returns.
  - mstep. rewrite PGF256_f_returns.
    + f_equal.
      apply (lagrange_interpolates GF256elt gf_zero gf_one GF256elt_add (gf_mul T)
               GF256elt_sub (gf_div T) (fun x => x) field_ring field_div_mul);
        assumption.
    + apply field_tables_wf.
    + apply PGF256_lagrange_nonempty. destruct xs; [congruence|discriminate].
  - apply field_tables_wf.
  - rewrite map_map. simpl. now rewrite map_id.
Qed.

(** ** Reconstruction from shares *)

Lemma read_points_pairs (P : PGF256) (Ps : list PGF256) (xs : list Z) :
  forall i,
    read_points (map (share T (P :: Ps)) xs) i
    = Returns (Points (map (fun x => (x, PGF256_eval T P x)) (map GF256elt_init xs))
                      (map (share T Ps) xs)).
Proof.
  induction xs as [|x xs IH]; intros i; [reflexivity|].
  cbn [map]. rewrite share_cons.
  change (share T [P] x)
    with [GF256elt_int (GF256elt_init x);
          GF256elt_int (PGF256_eval T P (GF256elt_init x))].
  cbn [app read_points]. rewrite IH. mstep.
  unfold GF256elt_int. now rewrite !init_bytevalue.
Qed.

Lemma read_points_exhausted (xs : list Z) (i : nat) :
  xs <> [] -> read_points (map (share T []) xs) i = Returns (EndOfKey i).
Proof. destruct xs; [congruence|reflexivity]. Qed.

Lemma decode_shares (Ps : list PGF256) (xs : list Z) :
  xs <> [] -> NoDup (map GF256elt_init xs) ->
  Forall (fun P => (length P <= length xs)%nat) Ps ->
  forall fuel output, (length Ps < fuel)%nat ->
    decode fuel T (map (share T Ps) xs) output
    = Returns (output ++ map (fun P => GF256elt_int (PGF256_eval T P gf_zero)) Ps).
Proof.
  intros Hxs Hnd. induction 1 as [|P Ps HP _ IH]; intros fuel output Hfuel;
    (destruct fuel as [|fuel]; [simpl in Hfuel; lia|]); cbn [decode].
  - rewrite read_points_exhausted by assumption. mstep. cbn [Nat.eqb negb map].
    now rewrite app_nil_r.
  - rewrite read_points_pairs. mstep.
    pose proof (interpolate_then_f P (map GF256elt_init xs)) as HI.
    rewrite length_map in HI.
    specialize (HI ltac:(destruct xs; [congruence|discriminate]) Hnd HP).
    destruct (interpolate T _) as [L| |]; try discriminate.
    mstep. rewrite bind_Returns in HI. cbv beta in HI.
    change (GF256elt_init 0) with gf_zero. rewrite HI. mstep.
    rewrite IH by (simpl in Hfuel; lia).
    cbn [map]. now rewrite <- app_assoc.
Qed.
End GF256.

(** ** Split, then reconstruct *)

Lemma zip_with_app_fresh (l : list (list Z)) :
  zip_with app (replicate (length l) []) l = l.
Proof. induction l as [|a l IH]; simpl; [reflexivity|]. now rewrite IH. Qed.

(** The keys selected from the shares are the shares of the selected
    identifiers, which are distinct when the selection is. *)
Lemma select_shares (T : tables) (Ps : list PGF256) (picks : list Z)
  (idxs : list nat) (keys : list (list Z)) :
  NoDup picks -> NoDup idxs ->
  select (map (share T Ps) picks) idxs = Some keys ->
  exists xs, keys = map (share T Ps) xs /\ length xs = length idxs /\
             NoDup xs /\ (forall x, x ∈ xs -> x ∈ picks).
Proof.
  intros Hpicks Hidxs Hsel. unfold select in Hsel. apply mapM_Some in Hsel.
  assert (H : exists xs, keys = map (share T Ps) xs /\
                         Forall2 (fun i x => picks !! i = Some x) idxs xs).
  { clear Hidxs. induction Hsel as [|i key idxs keys Hi _ IH].
    - exists []. split; [reflexivity|constructor].
    - destruct IH as (xs & -> & Hxs).
      change (map (share T Ps) picks) with (share T Ps <$> picks) in Hi.
      rewrite list_lookup_fmap in Hi.
      destruct (picks !! i) as [x|] eqn:Hx; [|discriminate].
      injection Hi as <-. exists (x :: xs). split; [reflexivity|].
      now constructor. }
  destruct H as (xs & -> & Hxs). exists xs. split; [reflexivity|].
  split; [symmetry; eapply Forall2_length; eassumption|].
  split.
  - clear Hsel. induction Hxs as [|i x idxs xs Hi Hxs IH]; [constructor|].
    apply list.NoDup_cons in Hidxs as [Hi' Hidxs].
    apply list.NoDup_cons. split; [|now apply IH].
    intros Hin. apply Hi'.
    apply list_elem_of_lookup in Hin as [j Hj].
    destruct (Forall2_lookup_r _ _ _ _ _ Hxs Hj) as (i' & Hi'' & Hp).
    replace i with i'; [eapply list_elem_of_lookup_2; eassumption|].
    apply (proj1 (NoDup_alt _) Hpicks i' i x); assumption.
  - intros x Hx. apply list_elem_of_lookup in Hx as [j Hj].
    destruct (Forall2_lookup_r _ _ _ _ _ Hxs Hj) as (i' & _ & Hp).
    eapply list_elem_of_lookup_2; eassumption.
Qed.

Lemma init_NoDup (xs : list Z) :
  NoDup xs -> (forall x, x ∈ xs -> 1 <= x <= 255) ->
  NoDup (map GF256elt_init xs).
Proof.
  intros Hnd Hrange. apply NoDup_fmap_2_strong; [|assumption].
  intros x y Hx Hy Heq. apply (f_equal bytevalue) in Heq.
  rewrite !bytevalue_init in Heq; [assumption| |];
    [specialize (Hrange y Hy)|specialize (Hrange x Hx)]; lia.
Qed.

Lemma polys_secret (T : tables) (rand : nat -> Z) (stream : list Z) (k : Z)
  (pos : nat) :
  field_ok T = true -> forallb is_byte stream = true ->
  map (fun P => GF256elt_int (PGF256_eval T P gf_zero)) (polys rand pos stream k)
  = stream.
Proof.
  intros Hf Hbytes. pose proof (polys_shape rand stream k pos) as H.
  induction H as [|byte P stream Ps (cs & -> & _) _ IH]; [reflexivity|].
  cbn [forallb] in Hbytes. apply andb_prop in Hbytes as [Hb Hbytes].
  cbn [map]. rewrite IH by assumption. f_equal.
  rewrite PGF256_eval_cons_zero by assumption.
  apply bytevalue_init. now apply is_byte_range.
Qed.

Lemma polys_lengths (rand : nat -> Z) (stream : list Z) (k : Z) (pos m : nat) :
  (S (Z.to_nat (k - 1)) <= m)%nat ->
  Forall (fun P => (length P <= m)%nat) (polys rand pos stream k).
Proof.
  intros Hm. pose proof (polys_shape rand stream k pos) as H.
  induction H as [|byte P stream Ps (cs & -> & Hcs) _ IH]; constructor;
    [simpl; lia|assumption].
Qed.

(** Reconstruction from at least [k] of the shares of fresh sinks. *)
Lemma decode_encode (fuel : nat) (T : tables) (rand : nat -> Z) (stream : list Z)
  (n : nat) (k : Z) (outs : list (list Z)) (idxs : list nat)
  (keys : list (list Z)) (fuel' : nat) :
  field_ok T = true -> forallb is_byte stream = true -> 1 <= k ->
  encode fuel T rand stream (replicate n []) k = Returns outs ->
  NoDup idxs -> (Z.to_nat k <= length idxs)%nat -> select outs idxs = Some keys ->
  (length stream < fuel')%nat ->
  decode fuel' T keys [] = Returns stream.
Proof.
  intros Hf Hbytes Hk Henc Hidxs Hlen Hsel Hfuel.
  destruct (encode_cases fuel T rand stream (replicate n []) k
              (field_tables_wf T Hf))
    as [H|(picked & picks & pos & _ & Hl & Hnd & Hrange & H)];
    rewrite H in Henc; [discriminate|].
  injection Henc as <-.
  rewrite length_replicate in Hl. subst n.
  rewrite <- (length_map (share T (polys rand pos stream k)) picks) in Hsel.
  rewrite zip_with_app_fresh in Hsel.
  destruct (select_shares T _ picks idxs keys Hnd Hidxs Hsel)
    as (xs & -> & Hxs & Hxnd & Hin).
  rewrite (decode_shares T Hf (polys rand pos stream k) xs).
  - cbn [app]. f_equal. now apply polys_secret.
  - destruct xs; [simpl in Hxs; lia|discriminate].
  - apply init_NoDup; [assumption|]. intros x Hx. apply Hrange, Hin, Hx.
  - apply polys_lengths. lia.
  - now rewrite polys_length.
Qed.

(** ** Termination of the identifier choice *)

Lemma for_each_snoc {A S : Type} (l : list A) (x : A) (s : S)
  (body : A -> S -> outcome S) :
  for_each (l ++ [x]) s body = (s' ← for_each l s body; body x s').
Proof.
  revert s. induction l as [|a l IH]; intros s; cbn [app for_each].
  - rewrite (bind_Returns s). destruct (body x s); reflexivity.
  - destruct (body a s) as [s'| |]; [|reflexivity|reflexivity].
    rewrite (bind_Returns s'). apply IH.
Qed.

Lemma range_snoc (n : nat) :
  range 0 (Z.of_nat (S n)) = range 0 (Z.of_nat n) ++ [Z.of_nat n].
Proof.
  unfold range. rewrite !Z.sub_0_r, !Nat2Z.id, seq_S, map_app. reflexivity.
Qed.

Lemma pick_loop_mono (rand : nat -> Z) (picked : list bool) (fuel fuel' : nat) :
  (fuel <= fuel')%nat ->
  forall pos r, pick_loop fuel rand pos picked = Returns r ->
                pick_loop fuel' rand pos picked = Returns r.
Proof.
  revert fuel'. induction fuel as [|fuel IH]; intros fuel' Hle pos r H;
    [discriminate|].
  destruct fuel' as [|fuel']; [lia|]. cbn [pick_loop] in *.
  destruct (getitem picked (randint 1 255 (rand pos))) as [taken| |];
    try discriminate.
  rewrite bind_Returns in *. cbv beta in *.
  destruct (negb taken); [assumption|]. apply IH; [lia|assumption].
Qed.

Lemma pick_loop_finds (rand : nat -> Z) (picked : list bool) (d : nat) :
  length picked = 256%nat ->
  forall pos,
    picked !! Z.to_nat (randint 1 255 (rand (pos + d)%nat)) = Some false ->
    exists r, pick_loop (S d) rand pos picked = Returns r.
Proof.
  intros Hlen. induction d as [|d IH]; intros pos Hfree; cbn [pick_loop].
  - rewrite Nat.add_0_r in Hfree.
    pose proof (randint_range 1 255 (rand pos) ltac:(lia)) as Hr.
    destruct (getitem_in_range picked (randint 1 255 (rand pos)) ltac:(lia))
      as (taken & Ht & ->).
    mstep. replace taken with false by congruence. simpl. eauto.
  - pose proof (randint_range 1 255 (rand pos) ltac:(lia)) as Hr.
    destruct (getitem_in_range picked (randint 1 255 (rand pos)) ltac:(lia))
      as (taken & Ht & ->).
    mstep. destruct taken; simpl; [|eauto].
    apply IH. now replace (S pos + d)%nat with (pos + S d)%nat by lia.
Qed.

(** With a fair source and at most 255 sinks, some iteration budget lets
    the identifier choice complete. *)
Lemma pick_all_terminates (rand : nat -> Z) (n : nat) :
  fair rand -> (n <= 255)%nat ->
  exists fuel s, pick_all fuel rand (Z.of_nat n) = Returns s.
Proof.
  intros Hfair. unfold pick_all.
  set (body := fun fuel (i : Z) '(picked, picks, pos) =>
      '(pick, pos) ← pick_loop fuel rand pos picked;
      picked ← setitem picked pick true;
      Returns (picked, picks ++ [pick], pos)).
  set (s0 := (replicate 256%nat false, ([] : list Z), 0%nat)).
  change ((n <= 255)%nat ->
          exists fuel s, for_each (range 0 (Z.of_nat n)) s0 (body fuel) = Returns s).
  assert (Hmono : forall fuel fuel' i s s', (fuel <= fuel')%nat ->
            body fuel i s = Returns s' -> body fuel' i s = Returns s').
  { intros fuel fuel' i [[picked picks] pos] s' Hle H. unfold body in *.
    destruct (pick_loop fuel rand pos picked) as [r| |] eqn:E; try discriminate.
    now rewrite (pick_loop_mono rand picked fuel fuel' Hle pos r E). }
  assert (Hmono' : forall fuel fuel' l s s', (fuel <= fuel')%nat ->
            for_each l s (body fuel) = Returns s' ->
            for_each l s (body fuel') = Returns s').
  { intros fuel fuel' l. induction l as [|i l IH]; intros s s' Hle H;
      cbn [for_each] in *; [assumption|].
    destruct (body fuel i s) as [s1| |] eqn:E; try discriminate.
    rewrite (Hmono fuel fuel' i s s1 Hle E). rewrite bind_Returns in *.
    now apply IH. }
  induction n as [|n IH]; intros Hn.
  - exists 0%nat, s0. reflexivity.
  - destruct (IH ltac:(lia)) as (fuel & [[picked picks] pos] & Hs).
    assert (Hinv : length picks = n /\ length picked = 256%nat /\
                   forall p, 0 <= p < 256 ->
                             picked !! Z.to_nat p = Some true -> p ∈ picks).
    { clear IH Hmono Hmono'.
      pose proof (for_each_invariant
        (fun (done : list Z) (s : list bool * list Z * nat) =>
           let '(picked, picks, pos) := s in
           length picks = length done /\ length picked = 256%nat /\
           forall p, 0 <= p < 256 ->
                     picked !! Z.to_nat p = Some true -> p ∈ picks)
        (body fuel) (range 0 (Z.of_nat n))) as H.
      lapply H; clear H.
      - intros H. specialize (H [] s0). lapply H; clear H.
        + intros H. simpl app in H. rewrite Hs in H.
          rewrite range_length in H. destruct H as (H1 & H2 & H3).
          split; [lia|]. split; assumption.
        + split; [reflexivity|]. split; [apply length_replicate|].
          intros p Hp Ht. apply lookup_replicate in Ht as [Ht _]. discriminate.
      - intros done x [[pk ps] po] (H1 & H2 & H3). unfold body.
        pose proof (pick_loop_spec fuel rand pk H2 po) as HL.
        destruct (pick_loop fuel rand po pk) as [[pick pos']| |];
          [|contradiction|constructor].
        destruct HL as [Hpick Hfree]. mstep.
        rewrite setitem_in_range by lia. mstep.
        split; [rewrite !length_app; simpl; lia|].
        split; [now rewrite length_insert|].
        intros p Hp Ht. apply elem_of_app.
        destruct (Z.eq_dec p pick) as [->|Hne].
        + right. now apply list_elem_of_singleton.
        + left. rewrite list_lookup_insert_ne in Ht by lia. now apply H3. }
    destruct Hinv as (Hl & Hpk & Hmark).
    destruct (Hfair pos picks ltac:(lia)) as [d Hd].
    destruct (pick_loop_finds rand picked d Hpk pos) as [[pick pos'] Hr].
    { pose proof (randint_range 1 255 (rand (pos + d)%nat) ltac:(lia)) as Hr.
      destruct (lookup_lt_is_Some_2 picked
                  (Z.to_nat (randint 1 255 (rand (pos + d)%nat))) ltac:(lia))
        as [[|] Hb]; [|assumption].
      exfalso. apply Hd. apply Hmark; [lia|assumption]. }
    exists (Nat.max fuel (S d)).
    rewrite range_snoc, for_each_snoc.
    rewrite (Hmono' fuel (Nat.max fuel (S d)) _ _ _ ltac:(lia) Hs). mstep.
    change (body (Nat.max fuel (S d)) (Z.of_nat n) (picked, picks, pos))
      with ('(pick, pos) ← pick_loop (Nat.max fuel (S d)) rand pos picked;
            picked ← setitem picked pick true;
            Returns (picked, picks ++ [pick], pos)).
    rewrite (pick_loop_mono rand picked (S d) (Nat.max fuel (S d)) ltac:(lia) pos _ Hr).
    mstep.
    pose proof (pick_loop_spec (S d) rand picked Hpk pos) as HL.
    rewrite Hr in HL. destruct HL as [Hpick _].
    rewrite setitem_in_range by lia. mstep. eauto.
Qed.

(** The source that draws 0, 1, 2, ... in turn is fair. *)
Lemma round_robin_fair : fair Z.of_nat.
Proof.
  intros pos taken Hlen.
  destruct (decide (Forall (fun v => v ∈ taken) (range 1 256))) as [Hall|Hex].
  - exfalso.
    assert (H : range 1 256 ⊆+ taken).
    { apply NoDup_submseteq.
      - unfold range. apply NoDup_fmap_2; [intros x y; lia|apply NoDup_seq].
      - intros v Hv. rewrite Forall_forall in Hall. apply Hall.
        now apply list_elem_of_In. }
    apply submseteq_length in H. rewrite range_length in H. lia.
  - apply not_Forall_Exists in Hex; [|intros v; apply _].
    apply Exists_exists in Hex as (v & Hv & Hfree).
    apply (proj1 (in_range _ _ _)) in Hv.
    exists (Z.to_nat ((v - 1 - Z.of_nat pos) mod 255)).
    replace (randint 1 255 (Z.of_nat (pos + Z.to_nat ((v - 1 - Z.of_nat pos) mod 255))))
      with v; [assumption|].
    unfold randint.
    pose proof (Z.mod_pos_bound (v - 1 - Z.of_nat pos) 255 ltac:(lia)).
    rewrite Nat2Z.inj_add, Z2Nat.id by lia.
    replace (255 - 1 + 1) with 255 by lia.
    rewrite Z.add_mod_idemp_r by lia.
    replace (Z.of_nat pos + (v - 1 - Z.of_nat pos)) with (v - 1) by lia.
    rewrite Z.mod_small by lia. lia.
Qed.

(** C8: for up to 255 sinks and every fair random source [encode]
    returns once the iteration budget suffices; and whenever it returns,
    sink [i] has received exactly one [(X, Y)] byte pair per byte of the
    secret, all with the same identifier [x_i]; the identifiers are
    pairwise distinct and lie in [[1,255]]. *)
Theorem encode_share_streams (T : tables) (rand : nat -> Z)
  (stream : list Z) (outputs : list (list Z)) (k : Z) :
  tables_wf T = true ->
  (fair rand -> (length outputs <= 255)%nat ->
   exists fuel outs, encode fuel T rand stream outputs k = Returns outs) /\
  (forall fuel outs,
     encode fuel T rand stream outputs k = Returns outs ->
     exists xs,
       length xs = length outputs /\ NoDup xs /\
       (forall x, x ∈ xs -> 1 <= x <= 255) /\
       length outs = length outputs /\
       forall i x o, xs !! i = Some x -> outputs !! i = Some o ->
         exists ys,
           length ys = length stream /\
           (forall y, y ∈ ys -> 0 <= y < 256) /\
           outs !! i = Some (o ++ pairs_with x ys) /\
           length (pairs_with x ys) = (2 * length stream)%nat).
Proof.
  intros Hwf. split.
  - intros Hfair Hn.
    destruct (pick_all_terminates rand (length outputs) Hfair Hn) as (fuel & s & Hs).
    exists fuel.
    now apply (encode_returns_after_picks fuel T rand stream outputs k s).
  - intros fuel outs Henc.
    now apply (encode_streams_when_returns fuel T rand stream outputs outs k).
Qed.

Lemma encode_share_streams_witness :
  tables_wf module_tables = true /\
  (exists fuel outs,
     encode fuel module_tables Z.of_nat [65; 66] [[]; []; []] 2 = Returns outs) /\
  encode 2 module_tables Z.of_nat [65; 66] [[]; []; []] 2
  = Returns [[1; 66; 1; 70]; [2; 71; 2; 74]; [3; 68; 3; 78]] /\
  exists xs,
    length xs = 3%nat /\ NoDup xs /\
    (forall x, x ∈ xs -> 1 <= x <= 255) /\
    length [[1; 66; 1; 70]; [2; 71; 2; 74]; [3; 68; 3; 78]] = 3%nat /\
    forall i x o, xs !! i = Some x -> [[]; []; []] !! i = Some o ->
      exists ys,
        length ys = 2%nat /\
        (forall y, y ∈ ys -> 0 <= y < 256) /\
        [[1; 66; 1; 70]; [2; 71; 2; 74]; [3; 68; 3; 78]] !! i
        = Some (o ++ pairs_with x ys) /\
        length (pairs_with x ys) = 4%nat.
Proof.
  assert (Hwf : tables_wf module_tables = true) by (vm_compute; reflexivity).
  destruct (encode_share_streams module_tables Z.of_nat [65; 66] [[]; []; []] 2 Hwf)
    as [Hends Hstreams].
  split; [exact Hwf|]. split.
  - apply Hends; [apply round_robin_fair|simpl; lia].
  - split; [vm_compute; reflexivity|].
    apply (Hstreams 2%nat). vm_compute; reflexivity.
Defined.

(** C1: every [k] of the shares [encode] writes to [n] fresh sinks, given
    to [decode] in any order, reconstruct the secret; and [encode] does
    return them whenever the random source is fair. *)
Theorem split_reconstruct_roundtrip (T : tables) (rand : nat -> Z)
  (stream : list Z) (n : nat) (k : Z) :
  field_ok T = true ->
  forallb is_byte stream = true ->
  2 <= k <= Z.of_nat n -> Z.of_nat n <= 255 ->
  (forall fuel outs, encode fuel T rand stream (replicate n []) k = Returns outs ->
     forall idxs keys fuel',
       NoDup idxs -> length idxs = Z.to_nat k -> select outs idxs = Some keys ->
       (length stream < fuel')%nat ->
       decode fuel' T keys [] = Returns stream) /\
  (fair rand ->
     exists fuel outs, encode fuel T rand stream (replicate n []) k = Returns outs).
Proof.
  intros Hf Hbytes Hk Hn. split.
  - intros fuel outs Henc idxs keys fuel' Hnd Hlen Hsel Hfuel.
    apply (decode_encode fuel T rand stream n k outs idxs keys fuel');
      try assumption; lia.
  - intros Hfair.
    destruct (pick_all_terminates rand n Hfair ltac:(lia)) as (fuel & s & Hs).
    exists fuel.
    apply (encode_returns_after_picks fuel T rand stream (replicate n []) k s);
      [apply field_tables_wf, Hf|].
    now rewrite length_replicate.
Qed.

Lemma split_reconstruct_roundtrip_witness :
  field_ok module_tables = true /\
  forallb is_byte [84; 111; 111] = true /\
  (2 <= 3 <= Z.of_nat 5) /\ Z.of_nat 5 <= 255 /\
  exists outs keys,
    encode 1 module_tables Z.of_nat [84; 111; 111] (replicate 5 []) 3 = Returns outs /\
    NoDup [4; 1; 2]%nat /\ length [4; 1; 2]%nat = Z.to_nat 3 /\
    select outs [4; 1; 2]%nat = Some keys /\
    (length [84; 111; 111] < 4)%nat /\
    decode 4 module_tables keys [] = Returns [84; 111; 111].
Proof.
  assert (Hf : field_ok module_tables = true) by (vm_compute; reflexivity).
  assert (Hb : forallb is_byte [84; 111; 111] = true) by reflexivity.
  assert (Hk : 2 <= 3 <= Z.of_nat 5) by lia.
  assert (Hn : Z.of_nat 5 <= 255) by lia.
  assert (Hnd : NoDup [4; 1; 2]%nat) by (apply (bool_decide_unpack _); vm_compute; exact I).
  split; [exact Hf|]. split; [exact Hb|]. split; [exact Hk|]. split; [exact Hn|].
  eexists. eexists.
  split; [vm_compute; reflexivity|].
  split; [exact Hnd|]. split; [reflexivity|].
  split; [vm_compute; reflexivity|].
  split; [simpl; lia|].
  apply (proj1 (split_reconstruct_roundtrip module_tables Z.of_nat [84; 111; 111]
                  5 3 Hf Hb Hk Hn) 1%nat _ ltac:(vm_compute; reflexivity)
               [4; 1; 2]%nat _ 4%nat Hnd eq_refl ltac:(vm_compute; reflexivity)).
  simpl; lia.
Defined.

(** * Further properties of the field arithmetic *)

(** X1: addition makes the field elements a commutative group in which
    every element is its own opposite. *)
Theorem GF256elt_add_group (x y z : GF256elt) :
  GF256elt_add x y = GF256elt_add y x /\
  GF256elt_add x (GF256elt_add y z) = GF256elt_add (GF256elt_add x y) z /\
  GF256elt_add (GF256elt_init 0) x = x /\
  GF256elt_add x x = GF256elt_init 0.
Proof.
  split; [apply add_comm|]. split; [apply add_assoc|].
  split; [apply add_zero_l|apply add_self].
Qed.

Lemma GF256elt_eq_true (x y : GF256elt) : GF256elt_eq x y = true <-> x = y.
Proof.
  unfold GF256elt_eq. rewrite Z.eqb_eq. split; [apply GF256elt_ext|now intros ->].
Qed.

(** X2: subtraction undoes addition, and [x - y] is zero exactly when
    [x == y], which holds exactly when the two are the same element. *)
Theorem GF256elt_sub_add (x y : GF256elt) :
  GF256elt_add (GF256elt_sub x y) y = x /\
  GF256elt_sub (GF256elt_add x y) y = x /\
  (GF256elt_eq (GF256elt_sub x y) (GF256elt_init 0) = true
   <-> GF256elt_eq x y = true) /\
  (GF256elt_eq x y = true <-> x = y).
Proof.
  unfold GF256elt_sub.
  assert (H : forall a b, GF256elt_add (GF256elt_add a b) b = a).
  { intros a b. rewrite <- add_assoc, add_self, add_comm. apply add_zero_l. }
  split; [apply H|]. split; [apply H|]. split; [|apply GF256elt_eq_true].
  rewrite !GF256elt_eq_true. split.
  - intros H0. rewrite <- (H x y), H0. apply add_zero_l.
  - intros ->. apply add_self.
Qed.

(** X3: multiplication is commutative and [1] is its identity. *)
Theorem GF256elt_mul_comm_one (T : tables) (x y : GF256elt) :
  tables_ok T = true ->
  GF256elt_mul T x y = GF256elt_mul T y x /\
  GF256elt_mul T (GF256elt_init 1) x = Returns x /\
  GF256elt_mul T x (GF256elt_init 1) = Returns x.
Proof.
  intros Hok. pose proof (ok_wf T Hok) as Hwf.
  rewrite !(mul_returns T _ _ Hwf).
  split; [f_equal; now apply gf_mul_comm|].
  split; f_equal; [|rewrite gf_mul_comm by assumption];
    now apply (gf_mul_one_l T Hok).
Qed.

Lemma GF256elt_mul_comm_one_witness :
  tables_ok module_tables = true /\
  GF256elt_mul module_tables (GF256elt_init 1) (GF256elt_init 77)
  = Returns (GF256elt_init 77).
Proof.
  split; [vm_compute; reflexivity|].
  apply (GF256elt_mul_comm_one module_tables (GF256elt_init 77) (GF256elt_init 1)).
  vm_compute; reflexivity.
Defined.

(** X4: multiplication is associative. *)
Theorem GF256elt_mul_assoc (T : tables) (x y z : GF256elt) :
  tables_ok T = true ->
  (xy ← GF256elt_mul T x y; GF256elt_mul T xy z)
  = (yz ← GF256elt_mul T y z; GF256elt_mul T x yz).
Proof.
  intros Hok. pose proof (ok_wf T Hok) as Hwf.
  rewrite !(mul_returns T _ _ Hwf), !bind_Returns, !(mul_returns T _ _ Hwf).
  f_equal. symmetry. now apply gf_mul_assoc.
Qed.

Lemma GF256elt_mul_assoc_witness :
  tables_ok module_tables = true /\
  (xy ← GF256elt_mul module_tables (GF256elt_init 3) (GF256elt_init 200);
   GF256elt_mul module_tables xy (GF256elt_init 91))
  = (yz ← GF256elt_mul module_tables (GF256elt_init 200) (GF256elt_init 91);
     GF256elt_mul module_tables (GF256elt_init 3) yz).
Proof.
  split; [vm_compute; reflexivity|].
  apply GF256elt_mul_assoc. vm_compute; reflexivity.
Defined.

(** X5: multiplication distributes over addition. *)
Theorem GF256elt_mul_add_distr (T : tables) (x y z : GF256elt) :
  field_ok T = true ->
  GF256elt_mul T x (GF256elt_add y z)
  = (xy ← GF256elt_mul T x y; xz ← GF256elt_mul T x z;
     Returns (GF256elt_add xy xz)).
Proof.
  intros Hf. pose proof (field_tables_wf T Hf) as Hwf.
  rewrite !(mul_returns T _ _ Hwf), !bind_Returns. f_equal.
  unfold field_ok in Hf. apply andb_prop in Hf as [Hok Hlin].
  now apply gf_mul_add_distr_l.
Qed.

Lemma GF256elt_mul_add_distr_witness :
  field_ok module_tables = true /\
  GF256elt_mul module_tables (GF256elt_init 7)
    (GF256elt_add (GF256elt_init 130) (GF256elt_init 251))
  = (xy ← GF256elt_mul module_tables (GF256elt_init 7) (GF256elt_init 130);
     xz ← GF256elt_mul module_tables (GF256elt_init 7) (GF256elt_init 251);
     Returns (GF256elt_add xy xz)).
Proof.
  split; [vm_compute; reflexivity|].
  apply GF256elt_mul_add_distr. vm_compute; reflexivity.
Defined.

(** X6: a product is zero exactly when one of the factors is. *)
Theorem GF256elt_mul_zero_iff (T : tables) (x y : GF256elt) :
  tables_ok T = true ->
  exists r, GF256elt_mul T x y = Returns r /\
            (GF256elt_int r = 0 <-> GF256elt_int x = 0 \/ GF256elt_int y = 0).
Proof.
  intros Hok. exists (gf_mul T x y).
  split; [apply mul_returns, ok_wf, Hok|]. unfold GF256elt_int. split.
  - intros H0. destruct (Z.eq_dec (bytevalue x) 0) as [|Hx]; [now left|].
    destruct (Z.eq_dec (bytevalue y) 0) as [|Hy]; [now right|].
    now destruct (gf_mul_log T Hok x y Hx Hy).
  - intros H. now rewrite gf_mul_zero.
Qed.

Lemma GF256elt_mul_zero_iff_witness :
  tables_ok module_tables = true /\
  exists r, GF256elt_mul module_tables (GF256elt_init 16) (GF256elt_init 16) = Returns r /\
            (GF256elt_int r = 0 <->
             GF256elt_int (GF256elt_init 16) = 0 \/ GF256elt_int (GF256elt_init 16) = 0).
Proof.
  split; [vm_compute; reflexivity|].
  apply GF256elt_mul_zero_iff. vm_compute; reflexivity.
Defined.

(** X7: division undoes multiplication, and a nonzero element divided by
    itself is [1]. *)
Theorem GF256elt_truediv_mul (T : tables) (x y : GF256elt) :
  tables_ok T = true ->
  GF256elt_int y <> 0 ->
  (p ← GF256elt_mul T x y; GF256elt_truediv T p y) = Returns x /\
  GF256elt_truediv T y y = Returns (GF256elt_init 1).
Proof.
  intros Hok Hy. unfold GF256elt_int in Hy. pose proof (ok_wf T Hok) as Hwf.
  assert (Hcancel : forall u v, gf_mul T y u = gf_mul T y v -> u = v).
  { assert (Hinv : forall w, gf_mul T (gf_div T gf_one y) (gf_mul T y w) = w).
    { intros w. rewrite gf_mul_assoc, (gf_mul_comm T Hok _ y) by assumption.
      rewrite gf_mul_div by assumption. now apply gf_mul_one_l. }
    intros u v H. rewrite <- (Hinv u), <- (Hinv v). now rewrite H. }
  split.
  - rewrite (mul_returns T _ _ Hwf), bind_Returns, truediv_returns by assumption.
    f_equal. apply Hcancel. rewrite gf_mul_div by assumption. now apply gf_mul_comm.
  - rewrite truediv_returns by assumption. f_equal. apply Hcancel.
    rewrite gf_mul_div by assumption.
    rewrite gf_mul_comm by assumption. symmetry. now apply (gf_mul_one_l T Hok).
Qed.

Lemma GF256elt_truediv_mul_witness :
  tables_ok module_tables = true /\
  GF256elt_int (GF256elt_init 9) <> 0 /\
  (p ← GF256elt_mul module_tables (GF256elt_init 250) (GF256elt_init 9);
   GF256elt_truediv module_tables p (GF256elt_init 9)) = Returns (GF256elt_init 250).
Proof.
  split; [vm_compute; reflexivity|]. split; [vm_compute; discriminate|].
  apply (GF256elt_truediv_mul module_tables (GF256elt_init 250) (GF256elt_init 9));
    [vm_compute; reflexivity|vm_compute; discriminate].
Defined.

(** X8: on nonzero elements [log] turns products into sums and quotients
    into differences, modulo 255. *)
Theorem GF256elt_log_mul (T : tables) (x y : GF256elt) :
  tables_ok T = true ->
  GF256elt_int x <> 0 -> GF256elt_int y <> 0 ->
  exists lx ly p lp q lq,
    GF256elt_log T x = Returns lx /\ GF256elt_log T y = Returns ly /\
    GF256elt_mul T x y = Returns p /\ GF256elt_log T p = Returns lp /\
    lp mod 255 = (lx + ly) mod 255 /\
    GF256elt_truediv T x y = Returns q /\ GF256elt_log T q = Returns lq /\
    lq mod 255 = (lx - ly) mod 255.
Proof.
  intros Hok Hx Hy. unfold GF256elt_int in *. pose proof (ok_wf T Hok) as Hwf.
  destruct (gf_mul_log T Hok x y Hx Hy) as [Hp Lp].
  destruct (gf_div_log T Hok x y Hx Hy) as [Hq Lq].
  exists (at_ (logtable T) (bytevalue x)), (at_ (logtable T) (bytevalue y)),
    (gf_mul T x y), (at_ (logtable T) (bytevalue (gf_mul T x y))),
    (gf_div T x y), (at_ (logtable T) (bytevalue (gf_div T x y))).
  rewrite !log_nonzero by assumption.
  rewrite mul_returns, truediv_returns by assumption.
  repeat split; assumption.
Qed.

Lemma GF256elt_log_mul_witness :
  tables_ok module_tables = true /\
  GF256elt_int (GF256elt_init 4) <> 0 /\ GF256elt_int (GF256elt_init 8) <> 0 /\
  exists lx ly p lp q lq,
    GF256elt_log module_tables (GF256elt_init 4) = Returns lx /\
    GF256elt_log module_tables (GF256elt_init 8) = Returns ly /\
    GF256elt_mul module_tables (GF256elt_init 4) (GF256elt_init 8) = Returns p /\
    GF256elt_log module_tables p = Returns lp /\
    lp mod 255 = (lx + ly) mod 255 /\
    GF256elt_truediv module_tables (GF256elt_init 4) (GF256elt_init 8) = Returns q /\
    GF256elt_log module_tables q = Returns lq /\
    lq mod 255 = (lx - ly) mod 255.
Proof.
  split; [vm_compute; reflexivity|]. split; [vm_compute; discriminate|].
  split; [vm_compute; discriminate|].
  apply GF256elt_log_mul;
    [vm_compute; reflexivity|vm_compute; discriminate|vm_compute; discriminate].
Defined.

(** * Further properties of the table generation *)

Lemma for_range_total {S : Type} (I : Z -> S -> Prop)
  (body : Z -> S -> outcome S) (lo b : Z) :
  (forall i s, lo <= i < b -> I i s ->
     exists s', body i s = Returns s' /\ I (i + 1) s') ->
  forall (m : nat) a s, lo <= a <= b -> Z.to_nat (b - a) = m -> I a s ->
    exists s', for_each (range a b) s body = Returns s' /\ I b s'.
Proof.
  intros Hbody. induction m as [|m IH]; intros a s Hab Hm Hs.
  - rewrite range_nil by lia. exists s. split; [reflexivity|].
    now replace b with a by lia.
  - rewrite range_cons by lia. cbn [for_each].
    destruct (Hbody a s ltac:(lia) Hs) as (s' & -> & Hs').
    rewrite bind_Returns. apply IH; [lia|lia|assumption].
Qed.

Lemma for_range_ext {S : Type} (I : Z -> S -> Prop)
  (body1 body2 : Z -> S -> outcome S) (lo b : Z) :
  (forall i s, lo <= i < b -> I i s ->
     body1 i s = body2 i s /\
     forall s', body1 i s = Returns s' -> I (i + 1) s') ->
  forall (m : nat) a s, lo <= a <= b -> Z.to_nat (b - a) = m -> I a s ->
    for_each (range a b) s body1 = for_each (range a b) s body2.
Proof.
  intros Hbody. induction m as [|m IH]; intros a s Hab Hm Hs.
  - now rewrite range_nil by lia.
  - rewrite range_cons by lia. cbn [for_each].
    destruct (Hbody a s ltac:(lia) Hs) as [Heq Hnext]. rewrite <- Heq.
    destruct (body1 a s) as [s'| |]; simpl; auto.
    apply IH; [lia|lia|now apply Hnext].
Qed.

Lemma forallb_insert {A : Type} (f : A -> bool) (l : list A) (i : nat) (v : A) :
  forallb f l = true -> f v = true -> forallb f (<[i := v]> l) = true.
Proof.
  revert i. induction l as [|a l IH]; intros i Hl Hv; [reflexivity|].
  cbn [forallb] in Hl. apply andb_prop in Hl as [Ha Hl].
  destruct i as [|i]; cbn [forallb]; simpl.
  - now rewrite Hv, Hl.
  - now rewrite Ha, IH.
Qed.

Lemma at_insert (l : list Z) (i j v : Z) :
  0 <= i < Z.of_nat (length l) -> 0 <= j ->
  at_ (<[Z.to_nat i := v]> l) j = if i =? j then v else at_ l j.
Proof.
  intros Hi Hj. unfold at_. destruct (Z.eqb_spec i j) as [->|Hne].
  - now rewrite list_lookup_insert_eq by lia.
  - now rewrite list_lookup_insert_ne by lia.
Qed.

Lemma land_255_byte (v : Z) : 0 <= Z.land v 0xff < 256.
Proof.
  change 0xff with (Z.ones 8). rewrite Z.land_ones by lia.
  apply Z.mod_pos_bound. lia.
Qed.

Lemma xtime_byte (pp v : Z) : 0 <= xtime pp v < 256.
Proof. apply land_255_byte. Qed.

Lemma generate_pplogexp_tables_rounds (prime_poly : Z) :
  generate_pplogexp_tables prime_poly
  = (s ← for_each (range 1 256) (<[0%nat := 1]> (replicate 256 0),
                                 <[0%nat := 1]> (replicate 256 0))
                  (pp_round prime_poly);
     Returns (mkTables s.1 s.2)).
Proof.
  unfold generate_pplogexp_tables.
  change (setitem (replicate (Z.to_nat 256) 0) 0 (Z.land (1 - 256) 255))
    with (Returns (<[0%nat := 1]> (replicate 256 0))).
  change (setitem (replicate (Z.to_nat 256) 0) 0 1)
    with (Returns (<[0%nat := 1]> (replicate 256 0))).
  rewrite !bind_Returns. cbv beta.
  change (fun (i : Z) '(lt, et) => _) with (pp_round prime_poly).
  destruct (for_each _ _ _) as [[lt et]| |]; reflexivity.
Qed.

(** A round at index [i] stores the double of entry [i - 1] and records
    [i] as its logarithm. *)
Lemma pp_round_spec (pp i : Z) (lt et : list Z) :
  length lt = 256%nat -> length et = 256%nat -> 1 <= i <= 255 ->
  0 <= at_ et (i - 1) < 256 ->
  pp_round pp i (lt, et)
  = Returns (<[Z.to_nat (xtime pp (at_ et (i - 1))) := i]> lt,
             <[Z.to_nat i := xtime pp (at_ et (i - 1))]> et).
Proof.
  intros Hlt Het Hi Hprev. unfold pp_round.
  rewrite (getitem_at et (i - 1)) by lia. mstep.
  set (prev := at_ et (i - 1)) in *.
  rewrite setitem_in_range by lia. mstep.
  assert (Hg : forall (l : list Z) (v : Z), length l = 256%nat ->
            getitem (<[Z.to_nat i := v]> l) i = Returns v).
  { intros l v Hl.
    destruct (getitem_in_range (<[Z.to_nat i := v]> l) i) as (w & Hw & ->);
      [rewrite length_insert; lia|].
    rewrite list_lookup_insert_eq in Hw by lia. congruence. }
  rewrite (Hg et _ Het). mstep.
  assert (Hfin : forall (et2 : list Z) (cur2 : Z),
    length et2 = 256%nat -> getitem et2 i = Returns cur2 ->
    <[Z.to_nat i := Z.land cur2 255]> et2
      = <[Z.to_nat i := xtime pp prev]> et ->
    (cur ← getitem et2 i;
     et ← setitem et2 i (Z.land cur 255);
     cur ← getitem et i;
     lt ← setitem lt cur i;
     Returns (lt, et))
    = Returns (<[Z.to_nat (xtime pp prev) := i]> lt,
               <[Z.to_nat i := xtime pp prev]> et)).
  { intros et2 cur2 H2 Hc Heq. rewrite Hc. mstep.
    rewrite setitem_in_range by lia. mstep. rewrite Heq.
    rewrite (Hg et _ Het). mstep.
    pose proof (xtime_byte pp prev).
    rewrite setitem_in_range by lia. reflexivity. }
  destruct (Z.leb_spec 256 (prev * 2)) as [Hov|Hov].
  - rewrite setitem_in_range by (rewrite length_insert; lia). mstep.
    apply (Hfin _ (Z.lxor (prev * 2) pp)).
    + now rewrite !length_insert.
    + apply Hg. now rewrite length_insert.
    + rewrite !list_insert_insert_eq. f_equal. unfold xtime.
      destruct (Z.leb_spec 128 prev); [|lia]. now rewrite Z.mul_comm.
  - mstep. apply (Hfin _ (prev * 2)).
    + now rewrite length_insert.
    + now apply Hg.
    + rewrite !list_insert_insert_eq. f_equal. unfold xtime.
      destruct (Z.leb_spec 128 prev); [lia|].
      now rewrite Z.lxor_0_r, Z.mul_comm.
Qed.

Lemma land_lxor_distr (a b c : Z) :
  Z.land (Z.lxor a b) c = Z.lxor (Z.land a c) (Z.land b c).
Proof.
  apply Z.bits_inj'. intros n Hn.
  rewrite !Z.land_spec, !Z.lxor_spec, !Z.land_spec.
  destruct (Z.testbit a n), (Z.testbit b n), (Z.testbit c n); reflexivity.
Qed.

Lemma xtime_low_byte (pp v : Z) : xtime (pp mod 256) v = xtime pp v.
Proof.
  unfold xtime. destruct (128 <=? v); [|reflexivity].
  rewrite !(land_lxor_distr (2 * v)). f_equal.
  change 255 with (Z.ones 8). rewrite !Z.land_ones by lia.
  change (2 ^ 8) with 256. apply Z.mod_mod. lia.
Qed.

Lemma orbit_byte (pp : Z) (i : nat) : 0 <= orbit pp i < 256.
Proof. destruct i; [cbn; lia|apply xtime_byte]. Qed.


Lemma pp_round_inv (pp i : Z) (s : list Z * list Z) :
  1 <= i <= 255 -> pp_rounds_inv pp i s ->
  exists s', pp_round pp i s = Returns s' /\ pp_rounds_inv pp (i + 1) s' /\
             s' = (<[Z.to_nat (xtime pp (at_ s.2 (i - 1))) := i]> s.1,
                   <[Z.to_nat i := xtime pp (at_ s.2 (i - 1))]> s.2).
Proof.
  intros Hi (Hlt & Het & Blt & Bet & Horb). destruct s as [lt et]. simpl in *.
  assert (Hprev : at_ et (i - 1) = orbit pp (Z.to_nat (i - 1))).
  { rewrite <- Horb by lia. f_equal. lia. }
  pose proof (orbit_byte pp (Z.to_nat (i - 1))) as Hb.
  eexists. split; [apply pp_round_spec; try assumption; now rewrite Hprev|].
  split; [|reflexivity].
  pose proof (xtime_byte pp (at_ et (i - 1))) as Hx.
  unfold pp_rounds_inv. simpl. rewrite !length_insert.
  split; [assumption|]. split; [assumption|].
  split; [apply forallb_insert; [assumption|apply is_byte_range; lia]|].
  split; [apply forallb_insert; [assumption|now apply is_byte_range]|].
  intros j Hj. rewrite at_insert by lia.
  destruct (Z.eqb_spec i (Z.of_nat j)) as [Hij|Hij].
  - rewrite Hprev. replace j with (S (Z.to_nat (i - 1))) by lia. reflexivity.
  - apply Horb. lia.
Qed.

Lemma pp_rounds_inv_init (pp : Z) :
  pp_rounds_inv pp 1 (<[0%nat := 1]> (replicate 256 0),
                      <[0%nat := 1]> (replicate 256 0)).
Proof.
  repeat split; try reflexivity.
  intros j Hj. now replace j with 0%nat by lia.
Qed.

Lemma pp_rounds_return (pp : Z) :
  exists s, for_each (range 1 256) (<[0%nat := 1]> (replicate 256 0),
                                    <[0%nat := 1]> (replicate 256 0))
                     (pp_round pp) = Returns s /\
            pp_rounds_inv pp 256 s.
Proof.
  apply (for_range_total (pp_rounds_inv pp) (pp_round pp) 1 256) with (m := 255%nat);
    [|lia|reflexivity|apply pp_rounds_inv_init].
  intros i s Hi Hs.
  destruct (pp_round_inv pp i s ltac:(lia) Hs) as (s' & H1 & H2 & _). eauto.
Qed.

(** The generation returns well-formed tables whose [exp] holds the
    orbit of 1 under the doubling. *)
Lemma pp_tables_orbit (prime_poly : Z) :
  exists T, generate_pplogexp_tables prime_poly = Returns T /\
            tables_wf T = true /\
            forall i : nat, (i <= 255)%nat ->
              at_ (exptable T) (Z.of_nat i) = orbit prime_poly i.
Proof.
  rewrite generate_pplogexp_tables_rounds.
  destruct (pp_rounds_return prime_poly)
    as ([lt et] & -> & Hlt & Het & Blt & Bet & Horb).
  simpl in *. eexists. split; [reflexivity|]. split.
  - unfold tables_wf. simpl. now rewrite Hlt, Het, Blt, Bet.
  - intros i Hi. apply Horb. lia.
Qed.

(** X9: for every integer [prime_poly] the generation raises nothing and
    returns two tables of 256 bytes; [exp[0]] is 1 and every later entry
    of [exp] is the one before it doubled, a doubling that overflows being
    reduced by [prime_poly]. *)
Theorem generate_pplogexp_tables_total (prime_poly : Z) :
  exists T, generate_pplogexp_tables prime_poly = Returns T /\
            tables_wf T = true /\
            at_ (exptable T) 0 = 1 /\
            forall i, 1 <= i <= 255 ->
              at_ (exptable T) i = xtime prime_poly (at_ (exptable T) (i - 1)).
Proof.
  destruct (pp_tables_orbit prime_poly) as (T & HT & Hwf & Hexp).
  exists T. split; [exact HT|]. split; [exact Hwf|]. split.
  - apply (Hexp 0%nat). lia.
  - intros i Hi.
    replace i with (Z.of_nat (S (Z.to_nat (i - 1)))) at 1 by lia.
    replace (i - 1) with (Z.of_nat (Z.to_nat (i - 1))) at 2 by lia.
    rewrite !Hexp by lia. reflexivity.
Qed.

Lemma pp_tables_low_byte (prime_poly : Z) :
  generate_pplogexp_tables (prime_poly mod 256)
  = generate_pplogexp_tables prime_poly.
Proof.
  rewrite !generate_pplogexp_tables_rounds. f_equal.
  apply (for_range_ext (pp_rounds_inv prime_poly) _ _ 1 256) with (m := 255%nat);
    [|lia|reflexivity|apply pp_rounds_inv_init].
  intros i [lt et] Hi Hs.
  destruct (pp_round_inv prime_poly i (lt, et) ltac:(lia) Hs) as (s' & H1 & H2 & H3).
  destruct Hs as (Hlt & Het & Blt & Bet & Horb).
  cbn [fst snd] in Hlt, Het, Horb, H3.
  assert (Hb : 0 <= at_ et (i - 1) < 256).
  { replace (i - 1) with (Z.of_nat (Z.to_nat (i - 1))) by lia.
    rewrite Horb by lia. apply orbit_byte. }
  split.
  - rewrite !pp_round_spec by (assumption || lia).
    now rewrite xtime_low_byte.
  - intros s'' Hs''.
    rewrite pp_round_spec, xtime_low_byte in Hs'' by (assumption || lia).
    rewrite H3 in H2. now injection Hs'' as <-.
Qed.

(** X10: only the low eight bits of [prime_poly] matter: two values that
    agree on them generate the same tables. *)
Theorem generate_pplogexp_tables_low_byte (prime_poly prime_poly' : Z) :
  prime_poly mod 256 = prime_poly' mod 256 ->
  generate_pplogexp_tables prime_poly = generate_pplogexp_tables prime_poly'.
Proof.
  intros H.
  rewrite <- (pp_tables_low_byte prime_poly), <- (pp_tables_low_byte prime_poly').
  now rewrite H.
Qed.

Lemma generate_pplogexp_tables_low_byte_witness :
  0x11d mod 256 = 0x1d mod 256 /\
  generate_pplogexp_tables 0x11d = generate_pplogexp_tables 0x1d.
Proof.
  split; [reflexivity|].
  apply (generate_pplogexp_tables_low_byte 0x11d 0x1d). reflexivity.
Defined.

Lemma orbit_list_lookup (pp : Z) (n : nat) :
  forall v k, (k < n)%nat -> orbit_list pp n v !! k = Some (Nat.iter k (xtime pp) v).
Proof.
  induction n as [|n IH]; intros v k Hk; [lia|].
  destruct k as [|k]; [reflexivity|].
  cbn [orbit_list]. rewrite lookup_cons. rewrite IH by lia.
  now rewrite Nat.iter_succ_r.
Qed.

Lemma orbit_list_length (pp : Z) (n : nat) : forall v, length (orbit_list pp n v) = n.
Proof. induction n as [|n IH]; intros v; simpl; [reflexivity|]. now rewrite IH. Qed.

Lemma orbit_list_low_byte (pp : Z) (n : nat) :
  forall v, orbit_list (pp mod 256) n v = orbit_list pp n v.
Proof.
  induction n as [|n IH]; intros v; simpl; [reflexivity|].
  now rewrite IH, xtime_low_byte.
Qed.

(** Tables that pass [tables_ok] and hold the powers of [x] have [x] as a
    generator. *)
Lemma tables_ok_generator (pp : Z) (T : tables) :
  tables_ok T = true ->
  (forall i : nat, (i <= 255)%nat -> at_ (exptable T) (Z.of_nat i) = orbit pp i) ->
  not_generator pp = false.
Proof.
  intros Hok Hexp. unfold not_generator. apply orb_false_intro.
  - apply not_true_is_false. intros H.
    apply existsb_exists in H as (v & Hv & H1). apply Z.eqb_eq in H1. subst v.
    apply list_elem_of_In, list_elem_of_lookup in Hv as [k Hk].
    pose proof (lookup_lt_Some _ _ _ Hk) as Hlt.
    rewrite orbit_list_length in Hlt.
    rewrite orbit_list_lookup in Hk by assumption.
    assert (Hk' : orbit pp (S k) = 1)
      by (unfold orbit; rewrite Nat.iter_succ_r; congruence).
    clear Hk. rename Hk' into Hk. rewrite <- Hexp in Hk by lia.
    pose proof (proj2 (ok_log_exp T Hok (Z.of_nat (S k)) ltac:(lia))) as HS.
    pose proof (proj2 (ok_log_exp T Hok 0 ltac:(lia))) as H0.
    cbv beta in HS, H0. rewrite Hk in HS. rewrite (ok_exp_0 T Hok) in H0. lia.
  - apply negb_false_iff, existsb_exists.
    set (three := GF256elt_init 3).
    assert (H3 : bytevalue three <> 0) by (simpl; discriminate).
    pose proof (ok_exp_log T Hok three H3) as HE.
    set (i := at_ (logtable T) (bytevalue three) mod 255) in *.
    assert (Hi : 0 <= i < 255) by (apply Z.mod_pos_bound; lia).
    exists 3. split; [|reflexivity].
    apply list_elem_of_In, list_elem_of_lookup. exists (Z.to_nat i).
    rewrite orbit_list_lookup by lia. f_equal.
    fold (orbit pp (Z.to_nat i)).
    rewrite <- Hexp by lia. rewrite Z2Nat.id by lia. exact HE.
Qed.

Lemma unlisted_not_generator :
  forallb (fun b => existsb (Z.eqb (256 + b)) possible_PP || not_generator b)
          (range 0 256) = true.
Proof. vm_compute. reflexivity. Qed.

(** X11: the tables generated for [prime_poly] pass [tables_ok] exactly
    when its low eight bits, with bit 8 set, are one of the values the
    source lists as possible. *)
Theorem generate_pplogexp_tables_ok_iff (prime_poly : Z) :
  generated_ok (generate_pplogexp_tables prime_poly) = true
  <-> In (256 + prime_poly mod 256) possible_PP.
Proof.
  split.
  - intros Hgen.
    destruct (pp_tables_orbit prime_poly) as (T & HT & _ & Hexp).
    rewrite HT in Hgen. cbn [generated_ok] in Hgen.
    pose proof (tables_ok_generator prime_poly T Hgen Hexp) as Hng.
    pose proof (Z.mod_pos_bound prime_poly 256 ltac:(lia)) as Hb.
    pose proof (range_forallb _ 0 256 unlisted_not_generator
                  (prime_poly mod 256) Hb) as H.
    cbv beta in H. apply orb_prop in H as [H|H].
    + apply existsb_exists in H as (v & Hv & Heq).
      apply Z.eqb_eq in Heq. now subst v.
    + unfold not_generator in H, Hng.
      rewrite !orbit_list_low_byte, xtime_low_byte in H. congruence.
  - intros Hin.
    rewrite <- pp_tables_low_byte.
    replace (prime_poly mod 256) with ((256 + prime_poly mod 256) mod 256).
    + rewrite pp_tables_low_byte.
      now apply (proj2 generated_tables_ok).
    + rewrite <- Z.add_mod_idemp_l by lia. change (256 mod 256) with 0.
      cbn [Z.add]. apply Z.mod_mod. lia.
Qed.

(** ** Table multiplication is polynomial multiplication *)

Lemma xtime_small (pp c : Z) : 0 <= c < 128 -> xtime pp c = 2 * c.
Proof.
  intros Hc. unfold xtime. destruct (Z.leb_spec 128 c); [lia|].
  rewrite Z.lxor_0_r. change 255 with (Z.ones 8).
  rewrite Z.land_ones by lia. apply Z.mod_small. change (2 ^ 8) with 256. lia.
Qed.

Lemma half_decompose (a : Z) :
  0 <= a < 256 -> Z.lxor (2 * (a / 2)) (if Z.odd a then 1 else 0) = a.
Proof.
  intros Ha. apply Z.eqb_eq.
  apply (range_forallb
    (fun a => Z.lxor (2 * (a / 2)) (if Z.odd a then 1 else 0) =? a) 0 256);
    [vm_compute; reflexivity|assumption].
Qed.

Section Polymul.
Variable T : tables.
Variable pp : Z.
Hypothesis Hfield : field_ok T = true.
Hypothesis Hdouble : doubling_ok pp T = true.

Lemma double_value (z : GF256elt) :
  bytevalue (gf_mul T (GF256elt_init 2) z) = xtime pp (bytevalue z).
Proof.
  apply Z.eqb_eq. rewrite <- (init_bytevalue z) at 1.
  apply (range_forallb _ 0 256 Hdouble), bytevalue_range.
Qed.

Lemma gf_mul_add_distr_r (x y z : GF256elt) :
  gf_mul T (GF256elt_add x y) z = GF256elt_add (gf_mul T x z) (gf_mul T y z).
Proof.
  pose proof (field_tables_ok T Hfield) as Hok.
  unfold field_ok in Hfield. apply andb_prop in Hfield as [_ Hlin].
  rewrite (gf_mul_comm T Hok _ z), gf_mul_add_distr_l by assumption.
  now rewrite !(gf_mul_comm T Hok z).
Qed.

Lemma gf_mul_polymul_n (y : GF256elt) (n : nat) :
  forall a, (n <= 8)%nat -> 0 <= a < 2 ^ Z.of_nat n ->
    bytevalue (gf_mul T (GF256elt_init a) y) = polymul_n pp n a (bytevalue y).
Proof.
  pose proof (field_tables_ok T Hfield) as Hok.
  induction n as [|n IH]; intros a Hn Ha.
  - change (2 ^ Z.of_nat 0) with 1 in Ha. replace a with 0 by lia.
    now rewrite gf_mul_zero by (left; reflexivity).
  - assert (H256 : 2 ^ Z.of_nat (S n) <= 256).
    { change 256 with (2 ^ 8). apply Z.pow_le_mono_r; lia. }
    rewrite Nat2Z.inj_succ, Z.pow_succ_r in Ha by lia.
    assert (Hc : 0 <= a / 2 < 2 ^ Z.of_nat n).
    { split; [apply Z.div_pos; lia|apply Z.div_lt_upper_bound; lia]. }
    rewrite Nat2Z.inj_succ, Z.pow_succ_r in H256 by lia.
    set (bit := GF256elt_init (if Z.odd a then 1 else 0)).
    assert (Hsplit : GF256elt_init a
      = GF256elt_add (gf_mul T (GF256elt_init 2) (GF256elt_init (a / 2))) bit).
    { apply GF256elt_ext. unfold bit. rewrite bytevalue_add, double_value.
      rewrite !bytevalue_init by (try destruct (Z.odd a); lia).
      rewrite xtime_small by lia. symmetry. apply half_decompose. lia. }
    rewrite Hsplit, gf_mul_add_distr_r, bytevalue_add.
    rewrite <- gf_mul_assoc by assumption.
    rewrite double_value, IH by (assumption || lia).
    cbn [polymul_n]. f_equal. unfold bit. destruct (Z.odd a).
    + now rewrite (gf_mul_one_l T Hok).
    + now rewrite gf_mul_zero by (left; reflexivity).
Qed.

Lemma gf_mul_polymul (x y : GF256elt) :
  bytevalue (gf_mul T x y) = polymul pp (bytevalue x) (bytevalue y).
Proof.
  rewrite <- (init_bytevalue x) at 1. apply gf_mul_polymul_n; [lia|].
  apply bytevalue_range.
Qed.
End Polymul.

Lemma generated_pp_checks :
  forallb (fun pp => let T := tables_of (generate_pplogexp_tables pp) in
                     generated_ok (generate_pplogexp_tables pp)
                     && field_ok T && doubling_ok pp T) possible_PP = true.
Proof. vm_compute. reflexivity. Qed.

Lemma generated_rijndael_checks :
  generated_ok generate_logexp_tables
  && field_ok rijndael_tables && doubling_ok 0x11b rijndael_tables = true.
Proof. vm_compute. reflexivity. Qed.

Lemma generated_pp_field (pp : Z) (T : tables) :
  In pp possible_PP -> generate_pplogexp_tables pp = Returns T ->
  tables_ok T = true /\ field_ok T = true /\ doubling_ok pp T = true.
Proof.
  intros Hin HT. pose proof generated_pp_checks as H.
  rewrite forallb_forall in H. specialize (H pp Hin). cbv zeta in H.
  rewrite HT in H. cbn [tables_of generated_ok] in H.
  apply andb_prop in H as [H H3]. apply andb_prop in H as [H1 H2]. auto.
Qed.

Lemma generated_rijndael_field (T : tables) :
  generate_logexp_tables = Returns T ->
  tables_ok T = true /\ field_ok T = true /\ doubling_ok 0x11b T = true.
Proof.
  intros HT. rewrite rijndael_tables_generated in HT. injection HT as <-.
  pose proof generated_rijndael_checks as H.
  rewrite rijndael_tables_generated in H. cbn [generated_ok] in H.
  apply andb_prop in H as [H H3]. apply andb_prop in H as [H1 H2]. auto.
Qed.

Lemma generated_field (T : tables) :
  generated T -> tables_ok T = true /\ field_ok T = true.
Proof.
  intros [HT|(pp & Hin & HT)].
  - destruct (generated_rijndael_field T HT) as (H1 & H2 & _). auto.
  - destruct (generated_pp_field pp T Hin HT) as (H1 & H2 & _). auto.
Qed.

(** X12: with the tables of the parameterized strategy, for a prime
    polynomial the source lists, the product of two elements is the
    product of their polynomials over GF(2) modulo the prime polynomial. *)
Theorem pp_tables_mul_polymul (pp : Z) (T : tables) (x y : GF256elt) :
  In pp possible_PP -> generate_pplogexp_tables pp = Returns T ->
  exists r, GF256elt_mul T x y = Returns r /\
            GF256elt_int r = polymul pp (GF256elt_int x) (GF256elt_int y).
Proof.
  intros Hin HT. destruct (generated_pp_field pp T Hin HT) as (Hok & Hf & Hd).
  exists (gf_mul T x y). split; [apply mul_returns, ok_wf, Hok|].
  now apply gf_mul_polymul.
Qed.

Lemma pp_tables_mul_polymul_witness :
  In 0x11d possible_PP /\
  generate_pplogexp_tables 0x11d = Returns module_tables /\
  exists r, GF256elt_mul module_tables (GF256elt_init 0x57) (GF256elt_init 0x83)
            = Returns r /\
            GF256elt_int r = polymul 0x11d 0x57 0x83.
Proof.
  split; [simpl; tauto|]. split; [vm_compute; reflexivity|].
  apply (pp_tables_mul_polymul 0x11d module_tables
           (GF256elt_init 0x57) (GF256elt_init 0x83));
    [simpl; tauto|vm_compute; reflexivity].
Defined.

(** X13: the tables of the fixed strategy are those of the generator 3
    modulo [0x11b]: [exp] holds the successive products by 3, [exp[255]] is
    [exp[0]], [log[0]] is 0, and the product of two elements is the
    product of their polynomials over GF(2) modulo [0x11b]. *)
Theorem rijndael_tables_generator (T : tables) :
  generate_logexp_tables = Returns T ->
  at_ (exptable T) 0 = 1 /\
  (forall i, 0 <= i < 254 ->
     at_ (exptable T) (i + 1) = polymul 0x11b 3 (at_ (exptable T) i)) /\
  at_ (exptable T) 255 = at_ (exptable T) 0 /\
  at_ (logtable T) 0 = 0 /\
  forall x y, exists r, GF256elt_mul T x y = Returns r /\
    GF256elt_int r = polymul 0x11b (GF256elt_int x) (GF256elt_int y).
Proof.
  intros HT. destruct (generated_rijndael_field T HT) as (Hok & Hf & Hd).
  rewrite rijndael_tables_generated in HT. injection HT as <-.
  split; [reflexivity|]. split.
  - intros i Hi. apply Z.eqb_eq.
    apply (range_forallb
      (fun i => at_ (exptable rijndael_tables) (i + 1)
                =? polymul 0x11b 3 (at_ (exptable rijndael_tables) i)) 0 254);
      [vm_compute; reflexivity|assumption].
  - split; [reflexivity|]. split; [reflexivity|].
    intros x y. exists (gf_mul rijndael_tables x y).
    split; [apply mul_returns, ok_wf, Hok|]. now apply gf_mul_polymul.
Qed.

Lemma rijndael_tables_generator_witness :
  generate_logexp_tables = Returns rijndael_tables /\
  at_ (exptable rijndael_tables) 1 = polymul 0x11b 3 1.
Proof.
  split; [vm_compute; reflexivity|].
  apply (proj1 (proj2 (rijndael_tables_generator rijndael_tables
                         ltac:(vm_compute; reflexivity))) 0). lia.
Defined.

(** * Further properties of the sharing *)

(** ** The polynomial of one byte *)

Lemma pick_fold (rand : nat -> Z) (l : list Z) :
  forall coeffs pos,
    fold_left (fun '(coeffs, pos) (c : Z) =>
                 (coeffs ++ [GF256elt_init (randint 0 255 (rand pos))], S pos))
              l (coeffs, pos)
    = (coeffs ++ map (fun j => GF256elt_init (randint 0 255 (rand (pos + j)%nat)))
                     (seq 0 (length l)),
       (pos + length l)%nat).
Proof.
  induction l as [|c l IH]; intros coeffs pos; cbn [fold_left length seq map].
  - now rewrite app_nil_r, Nat.add_0_r.
  - rewrite IH, <- app_assoc. cbn [app]. rewrite Nat.add_0_r.
    rewrite <- seq_shift, map_map. f_equal; [|lia].
    do 2 f_equal. apply map_ext. intros j. do 3 f_equal. lia.
Qed.

Lemma PGF256_eval_constant_term (T : tables) (c : GF256elt) (cs : PGF256) :
  PGF256_eval T (c :: cs) gf_zero = c.
Proof.
  unfold PGF256_eval, peval. cbn [rev]. rewrite fold_left_app. cbn [fold_left].
  rewrite gf_mul_zero by (right; reflexivity). apply add_zero_l.
Qed.

(** X14: [pickRandomPolynomial] returns [value] followed by [degree]
    coefficients, one per draw and in the order of the draws, none when
    [degree <= 0]; the polynomial takes the value [value] at zero. *)
Theorem pickRandomPolynomial_coeffs (T : tables) (rand : nat -> Z) (pos : nat)
  (degree : Z) (value : GF256elt) :
  tables_wf T = true ->
  exists P,
    pickRandomPolynomial rand pos degree value = (P, (pos + Z.to_nat degree)%nat) /\
    P = value :: map (fun j => GF256elt_init (randint 0 255 (rand (pos + j)%nat)))
                     (seq 0 (Z.to_nat degree)) /\
    PGF256_f T P (GF256elt_init 0) = Returns value.
Proof.
  intros Hwf. unfold pickRandomPolynomial. rewrite pick_fold, range_length.
  replace (Z.to_nat (degree + 1 - 1)) with (Z.to_nat degree) by lia.
  eexists. split; [reflexivity|]. split; [reflexivity|].
  cbn [app]. rewrite PGF256_f_returns by (assumption || discriminate).
  f_equal. apply PGF256_eval_constant_term.
Qed.

Lemma pickRandomPolynomial_coeffs_witness :
  tables_wf module_tables = true /\
  exists P,
    pickRandomPolynomial Z.of_nat 7 2 (GF256elt_init 65) = (P, (7 + Z.to_nat 2)%nat) /\
    P = GF256elt_init 65
        :: map (fun j => GF256elt_init (randint 0 255 (Z.of_nat (7 + j))))
               (seq 0 (Z.to_nat 2)) /\
    PGF256_f module_tables P (GF256elt_init 0) = Returns (GF256elt_init 65).
Proof.
  split; [vm_compute; reflexivity|].
  apply (pickRandomPolynomial_coeffs module_tables Z.of_nat 7 2 (GF256elt_init 65)).
  vm_compute; reflexivity.
Defined.

(** ** The points of the shares *)

Lemma share_points (T : tables) (Ps : list PGF256) (x : Z) :
  tables_wf T = true -> Forall (fun P => P <> []) Ps -> 0 <= x < 256 ->
  exists ys,
    share T Ps x = pairs_with x ys /\
    Forall2 (fun P y => PGF256_f T P (GF256elt_init x) = Returns (GF256elt_init y)
                        /\ 0 <= y < 256) Ps ys.
Proof.
  intros Hwf HPs Hx.
  exists (map (fun P => GF256elt_int (PGF256_eval T P (GF256elt_init x))) Ps).
  split.
  - unfold share, GF256elt_int at 1. now rewrite bytevalue_init.
  - induction HPs as [|P Ps HP _ IH]; constructor; [|exact IH].
    split; [|apply bytevalue_range].
    rewrite PGF256_f_returns by assumption.
    unfold GF256elt_int. now rewrite init_bytevalue.
Qed.

Lemma polys_nonempty (rand : nat -> Z) (stream : list Z) (k : Z) (pos : nat) :
  Forall (fun P => P <> []) (polys rand pos stream k).
Proof.
  pose proof (polys_shape rand stream k pos) as H.
  induction H as [|byte P stream Ps (cs & -> & _) _ IH]; constructor;
    [discriminate|assumption].
Qed.

(** X15: the shares [encode] writes are points of polynomials, one
    polynomial per byte of the secret and the same for every sink: its
    constant term is the byte, it has [k - 1] further coefficients, and
    the pair number [j] of the sink with identifier [x] is [x] followed by
    the value at [x] of polynomial number [j]. *)
Theorem encode_shares_are_points (fuel : nat) (T : tables) (rand : nat -> Z)
  (stream : list Z) (outputs outs : list (list Z)) (k : Z) :
  tables_wf T = true ->
  encode fuel T rand stream outputs k = Returns outs ->
  exists (xs : list Z) (Ps : list PGF256),
    length xs = length outputs /\
    Forall2 (fun byte P => exists cs, P = GF256elt_init byte :: cs /\
                                      length cs = Z.to_nat (k - 1)) stream Ps /\
    forall i x o, xs !! i = Some x -> outputs !! i = Some o ->
      exists ys,
        outs !! i = Some (o ++ pairs_with x ys) /\
        Forall2 (fun P y => PGF256_f T P (GF256elt_init x)
                            = Returns (GF256elt_init y) /\ 0 <= y < 256) Ps ys.
Proof.
  intros Hwf Henc.
  destruct (encode_cases fuel T rand stream outputs k Hwf)
    as [H|(picked & picks & pos & _ & Hl & Hnd & Hrange & H)];
    rewrite H in Henc; [discriminate|].
  injection Henc as <-. exists picks, (polys rand pos stream k).
  split; [assumption|]. split; [apply polys_shape|].
  intros i x o Hx Ho.
  assert (Hxr : 0 <= x < 256).
  { specialize (Hrange x ltac:(eapply list_elem_of_lookup_2; eauto)). lia. }
  destruct (share_points T (polys rand pos stream k) x Hwf
              (polys_nonempty rand stream k pos) Hxr) as (ys & Hys & Hpts).
  exists ys. split; [|assumption].
  rewrite lookup_zip_with, list_lookup_fmap, Ho, Hx. simpl. now rewrite Hys.
Qed.

Lemma encode_shares_are_points_witness :
  tables_wf module_tables = true /\
  encode 2 module_tables Z.of_nat [65; 66] [[]; []; []] 2
  = Returns [[1; 66; 1; 70]; [2; 71; 2; 74]; [3; 68; 3; 78]] /\
  exists (xs : list Z) (Ps : list PGF256),
    length xs = length [[]; []; [] : list Z] /\
    Forall2 (fun byte P => exists cs, P = GF256elt_init byte :: cs /\
                                      length cs = Z.to_nat (2 - 1)) [65; 66] Ps /\
    forall i x o, xs !! i = Some x -> [[]; []; [] : list Z] !! i = Some o ->
      exists ys,
        [[1; 66; 1; 70]; [2; 71; 2; 74]; [3; 68; 3; 78]] !! i
        = Some (o ++ pairs_with x ys) /\
        Forall2 (fun P y => PGF256_f module_tables P (GF256elt_init x)
                            = Returns (GF256elt_init y) /\ 0 <= y < 256) Ps ys.
Proof.
  split; [vm_compute; reflexivity|]. split; [vm_compute; reflexivity|].
  apply (encode_shares_are_points 2 module_tables Z.of_nat [65; 66]
           [[]; []; []] _ 2); vm_compute; reflexivity.
Defined.

(** ** Threshold one *)

Lemma polys_constant (rand : nat -> Z) (stream : list Z) (k : Z) :
  k <= 1 ->
  forall pos, polys rand pos stream k = map (fun byte => [GF256elt_init byte]) stream.
Proof.
  intros Hk. induction stream as [|byte stream IH]; intros pos; [reflexivity|].
  cbn [polys map].
  destruct (pickRandomPolynomial_spec rand pos (k - 1) (GF256elt_init byte))
    as (cs & -> & Hcs).
  replace (Z.to_nat (k - 1)) with 0%nat in Hcs by lia.
  destruct cs; [|discriminate]. now rewrite IH.
Qed.

Lemma share_constant (T : tables) (stream : list Z) (x : Z) :
  forallb is_byte stream = true -> 0 <= x < 256 ->
  share T (map (fun byte => [GF256elt_init byte]) stream) x = pairs_with x stream.
Proof.
  intros Hb Hx. unfold share, GF256elt_int at 1. rewrite bytevalue_init by assumption.
  f_equal. rewrite map_map.
  induction stream as [|byte stream IH]; [reflexivity|].
  cbn [forallb] in Hb. apply andb_prop in Hb as [Hb Hbs].
  cbn [map]. rewrite IH by assumption. f_equal.
  unfold PGF256_eval, peval. cbn [rev app fold_left].
  rewrite gf_mul_zero by (left; reflexivity). rewrite add_zero_l.
  apply bytevalue_init. now apply is_byte_range.
Qed.

(** X16: with [k <= 1] nothing is hidden: every sink receives, after
    its identifier, the bytes of the secret themselves. *)
Theorem encode_threshold_one_copies_secret (fuel : nat) (T : tables)
  (rand : nat -> Z) (stream : list Z) (outputs outs : list (list Z)) (k : Z) :
  tables_wf T = true -> forallb is_byte stream = true -> k <= 1 ->
  encode fuel T rand stream outputs k = Returns outs ->
  exists xs,
    length xs = length outputs /\
    forall i x o, xs !! i = Some x -> outputs !! i = Some o ->
      outs !! i = Some (o ++ pairs_with x stream).
Proof.
  intros Hwf Hb Hk Henc.
  destruct (encode_cases fuel T rand stream outputs k Hwf)
    as [H|(picked & picks & pos & _ & Hl & Hnd & Hrange & H)];
    rewrite H in Henc; [discriminate|].
  injection Henc as <-. exists picks. split; [assumption|].
  intros i x o Hx Ho.
  rewrite lookup_zip_with, list_lookup_fmap, Ho, Hx. simpl.
  rewrite polys_constant by assumption. rewrite share_constant; [reflexivity|assumption|].
  specialize (Hrange x ltac:(eapply list_elem_of_lookup_2; eauto)). lia.
Qed.

Lemma encode_threshold_one_copies_secret_witness :
  tables_wf module_tables = true /\ forallb is_byte [65; 66] = true /\ 1 <= 1 /\
  encode 2 module_tables Z.of_nat [65; 66] [[]; [9]] 1
  = Returns [[1; 65; 1; 66]; [9; 2; 65; 2; 66]] /\
  exists xs,
    length xs = length [[]; [9]] /\
    forall i x o, xs !! i = Some x -> [[]; [9]] !! i = Some o ->
      [[1; 65; 1; 66]; [9; 2; 65; 2; 66]] !! i = Some (o ++ pairs_with x [65; 66]).
Proof.
  split; [vm_compute; reflexivity|]. split; [reflexivity|]. split; [lia|].
  split; [vm_compute; reflexivity|].
  apply (encode_threshold_one_copies_secret 2 module_tables Z.of_nat [65; 66]
           [[]; [9]] _ 1); [vm_compute; reflexivity|reflexivity|lia|].
  vm_compute; reflexivity.
Defined.

(** * Further properties of the reconstruction *)

(** ** One pass over the keys *)

Lemma read_points_full (keys : list (list Z)) :
  Forall (fun key => (2 <= length key)%nat) keys ->
  forall i, read_points keys i
            = Returns (Points (first_points keys) (rest_of_keys keys)).
Proof.
  induction 1 as [|key keys Hkey _ IH]; intros i; [reflexivity|].
  destruct key as [|X [|Y key]]; simpl in Hkey; try lia.
  cbn [read_points]. rewrite IH. reflexivity.
Qed.

Lemma read_points_missing_Y (before after : list (list Z)) (X : Z) :
  Forall (fun key => (2 <= length key)%nat) before ->
  forall i, read_points (before ++ [X] :: after) i = Raises TypeError.
Proof.
  induction 1 as [|key before Hkey _ IH]; intros i; [reflexivity|].
  destruct key as [|X' [|Y key]]; simpl in Hkey; try lia.
  cbn [app read_points]. now rewrite IH.
Qed.

(** Every list of keys either holds a pair in each key, or has a first
    key that does not: an empty one, or one of a single byte. *)
Lemma keys_cases (keys : list (list Z)) :
  Forall (fun key => (2 <= length key)%nat) keys \/
  exists before after,
    Forall (fun key => (2 <= length key)%nat) before /\
    (keys = before ++ [] :: after \/ exists X, keys = before ++ [X] :: after).
Proof.
  induction keys as [|key keys IH]; [left; constructor|].
  destruct key as [|X [|Y key]].
  - right. exists [], keys. split; [constructor|now left].
  - right. exists [], keys. split; [constructor|right; now exists X].
  - destruct IH as [IH|(before & after & Hb & IH)].
    + left. constructor; [simpl; lia|assumption].
    + right. exists ((X :: Y :: key) :: before), after.
      split; [constructor; [simpl; lia|assumption]|].
      destruct IH as [->|(X' & ->)]; [now left|right; now exists X'].
Qed.

(** X17: the pass over the keys stops at the first key that does not
    hold a pair.  If that key is empty, [decode] returns its output when
    the key is the first one and raises 'Unexpected EOF' with the key's
    index otherwise; if it holds a single byte, [decode] fails in [ord].
    The keys after it are not looked at. *)
Theorem decode_short_key (fuel : nat) (T : tables) (before after : list (list Z))
  (output : list Z) (X : Z) :
  Forall (fun key => (2 <= length key)%nat) before ->
  (before = [] -> decode (S fuel) T (before ++ [] :: after) output = Returns output) /\
  (before <> [] -> decode (S fuel) T (before ++ [] :: after) output
                   = Raises (UnexpectedEOF (length before))) /\
  decode (S fuel) T (before ++ [X] :: after) output = Raises TypeError.
Proof.
  intros Hb. split; [|split].
  - intros ->. reflexivity.
  - intros Hne. rewrite decode_end_of_key by assumption.
    destruct before; [congruence|reflexivity].
  - cbn [decode]. now rewrite read_points_missing_Y.
Qed.

Lemma decode_short_key_witness :
  Forall (fun key => (2 <= length key)%nat) [[1; 65; 1; 66]; [2; 7]] /\
  decode 1 module_tables ([[1; 65; 1; 66]; [2; 7]] ++ [] :: [[3; 9]]) [5]
  = Raises (UnexpectedEOF 2) /\
  decode 1 module_tables ([[1; 65; 1; 66]; [2; 7]] ++ [4] :: [[3; 9]]) [5]
  = Raises TypeError.
Proof.
  assert (H : Forall (fun key => (2 <= length key)%nat) [[1; 65; 1; 66]; [2; 7]])
    by (repeat constructor; simpl; lia).
  split; [exact H|].
  destruct (decode_short_key 0 module_tables [[1; 65; 1; 66]; [2; 7]] [[3; 9]]
              [5] 4 H) as (_ & H1 & H2).
  split; [apply H1; discriminate|exact H2].
Defined.

(** ** What [decode] writes *)

Lemma decode_output_shift (T : tables) (fuel : nat) :
  forall keys output,
    decode fuel T keys output
    = (bytes ← decode fuel T keys []; Returns (output ++ bytes)).
Proof.
  induction fuel as [|fuel IH]; intros keys output; [reflexivity|].
  cbn [decode].
  destruct (read_points keys 0) as [[pts keys'|i]| |]; try reflexivity.
  - rewrite !bind_Returns. cbv beta iota.
    destruct (interpolate T pts) as [P| |]; try reflexivity.
    rewrite !bind_Returns. cbv beta.
    destruct (PGF256_f T P (GF256elt_init 0)) as [byte| |]; try reflexivity.
    rewrite !bind_Returns. cbv beta.
    rewrite (IH keys' (output ++ _)), (IH keys' ([] ++ _)).
    destruct (decode fuel T keys' []) as [bytes| |]; try reflexivity.
    rewrite !bind_Returns. cbv beta. now rewrite <- app_assoc.
  - rewrite !bind_Returns. cbv beta iota.
    destruct (negb (i =? 0)%nat); [reflexivity|].
    rewrite bind_Returns. now rewrite app_nil_r.
Qed.

Lemma read_points_inv (keys : list (list Z)) :
  forall i r, read_points keys i = Returns r ->
    match r with
    | Points pts keys' =>
        Forall (fun key => (2 <= length key)%nat) keys /\
        pts = first_points keys /\ keys' = rest_of_keys keys
    | EndOfKey j =>
        (i <= j < i + length keys)%nat /\ (j = i -> exists after, keys = [] :: after)
    end.
Proof.
  induction keys as [|key keys IH]; intros i r Hr.
  - injection Hr as <-. split; [constructor|]. split; reflexivity.
  - destruct key as [|X [|Y key]]; cbn [read_points] in Hr.
    + injection Hr as <-. split; [simpl; lia|]. intros _. now exists keys.
    + discriminate.
    + destruct (read_points keys (S i)) as [r'| |] eqn:Hr'; try discriminate.
      specialize (IH (S i) r' Hr').
      rewrite bind_Returns in Hr.
      destruct r' as [pts keys'|j]; injection Hr as <-.
      * destruct IH as (Hall & -> & ->).
        split; [constructor; [simpl; lia|assumption]|]. split; reflexivity.
      * destruct IH as (Hj & _). split; [simpl; lia|]. intros ->. lia.
Qed.

Lemma rest_of_keys_lengths (keys : list (list Z)) (m : nat) :
  Forall (fun key => (2 <= length key)%nat) keys ->
  Forall (fun key => (2 * m <= length key)%nat) (rest_of_keys keys) ->
  Forall (fun key => (2 * S m <= length key)%nat) keys.
Proof.
  induction 1 as [|key keys H2 _ IH]; intros Hlen; [constructor|].
  cbn [rest_of_keys map] in Hlen.
  inversion Hlen as [|? ? Hd Hlen']; subst.
  constructor; [rewrite length_drop in Hd; lia|now apply IH].
Qed.

Lemma Forall_length_le (n m : nat) (keys : list (list Z)) :
  (n <= m)%nat ->
  Forall (fun key => (m <= length key)%nat) keys ->
  Forall (fun key => (n <= length key)%nat) keys.
Proof.
  intros Hnm. induction 1 as [|key keys H _ IH]; constructor; [lia|assumption].
Qed.

Lemma decode_rounds (T : tables) (fuel : nat) :
  forall keys bytes,
    decode fuel T keys [] = Returns bytes ->
    Forall (fun b => 0 <= b < 256) bytes /\
    Forall (fun key => (2 * length bytes <= length key)%nat) keys /\
    exists key after, keys = key :: after /\ length key = (2 * length bytes)%nat.
Proof.
  induction fuel as [|fuel IH]; intros keys bytes H; [discriminate|].
  cbn [decode] in H.
  destruct (read_points keys 0) as [[pts keys'|i]| |] eqn:Hr; try discriminate.
  - apply read_points_inv in Hr as (Hall & -> & ->).
    rewrite bind_Returns in H. cbv beta iota in H.
    destruct (interpolate T (first_points keys)) as [P| |]; try discriminate.
    rewrite bind_Returns in H. cbv beta in H.
    destruct (PGF256_f T P (GF256elt_init 0)) as [byte| |] eqn:Hf; try discriminate.
    rewrite bind_Returns in H. cbv beta in H.
    rewrite decode_output_shift in H.
    destruct (decode fuel T (rest_of_keys keys) []) as [bytes'| |] eqn:Hd;
      try discriminate.
    injection H as <-.
    destruct (IH _ _ Hd) as (Hb & Hlen & key' & after' & Hk & Hk').
    cbn [app length]. split; [|split].
    + constructor; [apply bytevalue_range|assumption].
    + now apply rest_of_keys_lengths.
    + destruct keys as [|key keys]; [discriminate|].
      exists key, keys. split; [reflexivity|].
      apply Forall_inv in Hall. injection Hk as <- _.
      rewrite length_drop in Hk'. lia.
  - apply read_points_inv in Hr as (Hi & Hfirst).
    rewrite bind_Returns in H. cbv beta iota in H.
    destruct i; [|discriminate]. injection H as <-.
    destruct (Hfirst eq_refl) as (after & ->).
    split; [constructor|]. split.
    + apply Forall_forall. intros; simpl; lia.
    + now exists [], after.
Qed.

(** X18: [decode] only appends to its output: what it returns is the
    given output followed by what it returns for the empty output, one
    byte per pair of the first key.  The first key is then a whole number
    of pairs, and the other keys hold at least as many pairs; anything
    left in them is not looked at. *)
Theorem decode_appends_output (fuel : nat) (T : tables) (keys : list (list Z))
  (output out : list Z) :
  decode fuel T keys output = Returns out ->
  exists bytes key after,
    out = output ++ bytes /\
    decode fuel T keys [] = Returns bytes /\
    Forall (fun b => 0 <= b < 256) bytes /\
    keys = key :: after /\
    length key = (2 * length bytes)%nat /\
    Forall (fun key' => (length key <= length key')%nat) after.
Proof.
  intros H. rewrite decode_output_shift in H.
  destruct (decode fuel T keys []) as [bytes| |] eqn:Hd; try discriminate.
  injection H as <-.
  destruct (decode_rounds T fuel keys bytes Hd) as (Hb & Hlen & key & after & -> & Hk).
  exists bytes, key, after. repeat (split; [reflexivity || assumption|]).
  apply Forall_inv_tail in Hlen.
  apply (Forall_length_le _ (2 * length bytes)); [lia|assumption].
Qed.

Lemma decode_appends_output_witness :
  decode 5 module_tables [[1; 65]; [2; 7; 2; 9]] [3; 4] = Returns [3; 4; 136] /\
  exists bytes key after,
    [3; 4; 136] = [3; 4] ++ bytes /\
    decode 5 module_tables [[1; 65]; [2; 7; 2; 9]] [] = Returns bytes /\
    Forall (fun b => 0 <= b < 256) bytes /\
    [[1; 65]; [2; 7; 2; 9]] = key :: after /\
    length key = (2 * length bytes)%nat /\
    Forall (fun key' => (length key <= length key')%nat) after.
Proof.
  split; [vm_compute; reflexivity|].
  apply (decode_appends_output 5 module_tables [[1; 65]; [2; 7; 2; 9]] [3; 4]).
  vm_compute; reflexivity.
Defined.

(** ** How the interpolation can fail *)

Lemma PGF256_divc_zero (T : tables) (c : GF256elt) (P : PGF256) (d : GF256elt) :
  bytevalue d = 0 -> PGF256_divc T (c :: P) d = Raises DivisionByZero.
Proof.
  intros Hd.
  assert (H : GF256elt_truediv T c d = Raises DivisionByZero)
    by (unfold GF256elt_truediv; now rewrite Hd).
  unfold PGF256_divc. cbn [mapM]. now rewrite H.
Qed.

Lemma interpolate_basis_ends (T : tables) (xi : GF256elt) (i : nat)
  (points : list (GF256elt * GF256elt)) :
  tables_wf T = true ->
  forall j, returns_or_raises (eq DivisionByZero) (interpolate_basis T xi i j points).
Proof.
  intros Hwf. induction points as [|[xj yj] rest IH]; intros j;
    cbn [interpolate_basis]; [exact I|].
  specialize (IH (S j)).
  destruct (interpolate_basis T xi i (S j) rest) as [tail| |]; [|exact IH|exact IH].
  rewrite bind_Returns. destruct (i =? j)%nat; [exact I|].
  destruct (Z.eq_dec (bytevalue (GF256elt_sub xi xj)) 0) as [H0|H0].
  - cbn [PGF256_sub psub]. now rewrite PGF256_divc_zero.
  - rewrite PGF256_divc_returns by assumption. rewrite bind_Returns.
    now rewrite PGF256_mul_returns.
Qed.

Lemma interpolate_basis_raises (T : tables) (xi : GF256elt) (i : nat)
  (points : list (GF256elt * GF256elt)) :
  tables_wf T = true ->
  forall j j' yj,
    points !! j' = Some (xi, yj) -> (j + j')%nat <> i ->
    interpolate_basis T xi i j points = Raises DivisionByZero.
Proof.
  intros Hwf. induction points as [|[xj yj'] rest IH]; intros j j' yj Hj' Hne;
    [discriminate|].
  cbn [interpolate_basis].
  destruct j' as [|j'].
  - injection Hj' as -> ->.
    pose proof (interpolate_basis_ends T xi i rest Hwf (S j)) as He.
    destruct (interpolate_basis T xi i (S j) rest) as [tail|e|];
      [|now rewrite <- He|destruct He].
    rewrite bind_Returns.
    destruct (Nat.eqb_spec i j) as [->|_]; [lia|].
    cbn [PGF256_sub psub]. rewrite PGF256_divc_zero; [reflexivity|].
    unfold GF256elt_sub. rewrite add_self. reflexivity.
  - rewrite (IH (S j) j' yj) by (assumption || lia). reflexivity.
Qed.

Lemma padd_cons_nonempty (P Q : PGF256) (c : GF256elt) : PGF256_add P (c :: Q) <> [].
Proof. destruct P; discriminate. Qed.

Lemma interpolate_from_ends (T : tables) (all : list (GF256elt * GF256elt)) :
  tables_wf T = true ->
  forall rest i,
    match interpolate_from T all i rest with
    | Returns L => rest <> [] -> L <> []
    | Raises e => e = DivisionByZero
    | OutOfFuel => False
    end.
Proof.
  intros Hwf. induction rest as [|[xi yi] rest IH]; intros i;
    cbn [interpolate_from]; [congruence|].
  pose proof (interpolate_basis_ends T xi i all Hwf 0%nat) as Hb.
  destruct (interpolate_basis T xi i 0 all) as [b|e|]; [|now rewrite <- Hb|destruct Hb].
  rewrite bind_Returns, PGF256_mul_returns by assumption. rewrite bind_Returns.
  specialize (IH (S i)).
  destruct (interpolate_from T all (S i) rest) as [others|e|]; [|exact IH|exact IH].
  rewrite bind_Returns. intros _. cbn [pmul].
  intros H. apply (f_equal length) in H. unfold PGF256_add in H.
  rewrite !length_padd in H. cbn [length] in H. lia.
Qed.

Lemma interpolate_from_distinct (T : tables) (all : list (GF256elt * GF256elt)) :
  tables_wf T = true ->
  forall rest i L,
    interpolate_from T all i rest = Returns L ->
    (forall i', rest !! i' = all !! (i + i')%nat) ->
    forall i' xi yi j' yj,
      rest !! i' = Some (xi, yi) -> all !! j' = Some (xi, yj) -> j' = (i + i')%nat.
Proof.
  intros Hwf. induction rest as [|[x y] rest IH]; intros i L HL Hsub i' xi yi j' yj Hi' Hj';
    [discriminate|].
  cbn [interpolate_from] in HL.
  destruct (interpolate_basis T x i 0 all) as [b| |] eqn:Hb; try discriminate.
  rewrite bind_Returns in HL.
  destruct (PGF256_mul T [y] b) as [term| |]; try discriminate.
  rewrite bind_Returns in HL.
  destruct (interpolate_from T all (S i) rest) as [others| |] eqn:Ho; try discriminate.
  destruct i' as [|i'].
  - injection Hi' as -> ->. rewrite Nat.add_0_r.
    destruct (Nat.eq_dec j' i) as [|Hne]; [assumption|].
    rewrite (interpolate_basis_raises T xi i all Hwf 0%nat j' yj Hj') in Hb
      by (simpl; congruence).
    discriminate.
  - replace (i + S i')%nat with (S i + i')%nat by lia.
    apply (IH (S i) others Ho) with (xi := xi) (yi := yi) (yj := yj);
      [|assumption|assumption].
    intros k. etransitivity; [exact (Hsub (S k))|f_equal; lia].
Qed.

Lemma interpolate_distinct (T : tables) (points : list (GF256elt * GF256elt))
  (L : PGF256) :
  tables_wf T = true -> interpolate T points = Returns L ->
  forall a b xa ya yb,
    points !! a = Some (xa, ya) -> points !! b = Some (xa, yb) -> a = b.
Proof.
  intros Hwf HL a b xa ya yb Ha Hb. unfold interpolate in HL.
  symmetry.
  apply (interpolate_from_distinct T points Hwf points 0%nat L HL
           (fun _ => eq_refl) a xa ya b yb Ha Hb).
Qed.

Lemma first_points_lookup (keys : list (list Z)) (a : nat) (key : list Z) :
  keys !! a = Some key ->
  first_points keys !! a
  = Some (GF256elt_init (nth 0 key 0), GF256elt_init (nth 1 key 0)).
Proof.
  intros H. unfold first_points.
  change (map ?f keys) with (f <$> keys). now rewrite list_lookup_fmap, H.
Qed.

(** X19: two keys whose next pairs carry the same X byte make [decode]
    fail in the field division, whatever the Y bytes: the interpolation
    divides by the difference of the two X values. *)
Theorem decode_repeated_identifier (fuel : nat) (T : tables)
  (keys : list (list Z)) (output : list Z) (a b : nat) (ka kb : list Z) :
  tables_wf T = true ->
  Forall (fun key => (2 <= length key)%nat) keys ->
  keys !! a = Some ka -> keys !! b = Some kb -> a <> b ->
  nth 0 ka 0 mod 256 = nth 0 kb 0 mod 256 ->
  decode (S fuel) T keys output = Raises DivisionByZero.
Proof.
  intros Hwf Hall Ha Hb Hab HX. cbn [decode].
  rewrite read_points_full by assumption. rewrite bind_Returns. cbv beta iota.
  pose proof (interpolate_from_ends T (first_points keys) Hwf (first_points keys) 0%nat)
    as He.
  fold (interpolate T (first_points keys)) in He.
  destruct (interpolate T (first_points keys)) as [L|e|] eqn:HL;
    [|now rewrite He|destruct He].
  exfalso. apply Hab.
  apply (interpolate_distinct T (first_points keys) L Hwf HL a b
           (GF256elt_init (nth 0 ka 0)) (GF256elt_init (nth 1 ka 0))
           (GF256elt_init (nth 1 kb 0))).
  - now apply first_points_lookup.
  - rewrite (first_points_lookup keys b kb Hb). do 2 f_equal.
    apply GF256elt_ext. simpl. now symmetry.
Qed.

Lemma decode_repeated_identifier_witness :
  tables_wf module_tables = true /\
  decode 1 module_tables [[1; 65]; [2; 7]; [257; 9]] [] = Raises DivisionByZero.
Proof.
  split; [vm_compute; reflexivity|].
  apply (decode_repeated_identifier 0 module_tables [[1; 65]; [2; 7]; [257; 9]] []
           0 2 [1; 65] [257; 9]);
    [vm_compute; reflexivity|repeat constructor; simpl; lia
    |reflexivity|reflexivity|lia|reflexivity].
Defined.

(** ** Termination and errors of [decode] *)

Lemma decode_error_rest (keys : list (list Z)) (e : exn) :
  decode_error (rest_of_keys keys) e -> decode_error keys e.
Proof.
  unfold decode_error, rest_of_keys. now rewrite length_map.
Qed.

Lemma decode_ends_within (T : tables) (fuel : nat) :
  tables_wf T = true ->
  forall key after output,
    (length key < 2 * fuel)%nat ->
    returns_or_raises (decode_error (key :: after))
                      (decode fuel T (key :: after) output).
Proof.
  intros Hwf. induction fuel as [|fuel IH]; intros key after output Hfuel; [lia|].
  destruct (keys_cases (key :: after))
    as [Hall|(before & rest & Hb & [Hk|(X & Hk)])].
  - cbn [decode]. rewrite read_points_full by assumption.
    rewrite bind_Returns. cbv beta iota.
    pose proof (interpolate_from_ends T (first_points (key :: after)) Hwf
                  (first_points (key :: after)) 0%nat) as He.
    fold (interpolate T (first_points (key :: after))) in He.
    destruct (interpolate T (first_points (key :: after))) as [L|e|];
      [|right; now left|destruct He].
    rewrite bind_Returns.
    rewrite PGF256_f_returns by (assumption || (apply He; discriminate)).
    rewrite bind_Returns.
    specialize (IH (drop 2 key) (rest_of_keys after)
                   (output ++ [GF256elt_int (PGF256_eval T L (GF256elt_init 0))])).
    apply Forall_inv in Hall. rewrite length_drop in IH.
    specialize (IH ltac:(lia)).
    change (rest_of_keys (key :: after)) with (drop 2 key :: rest_of_keys after).
    destruct (decode fuel T (drop 2 key :: rest_of_keys after) _) as [out|e|];
      [exact I| |exact IH].
    apply (decode_error_rest (key :: after)), IH.
  - rewrite Hk, decode_end_of_key by assumption.
    destruct before as [|k0 before]; [exact I|].
    right; right. exists (length (k0 :: before)). split; [reflexivity|].
    rewrite length_app. simpl. lia.
  - rewrite Hk. cbn [decode]. rewrite read_points_missing_Y by assumption.
    now left.
Qed.

(** X20: given at least one key, [decode] ends after at most one
    iteration per pair of the first key and one more.  It returns, or
    fails in one of three ways: in [ord] on a key that ends between an X
    and its Y, with 'Unexpected EOF' for a key other than the first, or in
    the field division. *)
Theorem decode_ends (fuel : nat) (T : tables) (key : list Z)
  (after : list (list Z)) (output : list Z) :
  tables_wf T = true -> (length key < 2 * fuel)%nat ->
  decode fuel T (key :: after) output <> OutOfFuel /\
  forall e, decode fuel T (key :: after) output = Raises e ->
            e = TypeError \/ e = DivisionByZero \/
            exists i, e = UnexpectedEOF i /\ (0 < i < length (key :: after))%nat.
Proof.
  intros Hwf Hfuel.
  pose proof (decode_ends_within T fuel Hwf key after output Hfuel) as H.
  split.
  - intros Ho. rewrite Ho in H. exact H.
  - intros e He. rewrite He in H. exact H.
Qed.

Lemma decode_ends_witness :
  tables_wf module_tables = true /\
  (length [1; 65; 1; 66] < 2 * 3)%nat /\
  decode 3 module_tables ([1; 65; 1; 66] :: [[2; 7]]) [] <> OutOfFuel /\
  forall e, decode 3 module_tables ([1; 65; 1; 66] :: [[2; 7]]) [] = Raises e ->
            e = TypeError \/ e = DivisionByZero \/
            exists i, e = UnexpectedEOF i /\
                      (0 < i < length ([1; 65; 1; 66] :: [[2; 7]]))%nat.
Proof.
  split; [vm_compute; reflexivity|]. split; [simpl; lia|].
  apply (decode_ends 3 module_tables [1; 65; 1; 66] [[2; 7]] []);
    [vm_compute; reflexivity|simpl; lia].
Defined.

(** * Further properties of split and reconstruct together *)

(** ** More shares than the threshold, and fewer *)

(** X21: any [k] or more of the shares of fresh sinks reconstruct the
    secret, for every threshold [k >= 1], a threshold of one included;
    [decode] appends the secret to the output it is given. *)
Theorem reconstruct_from_enough_shares (fuel : nat) (T : tables) (rand : nat -> Z)
  (stream : list Z) (n : nat) (k : Z) (outs : list (list Z)) (idxs : list nat)
  (keys : list (list Z)) (fuel' : nat) (output : list Z) :
  field_ok T = true -> forallb is_byte stream = true -> 1 <= k ->
  encode fuel T rand stream (replicate n []) k = Returns outs ->
  NoDup idxs -> (Z.to_nat k <= length idxs)%nat -> select outs idxs = Some keys ->
  (length stream < fuel')%nat ->
  decode fuel' T keys output = Returns (output ++ stream).
Proof.
  intros Hf Hbytes Hk Henc Hidxs Hlen Hsel Hfuel.
  rewrite decode_output_shift.
  rewrite (decode_encode fuel T rand stream n k outs idxs keys fuel')
    by assumption.
  reflexivity.
Qed.

Lemma reconstruct_from_enough_shares_witness :
  exists outs keys,
    field_ok module_tables = true /\ forallb is_byte [84; 111] = true /\ 1 <= 2 /\
    encode 1 module_tables Z.of_nat [84; 111] (replicate 4 []) 2 = Returns outs /\
    NoDup [3; 0; 2]%nat /\ (Z.to_nat 2 <= length [3; 0; 2]%nat)%nat /\
    select outs [3; 0; 2]%nat = Some keys /\
    (length [84; 111] < 3)%nat /\
    decode 3 module_tables keys [7] = Returns ([7] ++ [84; 111]).
Proof.
  assert (Hf : field_ok module_tables = true) by (vm_compute; reflexivity).
  assert (Hnd : NoDup [3; 0; 2]%nat)
    by (apply (bool_decide_unpack _); vm_compute; exact I).
  eexists. eexists.
  split; [exact Hf|]. split; [reflexivity|]. split; [lia|].
  split; [vm_compute; reflexivity|].
  split; [exact Hnd|]. split; [simpl; lia|].
  split; [vm_compute; reflexivity|]. split; [simpl; lia|].
  apply (reconstruct_from_enough_shares 1 module_tables Z.of_nat [84; 111] 4 2 _
           [3; 0; 2]%nat _ 3 [7] Hf eq_refl ltac:(lia)
           ltac:(vm_compute; reflexivity) Hnd ltac:(simpl; lia)
           ltac:(vm_compute; reflexivity)).
  simpl; lia.
Defined.

Lemma decode_shares_length (T : tables) (Ps : list PGF256) (xs : list Z) :
  tables_wf T = true -> xs <> [] -> NoDup (map GF256elt_init xs) ->
  forall fuel output, (length Ps < fuel)%nat ->
    exists bytes, decode fuel T (map (share T Ps) xs) output = Returns (output ++ bytes)
                  /\ length bytes = length Ps.
Proof.
  intros Hwf Hxs Hnd. induction Ps as [|P Ps IH]; intros fuel output Hfuel;
    (destruct fuel as [|fuel]; [simpl in Hfuel; lia|]); cbn [decode].
  - rewrite read_points_exhausted by assumption. rewrite bind_Returns.
    exists []. now rewrite app_nil_r.
  - rewrite read_points_pairs. rewrite bind_Returns. cbv beta iota.
    rewrite interpolate_returns
      by (assumption || (rewrite map_map; simpl; now rewrite map_id)).
    rewrite bind_Returns.
    rewrite PGF256_f_returns.
    + rewrite bind_Returns.
      destruct (IH fuel (output ++ [GF256elt_int (PGF256_eval T
                  (PGF256_lagrange T (map (fun x => (x, PGF256_eval T P x))
                                          (map GF256elt_init xs)))
                  (GF256elt_init 0))]) ltac:(simpl in Hfuel; lia))
        as (bytes & -> & Hlen).
      eexists (_ :: bytes). rewrite <- app_assoc. split; [reflexivity|].
      simpl. now rewrite Hlen.
    + assumption.
    + apply PGF256_lagrange_nonempty. destruct xs; [congruence|discriminate].
Qed.

(** X22: [decode] cannot tell that it was given too few shares.  From
    any distinct shares of fresh sinks, however few, it returns without
    error an output as long as the secret. *)
Theorem decode_too_few_shares (fuel : nat) (T : tables) (rand : nat -> Z)
  (stream : list Z) (n : nat) (k : Z) (outs : list (list Z)) (idxs : list nat)
  (keys : list (list Z)) (fuel' : nat) :
  tables_wf T = true ->
  encode fuel T rand stream (replicate n []) k = Returns outs ->
  NoDup idxs -> idxs <> [] -> select outs idxs = Some keys ->
  (length stream < fuel')%nat ->
  exists out, decode fuel' T keys [] = Returns out /\ length out = length stream.
Proof.
  intros Hwf Henc Hidxs Hne Hsel Hfuel.
  destruct (encode_cases fuel T rand stream (replicate n []) k Hwf)
    as [H|(picked & picks & pos & _ & Hl & Hnd & Hrange & H)];
    rewrite H in Henc; [discriminate|].
  injection Henc as <-.
  rewrite length_replicate in Hl. subst n.
  rewrite <- (length_map (share T (polys rand pos stream k)) picks) in Hsel.
  rewrite zip_with_app_fresh in Hsel.
  destruct (select_shares T _ picks idxs keys Hnd Hidxs Hsel)
    as (xs & -> & Hxs & Hxnd & Hin).
  destruct (decode_shares_length T (polys rand pos stream k) xs Hwf) with
    (fuel := fuel') (output := @nil Z) as (bytes & Hd & Hlen).
  - destruct xs; [|discriminate]. destruct idxs; [congruence|discriminate].
  - apply init_NoDup; [assumption|]. intros x Hx. apply Hrange, Hin, Hx.
  - now rewrite polys_length.
  - exists bytes. split; [exact Hd|]. now rewrite Hlen, polys_length.
Qed.

Lemma decode_too_few_shares_witness :
  exists outs keys,
    tables_wf module_tables = true /\
    encode 1 module_tables Z.of_nat [84; 111] (replicate 4 []) 3 = Returns outs /\
    NoDup [2]%nat /\ [2]%nat <> [] /\
    select outs [2]%nat = Some keys /\
    (length [84; 111] < 3)%nat /\
    exists out, decode 3 module_tables keys [] = Returns out /\
                length out = length [84; 111].
Proof.
  assert (Hnd : NoDup [2]%nat)
    by (apply (bool_decide_unpack _); vm_compute; exact I).
  eexists. eexists.
  split; [vm_compute; reflexivity|].
  split; [vm_compute; reflexivity|].
  split; [exact Hnd|]. split; [discriminate|].
  split; [vm_compute; reflexivity|]. split; [simpl; lia|].
  apply (decode_too_few_shares 1 module_tables Z.of_nat [84; 111] 4 3 _
           [2]%nat _ 3 ltac:(vm_compute; reflexivity)
           ltac:(vm_compute; reflexivity) Hnd ltac:(discriminate)
           ltac:(vm_compute; reflexivity)).
  simpl; lia.
Defined.

(** ** Fewer shares than the threshold hide the secret *)

Section Hiding.
Variable T : tables.
Hypothesis Hfield : field_ok T = true.

Lemma PGF256_eval_cons (c : GF256elt) (P : PGF256) (x : GF256elt) :
  PGF256_eval T (c :: P) x = GF256elt_add c (gf_mul T x (PGF256_eval T P x)).
Proof.
  apply (peval_cons GF256elt gf_zero gf_one GF256elt_add (gf_mul T)
           GF256elt_sub (fun x => x) (field_ring T Hfield)).
Qed.

Lemma PGF256_eval_zeros (m : nat) (x : GF256elt) :
  PGF256_eval T (replicate m gf_zero) x = gf_zero.
Proof.
  induction m as [|m IH]; [reflexivity|].
  cbn [replicate]. rewrite PGF256_eval_cons, IH.
  rewrite gf_mul_zero by (right; reflexivity). apply add_zero_l.
Qed.

Lemma PGF256_eval_pad (P : PGF256) (m : nat) (x : GF256elt) :
  PGF256_eval T (P ++ replicate m gf_zero) x = PGF256_eval T P x.
Proof.
  induction P as [|c P IH]; [apply PGF256_eval_zeros|].
  cbn [app]. now rewrite !PGF256_eval_cons, IH.
Qed.

(** Through any values at fewer than [d + 1] identifiers there is a
    polynomial with a given constant term and [d] further coefficients. *)
Lemma hiding_polynomial (b : GF256elt) (xs : list Z) (ys : Z -> GF256elt) (d : nat) :
  NoDup xs -> (forall x, x ∈ xs -> 1 <= x <= 255) -> (length xs <= d)%nat ->
  exists cs, length cs = d /\
             forall x, x ∈ xs -> PGF256_eval T (b :: cs) (GF256elt_init x) = ys x.
Proof.
  intros Hnd Hrange Hlen.
  set (points := (gf_zero, b) :: map (fun x => (GF256elt_init x, ys x)) xs).
  assert (Hfst : NoDup (map fst points)).
  { unfold points. cbn [map fst]. rewrite map_map. cbn [fst].
    apply list.NoDup_cons. split.
    - intros Hin. change (map ?f xs) with (f <$> xs) in Hin.
      apply list_elem_of_fmap in Hin as (x & Hx & Hin).
      apply (f_equal bytevalue) in Hx. specialize (Hrange x Hin).
      rewrite (bytevalue_init x) in Hx by lia.
      change (bytevalue gf_zero) with 0 in Hx. lia.
    - now apply init_NoDup. }
  pose proof (fun m xm ym =>
    lagrange_at_node GF256elt gf_zero gf_one GF256elt_add (gf_mul T) GF256elt_sub
      (gf_div T) (fun c => c) (field_ring T Hfield) (field_div_mul T Hfield)
      points m xm ym Hfst) as Hnode.
  fold (PGF256_lagrange T points) in Hnode. fold (PGF256_eval T) in Hnode.
  pose proof (lagrange_from_length GF256elt gf_zero gf_one GF256elt_add (gf_mul T)
                GF256elt_sub (gf_div T) (fun c => c) points points 0%nat
                ltac:(simpl; lia)) as HL.
  fold (lagrange GF256elt gf_zero gf_one GF256elt_add (gf_mul T) GF256elt_sub
          (gf_div T) (fun c => c) points) in HL.
  fold (PGF256_lagrange T points) in HL.
  pose proof (PGF256_lagrange_nonempty T points ltac:(discriminate)) as Hne.
  destruct (PGF256_lagrange T points) as [|c cs0] eqn:HQ; [congruence|].
  assert (Hc : c = b).
  { rewrite <- (PGF256_eval_constant_term T c cs0).
    apply (Hnode 0%nat). reflexivity. }
  subst c. unfold points in HL. cbn [length] in HL. rewrite length_map in HL.
  exists (cs0 ++ replicate (d - length cs0) gf_zero). split.
  - rewrite length_app, length_replicate. lia.
  - intros x Hx. change (b :: cs0 ++ ?z) with ((b :: cs0) ++ z).
    rewrite PGF256_eval_pad.
    apply list_elem_of_lookup in Hx as [m Hm].
    apply (Hnode (S m)). unfold points.
    change (map ?f xs) with (f <$> xs).
    change ((?a :: ?l) !! S m) with (l !! m).
    now rewrite list_lookup_fmap, Hm.
Qed.

(** The evaluation of a sum of polynomials. *)
Lemma PGF256_eval_add (P Q : PGF256) (x : GF256elt) :
  PGF256_eval T (PGF256_add P Q) x
  = GF256elt_add (PGF256_eval T P x) (PGF256_eval T Q x).
Proof.
  apply (peval_padd GF256elt gf_zero gf_one GF256elt_add (gf_mul T)
           GF256elt_sub (fun x => x) (field_ring T Hfield)).
Qed.

(** Adding polynomials that vanish at [x] does not change the share of
    the identifier [x]. *)
Lemma share_add_vanishing (Ps Qs : list PGF256) (x : Z) :
  length Qs = length Ps ->
  Forall (fun Q => PGF256_eval T Q (GF256elt_init x) = gf_zero) Qs ->
  share T (zip_with PGF256_add Ps Qs) x = share T Ps x.
Proof.
  intros Hlen HQs. unfold share. f_equal.
  revert Ps Hlen. induction HQs as [|Q Qs HQ _ IH]; intros [|P Ps] Hlen;
    try discriminate; [reflexivity|].
  cbn [zip_with map]. rewrite IH by (simpl in Hlen; lia). f_equal.
  rewrite PGF256_eval_add, HQ, add_comm. now rewrite add_zero_l.
Qed.

(** For two secrets of the same length there are, byte by byte,
    coefficients [qs] such that the polynomial with constant term the
    difference of the two bytes and further coefficients [qs] vanishes at
    the identifiers. *)
Lemma vanishing_polynomials (xs : list Z) (d : nat) :
  NoDup xs -> (forall x, x ∈ xs -> 1 <= x <= 255) -> (length xs <= d)%nat ->
  forall stream stream' : list Z, length stream' = length stream ->
    exists items : list (Z * Z * list GF256elt),
      map (fun it => it.1.1) items = stream /\
      map (fun it => it.1.2) items = stream' /\
      Forall (fun it =>
                length it.2 = d /\
                forall x, x ∈ xs ->
                  PGF256_eval T (GF256elt_add (GF256elt_init it.1.1)
                                              (GF256elt_init it.1.2) :: it.2)
                              (GF256elt_init x) = gf_zero) items.
Proof.
  intros Hnd Hrange Hlen.
  induction stream as [|b stream IH]; intros [|b' stream'] Hs; try discriminate.
  - exists []. repeat split. constructor.
  - injection Hs as Hs. destruct (IH stream' Hs) as (items & H1 & H2 & H3).
    destruct (hiding_polynomial (GF256elt_add (GF256elt_init b) (GF256elt_init b'))
                xs (fun _ => gf_zero) d Hnd Hrange Hlen) as (qs & Hqs & Hval).
    exists ((b, b', qs) :: items). cbn [map fst snd]. rewrite H1, H2.
    split; [reflexivity|]. split; [reflexivity|].
    constructor; [|assumption]. split; assumption.
Qed.
End Hiding.

(** *** The polynomials drawn from a shifted source *)

Lemma pickRandomPolynomial_closed (rand : nat -> Z) (pos : nat) (degree : Z)
  (value : GF256elt) :
  pickRandomPolynomial rand pos degree value
  = (value :: map (fun j => GF256elt_init (randint 0 255 (rand (pos + j)%nat)))
                  (seq 0 (Z.to_nat degree)),
     (pos + Z.to_nat degree)%nat).
Proof.
  unfold pickRandomPolynomial. rewrite pick_fold, range_length.
  now replace (Z.to_nat (degree + 1 - 1)) with (Z.to_nat degree) by lia.
Qed.

Lemma randint_lxor (r delta : Z) :
  GF256elt_init (randint 0 255 (Z.lxor r delta))
  = GF256elt_add (GF256elt_init (randint 0 255 r)) (GF256elt_init delta).
Proof.
  apply GF256elt_ext. unfold GF256elt_add, randint.
  change (255 - 0 + 1) with 256. cbn [bytevalue GF256elt_init].
  rewrite !Z.add_0_l, !Z.mod_mod by lia.
  change 256 with (2 ^ 8). rewrite <- !Z.land_ones by lia.
  rewrite !land_lxor_distr, <- !Z.land_assoc, Z.land_diag. reflexivity.
Qed.

Lemma padd_map_seq (f : nat -> GF256elt) (n : nat) :
  forall (s : nat) (qs : list GF256elt), length qs = n ->
    PGF256_add (map f (seq s n)) qs
    = map (fun j => GF256elt_add (f j) (nth (j - s) qs gf_zero)) (seq s n).
Proof.
  induction n as [|n IH]; intros s [|q qs] Hlen; try discriminate; [reflexivity|].
  cbn [seq map]. unfold PGF256_add in *. cbn [padd].
  rewrite Nat.sub_diag. cbn [nth]. f_equal.
  rewrite (IH (S s) qs) by (simpl in Hlen; lia).
  apply map_ext_in. intros j Hj. apply in_seq in Hj.
  replace (j - s)%nat with (S (j - S s)) by lia. reflexivity.
Qed.

(** Drawing for the second secret from a source whose draws differ by
    the coefficients [qs] gives the polynomials of the first secret with
    the vanishing polynomials added. *)
Lemma polys_shift (k : Z) (items : list (Z * Z * list GF256elt)) :
  Forall (fun it => length it.2 = Z.to_nat (k - 1)) items ->
  forall (rand rand' : nat -> Z) (pos : nat),
    (forall c, (c < length (concat (map snd items)))%nat ->
       rand' (pos + c)%nat
       = Z.lxor (rand (pos + c)%nat)
                (bytevalue (nth c (concat (map snd items)) gf_zero))) ->
    polys rand' pos (map (fun it => it.1.2) items) k
    = zip_with PGF256_add
        (polys rand pos (map (fun it => it.1.1) items) k)
        (map (fun it => GF256elt_add (GF256elt_init it.1.1) (GF256elt_init it.1.2)
                        :: it.2) items).
Proof.
  set (d := Z.to_nat (k - 1)).
  induction 1 as [|[[b b'] qs] items Hqs _ IH]; intros rand rand' pos Hdraws;
    [reflexivity|].
  cbn [fst snd] in Hqs. cbn [map fst snd concat] in *.
  cbn [polys]. rewrite !pickRandomPolynomial_closed. fold d.
  cbn [zip_with]. f_equal.
  - unfold PGF256_add. cbn [padd]. fold (PGF256_add). f_equal.
    + rewrite add_assoc, add_self. now rewrite add_zero_l.
    + change (padd GF256elt GF256elt_add ?P qs) with (PGF256_add P qs).
      rewrite padd_map_seq by assumption.
      apply map_ext_in. intros j Hj. apply in_seq in Hj.
      rewrite Nat.sub_0_r.
      rewrite Hdraws by (rewrite length_app; lia).
      rewrite randint_lxor, app_nth1 by lia. now rewrite init_bytevalue.
  - apply IH. intros c Hc.
    replace (pos + d + c)%nat with (pos + (d + c))%nat by lia.
    rewrite Hdraws by (rewrite length_app; lia).
    rewrite <- Hqs at 2. now rewrite app_nth2_plus.
Qed.

(** *** The identifiers depend on the draws made for them only *)

Lemma pick_loop_advances (rand : nat -> Z) (picked : list bool) (fuel : nat) :
  forall pos pick pos',
    pick_loop fuel rand pos picked = Returns (pick, pos') -> (pos < pos')%nat.
Proof.
  induction fuel as [|fuel IH]; intros pos pick pos' H; [discriminate|].
  cbn [pick_loop] in H.
  destruct (getitem picked (randint 1 255 (rand pos))) as [taken| |];
    try discriminate.
  rewrite bind_Returns in H. destruct taken; cbn [negb] in H.
  - apply IH in H. lia.
  - injection H as _ <-. lia.
Qed.

Lemma pick_loop_ext (rand rand' : nat -> Z) (picked : list bool) (fuel : nat) :
  forall pos pick pos',
    pick_loop fuel rand pos picked = Returns (pick, pos') ->
    (forall p, (p < pos')%nat -> rand' p = rand p) ->
    pick_loop fuel rand' pos picked = Returns (pick, pos').
Proof.
  induction fuel as [|fuel IH]; intros pos pick pos' H Hagree; [discriminate|].
  pose proof (pick_loop_advances rand picked (S fuel) pos pick pos' H) as Hlt.
  cbn [pick_loop] in *. rewrite (Hagree pos Hlt).
  destruct (getitem picked (randint 1 255 (rand pos))) as [taken| |];
    try discriminate.
  rewrite bind_Returns in *. destruct taken; cbn [negb] in *; [|exact H].
  now apply IH.
Qed.

Lemma pick_rounds_ext (rand rand' : nat -> Z) (fuel : nat) (l : list Z) :
  forall (s final : list bool * list Z * nat),
    for_each l s
      (fun i '(picked, picks, pos) =>
         '(pick, pos) ← pick_loop fuel rand pos picked;
         picked ← setitem picked pick true;
         Returns (picked, picks ++ [pick], pos)) = Returns final ->
    (s.2 <= final.2)%nat /\
    ((forall p, (p < final.2)%nat -> rand' p = rand p) ->
     for_each l s
       (fun i '(picked, picks, pos) =>
          '(pick, pos) ← pick_loop fuel rand' pos picked;
          picked ← setitem picked pick true;
          Returns (picked, picks ++ [pick], pos)) = Returns final).
Proof.
  induction l as [|i l IH]; intros s final H; cbn [for_each] in *.
  - injection H as <-. split; [lia|reflexivity].
  - destruct s as [[picked picks] pos].
    destruct (pick_loop fuel rand pos picked) as [[pick pos']| |] eqn:Hp;
      try discriminate.
    rewrite bind_Returns in H. cbv beta iota in H.
    destruct (setitem picked pick true) as [picked'| |] eqn:Hs; try discriminate.
    rewrite !bind_Returns in H. cbv beta in H.
    destruct (IH _ _ H) as (Hle & Hext). cbn [snd] in Hle.
    pose proof (pick_loop_advances rand picked fuel pos pick pos' Hp) as Hlt.
    split; [cbn [snd]; lia|].
    intros Hagree.
    rewrite (pick_loop_ext rand rand' picked fuel pos pick pos' Hp)
      by (intros p Hp'; apply Hagree; lia).
    rewrite bind_Returns. cbv beta iota. rewrite Hs, !bind_Returns. cbv beta.
    now apply Hext.
Qed.

Lemma pick_all_ext (rand rand' : nat -> Z) (fuel : nat) (n : Z)
  (picked : list bool) (picks : list Z) (pos : nat) :
  pick_all fuel rand n = Returns (picked, picks, pos) ->
  (forall p, (p < pos)%nat -> rand' p = rand p) ->
  pick_all fuel rand' n = Returns (picked, picks, pos).
Proof.
  unfold pick_all. intros H Hagree.
  now apply (pick_rounds_ext rand rand' fuel (range 0 n) _ _ H).
Qed.

(** *** The shares selected *)

Lemma shift_draws_before (pos : nat) (deltas : list Z) (rand : nat -> Z) (p : nat) :
  (p < pos)%nat -> shift_draws pos deltas rand p = rand p.
Proof. intros Hp. unfold shift_draws. now destruct (Nat.ltb_spec p pos); [|lia]. Qed.

Lemma shift_draws_involutive (pos : nat) (deltas : list Z) (rand : nat -> Z) (p : nat) :
  shift_draws pos deltas (shift_draws pos deltas rand) p = rand p.
Proof.
  unfold shift_draws. destruct (Nat.ltb_spec p pos); [reflexivity|].
  now rewrite Z.lxor_assoc, Z.lxor_nilpotent, Z.lxor_0_r.
Qed.

(** The identifiers of the selected sinks: distinct, among those chosen,
    no more than the sinks selected, and all that the selection depends
    on. *)
Lemma selected_identifiers (picks : list Z) (idxs : list nat) :
  NoDup picks -> NoDup idxs ->
  exists xs,
    NoDup xs /\ (length xs <= length idxs)%nat /\
    (forall x, x ∈ xs -> exists i, i ∈ idxs /\ picks !! i = Some x) /\
    forall f g : Z -> list Z,
      (forall x, x ∈ xs -> f x = g x) ->
      select (map f picks) idxs = select (map g picks) idxs.
Proof.
  intros Hpicks. induction idxs as [|i idxs IH]; intros Hidxs.
  - exists []. split; [constructor|]. split; [reflexivity|].
    split; [intros x Hx; inversion Hx|reflexivity].
  - apply list.NoDup_cons in Hidxs as [Hi Hidxs].
    destruct (IH Hidxs) as (xs & Hnd & Hlen & Hfrom & Hsel).
    destruct (picks !! i) as [x|] eqn:Hx.
    + exists (x :: xs). split; [|split; [simpl; lia|split]].
      * apply list.NoDup_cons. split; [|assumption].
        intros Hin. destruct (Hfrom x Hin) as (i' & Hi' & Hx').
        assert (i' = i) by (apply (proj1 (NoDup_alt _) Hpicks i' i x); assumption).
        subst i'. contradiction.
      * intros y Hy. apply elem_of_cons in Hy as [->|Hy].
        -- exists i. split; [left|assumption].
        -- destruct (Hfrom y Hy) as (i' & Hi' & Hy'). exists i'.
           split; [now right|assumption].
      * intros f g Hfg. unfold select in *. cbn [mapM].
        change (map f picks) with (f <$> picks).
        change (map g picks) with (g <$> picks).
        rewrite !list_lookup_fmap, Hx. cbn [fmap option_fmap option_map].
        rewrite (Hfg x) by left.
        change (f <$> picks) with (map f picks).
        change (g <$> picks) with (map g picks).
        now rewrite (Hsel f g) by (intros y Hy; apply Hfg; now right).
    + exists xs. split; [assumption|]. split; [simpl; lia|]. split.
      * intros y Hy. destruct (Hfrom y Hy) as (i' & Hi' & Hy'). exists i'.
        split; [now right|assumption].
      * intros f g Hfg. unfold select. cbn [mapM].
        change (map f picks) with (f <$> picks).
        change (map g picks) with (g <$> picks).
        now rewrite !list_lookup_fmap, Hx.
Qed.

(** X23: fewer than [k] shares are written the same way for every
    secret of a given length.  Once the identifiers are chosen there is a
    fixed sequence of bytes, depending on the two secrets, the
    identifiers, the selection and [k] but not on the later draws, such
    that XORing the later draws with it, which is an involution of the
    random sources, turns every run of [encode] on the first secret into
    a run on the second that writes exactly the same bytes to the
    selected sinks. *)
Theorem shares_below_threshold_hide_secret (fuel : nat) (T : tables)
  (rand : nat -> Z) (stream stream' : list Z) (n : nat) (k : Z)
  (idxs : list nat) (picked : list bool) (picks : list Z) (pos : nat) :
  field_ok T = true ->
  length stream' = length stream ->
  NoDup idxs -> (length idxs < Z.to_nat k)%nat ->
  pick_all fuel rand (Z.of_nat n) = Returns (picked, picks, pos) ->
  exists deltas : list Z,
    forall rand2 : nat -> Z,
      (forall p, (p < pos)%nat -> rand2 p = rand p) ->
      (forall p, shift_draws pos deltas (shift_draws pos deltas rand2) p = rand2 p) /\
      exists outs outs',
        encode fuel T rand2 stream (replicate n []) k = Returns outs /\
        encode fuel T (shift_draws pos deltas rand2) stream' (replicate n []) k
        = Returns outs' /\
        select outs' idxs = select outs idxs.
Proof.
  intros Hf Hlen Hidxs Hfew Hpick.
  pose proof (field_tables_wf T Hf) as Hwf.
  pose proof (pick_all_spec fuel rand n) as Hspec. rewrite Hpick in Hspec.
  destruct Hspec as (Hl & Hnd & Hrange).
  destruct (selected_identifiers picks idxs Hnd Hidxs)
    as (xs & Hxnd & Hxlen & Hfrom & Hsel).
  assert (Hxrange : forall x, x ∈ xs -> 1 <= x <= 255).
  { intros x Hx. destruct (Hfrom x Hx) as (i & _ & Hi).
    apply Hrange. eapply list_elem_of_lookup_2; eassumption. }
  destruct (vanishing_polynomials T Hf xs (Z.to_nat (k - 1)) Hxnd Hxrange
              ltac:(lia) stream stream' Hlen) as (items & H1 & H2 & Hitems).
  exists (map bytevalue (concat (map snd items))).
  intros rand2 Hagree. split; [apply shift_draws_involutive|].
  set (rand2' := shift_draws pos (map bytevalue (concat (map snd items))) rand2).
  set (Ps := polys rand2 pos stream k).
  set (Qs := map (fun it : Z * Z * list GF256elt =>
                    GF256elt_add (GF256elt_init it.1.1) (GF256elt_init it.1.2)
                    :: it.2) items).
  assert (Hpolys : polys rand2' pos stream' k = zip_with PGF256_add Ps Qs).
  { unfold Ps, Qs. rewrite <- H1, <- H2. apply polys_shift.
    - clear -Hitems. revert Hitems. apply Forall_impl. now intros it [Hit _].
    - intros c Hc. unfold rand2', shift_draws.
      destruct (Nat.ltb_spec (pos + c) pos); [lia|].
      replace (pos + c - pos)%nat with c by lia.
      change 0 with (bytevalue gf_zero) at 1. now rewrite map_nth. }
  exists (map (share T Ps) picks), (map (share T (zip_with PGF256_add Ps Qs)) picks).
  assert (Henc : forall r s Rs, (forall p, (p < pos)%nat -> r p = rand p) ->
            polys r pos s k = Rs ->
            encode fuel T r s (replicate n []) k = Returns (map (share T Rs) picks)).
  { intros r s Rs Hr HRs. unfold encode. cbv zeta. rewrite length_replicate.
    rewrite (pick_all_ext rand r fuel _ picked picks pos Hpick Hr).
    rewrite bind_Returns. cbv beta iota. rewrite <- Hl.
    rewrite encode_loop_spec by (assumption || now rewrite length_replicate).
    rewrite HRs. rewrite <- (length_map (share T Rs) picks) at 1.
    now rewrite zip_with_app_fresh. }
  split; [now apply Henc|]. split.
  - apply Henc; [|exact Hpolys].
    intros p Hp. unfold rand2'. rewrite shift_draws_before by assumption.
    now apply Hagree.
  - apply Hsel. intros x Hx. apply (share_add_vanishing T Hf).
    + unfold Ps, Qs. rewrite length_map, polys_length, <- H1. now rewrite length_map.
    + unfold Qs. rewrite Forall_map.
      revert Hitems. apply Forall_impl. intros it [_ Hit]. now apply Hit.
Qed.

Lemma shares_below_threshold_hide_secret_witness :
  field_ok module_tables = true /\
  length [1; 2] = length [84; 111] /\
  NoDup [3; 1]%nat /\ (length [3; 1]%nat < Z.to_nat 3)%nat /\
  pick_all 1 Z.of_nat (Z.of_nat 4)
  = Returns (<[4%nat := true]> (<[3%nat := true]> (<[2%nat := true]>
               (<[1%nat := true]> (replicate 256 false)))), [1; 2; 3; 4], 4%nat) /\
  exists deltas : list Z,
    forall rand2 : nat -> Z,
      (forall p, (p < 4)%nat -> rand2 p = Z.of_nat p) ->
      (forall p, shift_draws 4 deltas (shift_draws 4 deltas rand2) p = rand2 p) /\
      exists outs outs',
        encode 1 module_tables rand2 [84; 111] (replicate 4 []) 3 = Returns outs /\
        encode 1 module_tables (shift_draws 4 deltas rand2) [1; 2] (replicate 4 []) 3
        = Returns outs' /\
        select outs' [3; 1]%nat = select outs [3; 1]%nat.
Proof.
  assert (Hf : field_ok module_tables = true) by (vm_compute; reflexivity).
  assert (Hnd : NoDup [3; 1]%nat)
    by (apply (bool_decide_unpack _); vm_compute; exact I).
  split; [exact Hf|]. split; [reflexivity|].
  split; [exact Hnd|]. split; [simpl; lia|].
  split; [vm_compute; reflexivity|].
  eapply (shares_below_threshold_hide_secret 1 module_tables Z.of_nat [84; 111]
            [1; 2] 4 3 [3; 1]%nat _ [1; 2; 3; 4] 4 Hf eq_refl Hnd ltac:(simpl; lia)).
  vm_compute; reflexivity.
Defined.
